(** * The room coordinator of [src/multiplayer.mjs]

    A shallow embedding of the [ChatRoom] durable object: its [fetch]
    entry point, the attach sequence of [handleSession], the steady-state
    dispatcher, the broadcast primitives and the close handler.

    JavaScript runs the object on one thread; a handler runs to its next
    [await] without interruption.  The embedding therefore is a step
    function over the events the runtime delivers (a request, a storage
    reply, the continuation of a suspended [handleSession], a frame, a
    close), each step being the uninterrupted piece of code the event
    runs.  Code throws, so the pieces live in a state-and-exception
    monad in which the effects made before a throw persist. *)

From Stdlib Require Import ZArith Ascii String.
From stdpp Require Import base list strings pretty gmap.

Local Open Scope string_scope.
Local Open Scope list_scope.

(** ** Values *)

#[local] Set Warnings "-register-all".

(** The JavaScript values that cross the interfaces of the coordinator:
    stored arrays and maps, message payloads, frame arguments. *)
Inductive jsval :=
| JUndefined
| JNull
| JNum (n : Z)
| JStr (s : string)
| JBytes (b : list Byte.byte)
| JArr (items : list jsval)
| JObj (fields : list (string * jsval)).

(** [for (const k in v)]: the enumerable keys of an object in the order
    the object lists them; the indices of an array or a byte array. *)
Definition indices (n : nat) : list string := (λ i : nat, pretty i) <$> seq 0 n.

Definition forIn (v : jsval) : list string :=
  match v with
  | JObj fields => fst <$> fields
  | JArr items => indices (length items)
  | JBytes b => indices (length b)
  | JStr s => indices (String.length s)
  | _ => []
  end.

(** [v ?? d] *)
Definition nullish (v : option jsval) (d : jsval) : jsval :=
  match v with
  | None | Some JUndefined | Some JNull => d
  | Some x => x
  end.

(** A [MessageEvent]: its type and its [data]. *)
Inductive MessageEvent := mkMessageEvent (type : string) (data : jsval).

(** What travels on a WebSocket: an [ArrayBuffer] or a string. *)
Inductive wsdata :=
| Binary (b : list Byte.byte)
| Text (s : string).

(** The events the data client fires from [emitUpdate]:
    [e.data = {keys, deadHand}] and [e.data = {keys, liveHand}]. *)
Inductive handEvent :=
| deadhand (keys : list string) (deadHand : option string)
| livehand (keys : list string) (liveHand : option string).

(** ** The collaborators

    [multiplayer.mjs] imports the data client, the document-CRDT client,
    the lock client, the method predicates and the wire codec from
    [public/], which is not part of the sources at hand.  The coordinator
    is verified against any implementation of them. *)
Class Collaborators := {
  DataClient : Type;
  CrdtClient : Type;
  LockClient : Type;
  (* util.mjs *)
  serializeMessage : MessageEvent → list Byte.byte;
  parseUpdateObject : list Byte.byte → Z * list jsval;
  (* [JSON.stringify({error: err.stack})] for an error with this message *)
  errorFrame : string → string;
  (* update-types.mjs *)
  LOCK_REQUEST : Z;
  LOCK_RESPONSE : Z;
  LOCK_RELEASE : Z;
  (* the handlesMethod predicates *)
  dataHandlesMethod : Z → bool;
  crdtHandlesMethod : Z → bool;
  lockHandlesMethod : Z → bool;
  ircHandlesMethod : Z → bool;
  networkedAudioClientHandlesMethod : Z → bool;
  networkedVideoClientHandlesMethod : Z → bool;
  (* data-client.mjs *)
  newDataClient : list (string * jsval) → string → DataClient;
  getImportMessage : DataClient → MessageEvent;
  applyUint8Array :
    DataClient → list Byte.byte →
    DataClient * (option MessageEvent * option MessageEvent);
  emitUpdate : DataClient → MessageEvent → DataClient * list handEvent;
  hasKey : DataClient → string → string → bool;
  getKeys : DataClient → string → list string;
  removeUpdate : DataClient → string → string → MessageEvent;
  (* crdt-client.mjs *)
  newCrdtClient : option jsval → CrdtClient;
  getInitialUpdateMessage : CrdtClient → MessageEvent;
  crdtUpdate : CrdtClient → jsval → CrdtClient;
  getStateAsUpdate : CrdtClient → jsval;
  (* lock-client.mjs *)
  newLockClient : LockClient;
  lockHandle : LockClient → option MessageEvent → LockClient;
  serverUnlockSession : LockClient → nat → option string → LockClient
}.

(** ** Strings: the two regular expressions of the source *)

(** The fields of [s] between the occurrences of [sep]; never empty. *)
Fixpoint fields (sep : ascii) (s : string) : list string :=
  match s with
  | EmptyString => [EmptyString]
  | String c s' =>
      if Ascii.eqb c sep then EmptyString :: fields sep s'
      else match fields sep s' with
           | [] => [String c EmptyString]
           | f :: fs => String c f :: fs
           end
  end.

Definition nonempty (s : string) : bool :=
  match s with EmptyString => false | _ => true end.

(** An entry of a session's [deadHands] table: [{arrayId, arrayIndexId}],
    [arrayIndexId] being [null] for a whole array. *)
Record hand := mkHand { arrayId : string; arrayIndexId : option string }.

(** The key of a dead hand: [/^([^\.]+?)\.([^\.]+)$/] gives a map of an
    array, [/^([^\.]+)$/] a whole array, anything else is refused. *)
Definition parseKey (key : string) : option hand :=
  match fields "." key with
  | [a; i] => if nonempty a && nonempty i then Some (mkHand a (Some i)) else None
  | [a] => if nonempty a then Some (mkHand a None) else None
  | _ => None
  end.

(** [url.pathname.match(/^\/([^\/]+?)\/([^\/]+?)$/)]: the room name and the
    method name, both [''] when the path does not match. *)
Definition matchPath (pathname : string) : string * string :=
  match fields "/" pathname with
  | [e; r; m] =>
      if negb (nonempty e) && nonempty r && nonempty m then (r, m) else ("", "")
  | _ => ("", "")
  end.

Example parseKey_map : parseKey "worldApps.x1" = Some (mkHand "worldApps" (Some "x1")).
Proof. reflexivity. Qed.
Example parseKey_array : parseKey "worldApps" = Some (mkHand "worldApps" None).
Proof. reflexivity. Qed.
Example parseKey_bad : parseKey "a.b.c" = None ∧ parseKey "" = None ∧ parseKey "a." = None.
Proof. repeat split; reflexivity. Qed.
Example matchPath_ok : matchPath "/r1/websocket" = ("r1", "websocket").
Proof. reflexivity. Qed.
Example matchPath_no : matchPath "/r1" = ("", "") ∧ matchPath "/a/b/c" = ("", "").
Proof. split; reflexivity. Qed.

(** ** The state of the room object *)

(** The listeners a session's socket carries for ['message']: the one
    [_pauseWebSocket] adds, and the steady-state one of [handleSession]. *)
Inductive listener := onmessage | onsession.

#[global] Instance listener_eq_dec : EqDecision listener.
Proof. solve_decision. Defined.

(** Where the [handleSession] of a socket stands: suspended at its
    [await]s, past them, or thrown out of (the error [handleErrors] got). *)
Inductive phase := suspended | resumed | failed (err : string).

(** One [handleSession] activation: the socket and the variables of the
    closure.  The session object [{webSocket, playerId, quit}] is this
    record; its identity is the index of the record in [conns]. *)
Record conn := mkConn {
  room : string;
  playerId : option string;
  dataClientPromise : nat;
  crdtClientPromise : nat;
  lockClientPromise : nat;
  sendFails : bool;                  (* the transport throws on [send] *)
  listeners : list listener;         (* for ['message'], as registered *)
  queue : list wsdata;               (* of [_pauseWebSocket] *)
  closeOrErrorHandler : bool;        (* registered for ['close'], ['error'] *)
  quit : bool;
  deadHands : list (string * hand);  (* a [Map]: insertion order *)
  stage : phase;
  closed : option (Z * string)       (* [webSocket.close(code, reason)] *)
}.

(** What a run does that a client or the list can see, in order. *)
Inductive action :=
| Sent (ws : nat) (d : wsdata)         (* [send] on [ws] went through *)
| Dispatched (ws : nat) (d : wsdata)   (* the steady-state listener ran *)
| Pushed (ws : nat).                   (* [this.sessions.push(session)] *)

(** The calls the storage sees; a get carries the room whose
    initialization issued it. *)
Inductive storageOp :=
| storageGet (roomName : string) (key : string)
| storagePut (key : string) (v : jsval).

(** What a piece of code ends in: a value, or an error thrown. *)
Inductive outcome (A : Type) :=
| Return (a : A)
| Throw (err : string).
Arguments Return {A} a.
Arguments Throw {A} err.

Section Room.
Context `{Collaborators}.

(** [readCrdtFromStorage] suspended at a [storage.get]. *)
Record reading := mkReading {
  awaited : string;                  (* the key asked for *)
  fetched : option jsval;            (* what the storage holds for it *)
  isArray : bool;                    (* the outer loop's get, or the inner's *)
  indexIds : list string;            (* keys of the array still to read *)
  arrayNames : list string;          (* arrays still to read *)
  crdt : list (string * jsval)       (* the [Map] under construction *)
}.

Inductive dataPromise :=
| dataPending (roomName : string) (r : reading)
| dataResolved (dataClient : DataClient) (handListeners : list nat).

Inductive crdtPromise :=
| crdtPending (initialUpdate : option jsval)
| crdtResolved (crdtClient : CrdtClient).

Record state := mkState {
  conns : list conn;
  sessions : list nat;                          (* [this.sessions] *)
  dataClientPromises : gmap string nat;
  crdtClientPromises : gmap string nat;
  lockClientPromises : gmap string nat;
  dataPromiseHeap : list dataPromise;
  crdtPromiseHeap : list crdtPromise;
  lockPromiseHeap : list LockClient;
  storage : gmap string jsval;
  storageLog : list storageOp;
  trace : list action;
  console : list string;
  spinning : bool            (* a loop that does not end holds the thread *)
}.

Definition set_conns v st :=
  mkState v (sessions st) (dataClientPromises st) (crdtClientPromises st)
    (lockClientPromises st) (dataPromiseHeap st) (crdtPromiseHeap st)
    (lockPromiseHeap st) (storage st) (storageLog st) (trace st) (console st)
    (spinning st).
Definition set_sessions v st :=
  mkState (conns st) v (dataClientPromises st) (crdtClientPromises st)
    (lockClientPromises st) (dataPromiseHeap st) (crdtPromiseHeap st)
    (lockPromiseHeap st) (storage st) (storageLog st) (trace st) (console st)
    (spinning st).
Definition set_dataClientPromises v st :=
  mkState (conns st) (sessions st) v (crdtClientPromises st)
    (lockClientPromises st) (dataPromiseHeap st) (crdtPromiseHeap st)
    (lockPromiseHeap st) (storage st) (storageLog st) (trace st) (console st)
    (spinning st).
Definition set_crdtClientPromises v st :=
  mkState (conns st) (sessions st) (dataClientPromises st) v
    (lockClientPromises st) (dataPromiseHeap st) (crdtPromiseHeap st)
    (lockPromiseHeap st) (storage st) (storageLog st) (trace st) (console st)
    (spinning st).
Definition set_lockClientPromises v st :=
  mkState (conns st) (sessions st) (dataClientPromises st)
    (crdtClientPromises st) v (dataPromiseHeap st) (crdtPromiseHeap st)
    (lockPromiseHeap st) (storage st) (storageLog st) (trace st) (console st)
    (spinning st).
Definition set_dataPromiseHeap v st :=
  mkState (conns st) (sessions st) (dataClientPromises st)
    (crdtClientPromises st) (lockClientPromises st) v (crdtPromiseHeap st)
    (lockPromiseHeap st) (storage st) (storageLog st) (trace st) (console st)
    (spinning st).
Definition set_crdtPromiseHeap v st :=
  mkState (conns st) (sessions st) (dataClientPromises st)
    (crdtClientPromises st) (lockClientPromises st) (dataPromiseHeap st) v
    (lockPromiseHeap st) (storage st) (storageLog st) (trace st) (console st)
    (spinning st).
Definition set_lockPromiseHeap v st :=
  mkState (conns st) (sessions st) (dataClientPromises st)
    (crdtClientPromises st) (lockClientPromises st) (dataPromiseHeap st)
    (crdtPromiseHeap st) v (storage st) (storageLog st) (trace st) (console st)
    (spinning st).
Definition set_storage v st :=
  mkState (conns st) (sessions st) (dataClientPromises st)
    (crdtClientPromises st) (lockClientPromises st) (dataPromiseHeap st)
    (crdtPromiseHeap st) (lockPromiseHeap st) v (storageLog st) (trace st)
    (console st) (spinning st).
Definition set_storageLog v st :=
  mkState (conns st) (sessions st) (dataClientPromises st)
    (crdtClientPromises st) (lockClientPromises st) (dataPromiseHeap st)
    (crdtPromiseHeap st) (lockPromiseHeap st) (storage st) v (trace st)
    (console st) (spinning st).
Definition set_trace v st :=
  mkState (conns st) (sessions st) (dataClientPromises st)
    (crdtClientPromises st) (lockClientPromises st) (dataPromiseHeap st)
    (crdtPromiseHeap st) (lockPromiseHeap st) (storage st) (storageLog st) v
    (console st) (spinning st).
Definition set_console v st :=
  mkState (conns st) (sessions st) (dataClientPromises st)
    (crdtClientPromises st) (lockClientPromises st) (dataPromiseHeap st)
    (crdtPromiseHeap st) (lockPromiseHeap st) (storage st) (storageLog st)
    (trace st) v (spinning st).
Definition set_spinning v st :=
  mkState (conns st) (sessions st) (dataClientPromises st)
    (crdtClientPromises st) (lockClientPromises st) (dataPromiseHeap st)
    (crdtPromiseHeap st) (lockPromiseHeap st) (storage st) (storageLog st)
    (trace st) (console st) v.

Definition set_sendFails v c :=
  mkConn (room c) (playerId c) (dataClientPromise c) (crdtClientPromise c)
    (lockClientPromise c) v (listeners c) (queue c) (closeOrErrorHandler c)
    (quit c) (deadHands c) (stage c) (closed c).
Definition set_listeners v c :=
  mkConn (room c) (playerId c) (dataClientPromise c) (crdtClientPromise c)
    (lockClientPromise c) (sendFails c) v (queue c) (closeOrErrorHandler c)
    (quit c) (deadHands c) (stage c) (closed c).
Definition set_queue v c :=
  mkConn (room c) (playerId c) (dataClientPromise c) (crdtClientPromise c)
    (lockClientPromise c) (sendFails c) (listeners c) v (closeOrErrorHandler c)
    (quit c) (deadHands c) (stage c) (closed c).
Definition set_closeOrErrorHandler v c :=
  mkConn (room c) (playerId c) (dataClientPromise c) (crdtClientPromise c)
    (lockClientPromise c) (sendFails c) (listeners c) (queue c) v
    (quit c) (deadHands c) (stage c) (closed c).
Definition set_quit v c :=
  mkConn (room c) (playerId c) (dataClientPromise c) (crdtClientPromise c)
    (lockClientPromise c) (sendFails c) (listeners c) (queue c)
    (closeOrErrorHandler c) v (deadHands c) (stage c) (closed c).
Definition set_deadHands v c :=
  mkConn (room c) (playerId c) (dataClientPromise c) (crdtClientPromise c)
    (lockClientPromise c) (sendFails c) (listeners c) (queue c)
    (closeOrErrorHandler c) (quit c) v (stage c) (closed c).
Definition set_stage v c :=
  mkConn (room c) (playerId c) (dataClientPromise c) (crdtClientPromise c)
    (lockClientPromise c) (sendFails c) (listeners c) (queue c)
    (closeOrErrorHandler c) (quit c) (deadHands c) v (closed c).
Definition set_closed v c :=
  mkConn (room c) (playerId c) (dataClientPromise c) (crdtClientPromise c)
    (lockClientPromise c) (sendFails c) (listeners c) (queue c)
    (closeOrErrorHandler c) (quit c) (deadHands c) (stage c) v.

(** The object a reference points to is changed in place. *)
Definition updConn (ws : nat) (f : conn → conn) (st : state) : state :=
  set_conns (alter f ws (conns st)) st.

(** ** Code that throws *)

Definition M (A : Type) : Type := state → outcome A * state.

Definition ret {A} (a : A) : M A := λ st, (Return a, st).
Definition throw {A} (err : string) : M A := λ st, (Throw err, st).
Definition bind {A B} (m : M A) (k : A → M B) : M B :=
  λ st, match m st with
        | (Return a, st') => k a st'
        | (Throw err, st') => (Throw err, st')
        end.
Definition tryCatch {A} (m : M A) (handler : string → M A) : M A :=
  λ st, match m st with
        | (Throw err, st') => handler err st'
        | r => r
        end.
Definition modify (f : state → state) : M unit := λ st, (Return tt, f st).
Definition read {A} (f : state → A) : M A := λ st, (Return (f st), st).

Fixpoint forEach {A} (l : list A) (body : A → M unit) : M unit :=
  match l with
  | [] => ret tt
  | x :: l' => bind (body x) (λ _, forEach l' body)
  end.

Definition whenSome {A} (o : option A) (body : A → M unit) : M unit :=
  match o with Some a => body a | None => ret tt end.

End Room.

Declare Scope js_scope.
Delimit Scope js_scope with js.
Notation "x ← y ; z" := (bind y (λ x, z))
  (at level 20, y at level 100, z at level 200, only parsing) : js_scope.
Notation "' x ← y ; z" := (bind y (λ x, z))
  (at level 20, x pattern, y at level 100, z at level 200, only parsing) : js_scope.
Notation "y ;; z" := (bind y (λ _, z))
  (at level 100, z at level 200, only parsing, right associativity) : js_scope.

(** ** The code *)

Section Coordinator.
Context `{Collaborators}.
Local Open Scope js_scope.

Definition schemaArrayNames : list string := ["worldApps"].

(** [Map.prototype.set] and [delete] on a map kept in insertion order. *)
Fixpoint mapSet {V} (k : string) (v : V) (m : list (string * V)) : list (string * V) :=
  match m with
  | [] => [(k, v)]
  | (k', v') :: m' =>
      if String.eqb k' k then (k, v) :: m' else (k', v') :: mapSet k v m'
  end.

Definition mapDelete {V} (k : string) (m : list (string * V)) : list (string * V) :=
  filter (λ kv, kv.1 ≠ k) m.

(** *** [readCrdtFromStorage] and the three initializations *)

(** [storage.get(key)], on behalf of the initialization of [roomName]. *)
Definition storage_get (roomName key : string) (st : state) : option jsval * state :=
  (storage st !! key, set_storageLog (storageLog st ++ [storageGet roomName key]) st).

(** Run the two loops on to the next [await storage.get], or to the end,
    where the data client is made. *)
Definition continueReading (roomName : string) (ids names : list string)
    (crdt : list (string * jsval)) (st : state) : dataPromise * state :=
  match ids with
  | i :: ids' =>
      let '(v, st') := storage_get roomName i st in
      (dataPending roomName (mkReading i v false ids' names crdt), st')
  | [] =>
      match names with
      | a :: names' =>
          let '(v, st') := storage_get roomName a st in
          (dataPending roomName (mkReading a v true [] names' crdt), st')
      | [] => (dataResolved (newDataClient crdt roomName) [], st)
      end
  end.

(** The storage answers the get [readCrdtFromStorage] waits for. *)
Definition storageReplied (roomName : string) (r : reading) (st : state)
    : dataPromise * state :=
  if isArray r then
    let array := nullish (fetched r) (JObj []) in
    continueReading roomName (forIn array) (arrayNames r)
      (mapSet (awaited r) array (crdt r)) st
  else
    let val := nullish (fetched r) (JArr [JNum 0; JObj []]) in
    continueReading roomName (indexIds r) (arrayNames r)
      (mapSet (awaited r) val (crdt r)) st.

(** [handleSession] from its start to the three [await]s: the promises
    are looked up, or made and started, and the socket is paused. *)
Definition handleSession_begin (roomName : string) (pid : option string)
    (st : state) : state :=
  let '(dp, st) :=
    match dataClientPromises st !! roomName with
    | Some p => (p, st)
    | None =>
        let '(promise, st) := continueReading roomName [] schemaArrayNames [] st in
        let p := length (dataPromiseHeap st) in
        (p, set_dataClientPromises (<[roomName := p]> (dataClientPromises st))
              (set_dataPromiseHeap (dataPromiseHeap st ++ [promise]) st))
    end in
  let '(cp, st) :=
    match crdtClientPromises st !! roomName with
    | Some p => (p, st)
    | None =>
        let '(v, st) := storage_get roomName "crdt" st in
        let p := length (crdtPromiseHeap st) in
        (p, set_crdtClientPromises (<[roomName := p]> (crdtClientPromises st))
              (set_crdtPromiseHeap (crdtPromiseHeap st ++ [crdtPending v]) st))
    end in
  let '(lp, st) :=
    match lockClientPromises st !! roomName with
    | Some p => (p, st)
    | None =>
        let p := length (lockPromiseHeap st) in
        (p, set_lockClientPromises (<[roomName := p]> (lockClientPromises st))
              (set_lockPromiseHeap (lockPromiseHeap st ++ [newLockClient]) st))
    end in
  set_conns
    (conns st ++ [mkConn roomName pid dp cp lp false [onmessage] [] false false []
                    suspended None]) st.

(** *** [fetch] *)

Record Request := mkRequest {
  upgrade : option string;          (* [headers.get("Upgrade")] *)
  pathname : string;
  playerIdParam : option string     (* [searchParams.get('playerId')] *)
}.

Inductive Response := mkResponse (status : Z) (body : string).

(** [fetch] up to its answer, or to the [await]s of [handleSession]
    ([None]: the answer comes when the session is through). *)
Definition fetch (request : Request) (st : state) : option Response * state :=
  let '(roomName, methodName) := matchPath (pathname request) in
  if String.eqb methodName "websocket" then
    if bool_decide (upgrade request ≠ Some "websocket") then
      (Some (mkResponse 400 "expected websocket"), st)
    else (None, handleSession_begin roomName (playerIdParam request) st)
  else (Some (mkResponse 404 "Not found"), st).

(** *** Sending *)

Definition sendError : string := "send failed".

Definition conn_at (ws : nat) : M conn :=
  λ st, match conns st !! ws with
        | Some c => (Return c, st)
        | None => (Throw "no such socket", st)
        end.

(** [webSocket.send(d)] *)
Definition send (ws : nat) (d : wsdata) : M unit :=
  c ← conn_at ws;
  if sendFails c then throw sendError
  else modify (λ st, set_trace (trace st ++ [Sent ws d]) st).

Definition respondToSelf (ws : nat) (message : wsdata) : M unit :=
  send ws message.

Definition proxyMessageToPeers (ws : nat) (m : wsdata) : M unit :=
  ss ← read sessions;
  forEach ss (λ s, if decide (s ≠ ws) then send s m else ret tt).

Definition reflectMessageToPeers (ws : nat) (m : wsdata) : M unit :=
  ss ← read sessions;
  forEach ss (λ s, send s m).

(** *** The clients of a session's room *)

Definition dataClient_at (ws : nat) : M (DataClient * list nat) :=
  c ← conn_at ws;
  λ st, match dataPromiseHeap st !! dataClientPromise c with
        | Some (dataResolved dc ls) => (Return (dc, ls), st)
        | _ => (Throw "data client not ready", st)
        end.

Definition set_dataClient (ws : nat) (dc : DataClient) (ls : list nat) : M unit :=
  c ← conn_at ws;
  modify (λ st, set_dataPromiseHeap
                  (<[dataClientPromise c := dataResolved dc ls]> (dataPromiseHeap st)) st).

Definition crdtClient_at (ws : nat) : M CrdtClient :=
  c ← conn_at ws;
  λ st, match crdtPromiseHeap st !! crdtClientPromise c with
        | Some (crdtResolved cc) => (Return cc, st)
        | _ => (Throw "crdt client not ready", st)
        end.

Definition lockClient_at (ws : nat) : M LockClient :=
  c ← conn_at ws;
  λ st, match lockPromiseHeap st !! lockClientPromise c with
        | Some lc => (Return lc, st)
        | None => (Throw "lock client not ready", st)
        end.

(** The ['deadhand'] listener of session [ws]. *)
Definition deadhandListener (ws : nat) (keys : list string) (deadHand : option string)
    : M unit :=
  c ← conn_at ws;
  if decide (deadHand = playerId c) then
    forEach keys (λ key,
      match parseKey key with
      | Some h => modify (updConn ws (λ c, set_deadHands (mapSet key h (deadHands c)) c))
      | None => throw ("invalid deadhand key: " +:+ key)
      end)
  else ret tt.

(** The ['livehand'] listener of session [ws]. *)
Definition livehandListener (ws : nat) (keys : list string) (liveHand : option string)
    : M unit :=
  c ← conn_at ws;
  if decide (liveHand = playerId c) then
    forEach keys (λ key,
      modify (updConn ws (λ c, set_deadHands (mapDelete key (deadHands c)) c)))
  else ret tt.

(** Modelled from the spec: [data-client.mjs] is missing, and with it the
    way [emitUpdate] reaches the listeners.  The update is emitted
    locally, "driving deadhand/livehand side effects": the events it
    produces run the listeners of every session that subscribed, in the
    order of subscription, inside the call, so that a listener that
    throws (a malformed dead-hand key) throws out of [emitUpdate]. *)
Definition dataClient_emitUpdate (ws : nat) (update : MessageEvent) : M unit :=
  '(dc, ls) ← dataClient_at ws;
  let '(dc', events) := emitUpdate dc update in
  set_dataClient ws dc' ls;;
  forEach events (λ e,
    forEach ls (λ l,
      match e with
      | deadhand keys h => deadhandListener l keys h
      | livehand keys h => livehandListener l keys h
      end)).

(** [dataClient.applyUint8Array(uint8Array)] *)
Definition dataClient_applyUint8Array (ws : nat) (b : list Byte.byte)
    : M (option MessageEvent * option MessageEvent) :=
  '(dc, ls) ← dataClient_at ws;
  let '(dc', r) := applyUint8Array dc b in
  set_dataClient ws dc' ls;;
  ret r.

(** Modelled from the spec: [crdt-client.mjs] is missing.  [update]
    applies the payload and fires ['update'], whose listener (lines
    292-296) writes the state to the storage under ['crdt']. *)
Definition crdtClient_update (ws : nat) (update : jsval) : M unit :=
  c ← conn_at ws;
  cc ← crdtClient_at ws;
  let cc' := crdtUpdate cc update in
  modify (λ st, set_crdtPromiseHeap
                  (<[crdtClientPromise c := crdtResolved cc']> (crdtPromiseHeap st)) st);;
  modify (λ st, set_storageLog (storageLog st ++ [storagePut "crdt" (getStateAsUpdate cc')])
                  (set_storage (<["crdt" := getStateAsUpdate cc']> (storage st)) st)).

Definition console_log (s : string) : M unit :=
  modify (λ st, set_console (console st ++ [s]) st).

(** The message the lock client is handed; none for another method. *)
Definition lockMessage (method : Z) (pid : option string) (args : list jsval)
    : M (option MessageEvent) :=
  let lockName := default JUndefined (head args) in
  let data := JObj [("playerId", from_option JStr JNull pid); ("lockName", lockName)] in
  if Z.eqb method LOCK_REQUEST then ret (Some (mkMessageEvent "lockRequest" data))
  else if Z.eqb method LOCK_RESPONSE then ret (Some (mkMessageEvent "lockResponse" data))
  else if Z.eqb method LOCK_RELEASE then ret (Some (mkMessageEvent "lockRelease" data))
  else console_log "unrecognized lock method";; ret None.

Definition lockClient_handle (ws : nat) (m : option MessageEvent) : M unit :=
  c ← conn_at ws;
  lc ← lockClient_at ws;
  modify (λ st, set_lockPromiseHeap
                  (<[lockClientPromise c := lockHandle lc m]> (lockPromiseHeap st)) st).

(** *** The dispatcher *)

(** Lines 496-506: the data class. *)
Definition handleData (ws : nat) (b : list Byte.byte) : M unit :=
  '(rollback, update) ← dataClient_applyUint8Array ws b;
  whenSome rollback (λ r, respondToSelf ws (Binary (serializeMessage r)));;
  whenSome update (λ u,
    dataClient_emitUpdate ws u;;
    proxyMessageToPeers ws (Binary b)).

Definition handleBinaryMessage (ws : nat) (b : list Byte.byte) : M unit :=
  let '(method, args) := parseUpdateObject b in
  (if dataHandlesMethod method then handleData ws b else ret tt);;
  (if crdtHandlesMethod method then
     crdtClient_update ws (default JUndefined (head args));;
     proxyMessageToPeers ws (Binary b)
   else ret tt);;
  (if lockHandlesMethod method then
     c ← conn_at ws;
     m ← lockMessage method (playerId c) args;
     lockClient_handle ws m
   else ret tt);;
  (if ircHandlesMethod method then reflectMessageToPeers ws (Binary b) else ret tt);;
  (if networkedAudioClientHandlesMethod method || networkedVideoClientHandlesMethod method
   then proxyMessageToPeers ws (Binary b) else ret tt).

(** The listener of line 588.  It is an [async] function: what it throws
    past its own [catch] rejects a promise nobody looks at. *)
Definition sessionListener (ws : nat) (d : wsdata) : M unit :=
  λ st,
    (Return tt,
     snd ((modify (λ st, set_trace (trace st ++ [Dispatched ws d]) st);;
           tryCatch
             (c ← conn_at ws;
              if quit c then
                console_log "closing due to webasocket broken";;
                modify (updConn ws (set_closed (Some (1011%Z, "WebSocket broken."))))
              else
                match d with
                | Binary b => handleBinaryMessage ws b
                | Text _ => throw "got non-binary message"
                end)
             (λ err,
                console_log err;;
                send ws (Text (errorFrame err)))) st)).

(** A ['message'] event on the socket, from the runtime or from
    [dispatchEvent]: every listener runs, in the order of registration. *)
Definition dispatchMessage (ws : nat) (d : wsdata) : M unit :=
  c ← conn_at ws;
  forEach (listeners c) (λ l,
    match l with
    | onmessage => modify (updConn ws (λ c, set_queue (queue c ++ [d]) c))
    | onsession => sessionListener ws d
    end).

(** *** [_pauseWebSocket]: the function it returns *)

(** The [for ... of] over [queue] looks at the array afresh at each
    turn: what a turn appends is visited too.  [fuel] bounds the turns;
    the result tells whether the loop came to its end. *)
Fixpoint replay (fuel : nat) (ws : nat) (i : nat) : M bool :=
  c ← conn_at ws;
  match queue c !! i with
  | None => ret true
  | Some d =>
      match fuel with
      | 0 => ret false
      | S fuel' => dispatchMessage ws d;; replay fuel' ws (S i)
      end
  end.

Definition _resumeWebsocket (fuel : nat) (ws : nat) : M unit :=
  finished ← replay fuel ws 0;
  if (finished : bool) then
    modify (updConn ws (set_queue []));;
    modify (updConn ws (λ c, set_listeners (filter (λ l, l ≠ onmessage) (listeners c)) c))
  else modify (set_spinning true).

(** *** The rest of [handleSession] *)

Definition networkInitMessage (st : state) : MessageEvent :=
  mkMessageEvent "networkinit"
    (JObj [("playerIds",
            JArr (JStr <$> omap (λ s, conns st !! s ≫= playerId) (sessions st)))]).

Definition joinMessage (p : string) : MessageEvent :=
  mkMessageEvent "join" (JObj [("playerId", JStr p)]).

Definition _sendJoinMessage (ws : nat) (pid : option string) : M unit :=
  match pid with
  | Some p =>
      if nonempty p then
        dataClient_emitUpdate ws (joinMessage p);;
        proxyMessageToPeers ws (Binary (serializeMessage (joinMessage p)))
      else ret tt
  | None => ret tt
  end.

Definition _triggerDeadHands (ws : nat) : M unit :=
  c ← conn_at ws;
  forEach (deadHands c) (λ entry,
    '(dc, _) ← dataClient_at ws;
    let a := arrayId entry.2 in
    match arrayIndexId entry.2 with
    | Some i =>
        if hasKey dc a i then
          proxyMessageToPeers ws (Binary (serializeMessage (removeUpdate dc a i)))
        else ret tt
    | None =>
        forEach (getKeys dc a) (λ i,
          proxyMessageToPeers ws (Binary (serializeMessage (removeUpdate dc a i))))
    end).

Definition _triggerUnlocks (ws : nat) : M unit :=
  c ← conn_at ws;
  lc ← lockClient_at ws;
  modify (λ st, set_lockPromiseHeap
                  (<[lockClientPromise c := serverUnlockSession lc ws (playerId c)]>
                     (lockPromiseHeap st)) st).

(** Lines 680-700, with its [finally]. *)
Definition closeOrError_handler (ws : nat) : M unit :=
  λ st,
    let '(r, st') :=
      tryCatch
        (modify (updConn ws (set_quit true));;
         modify (λ st, set_sessions (filter (λ member, member ≠ ws) (sessions st)) st);;
         _triggerDeadHands ws;;
         _triggerUnlocks ws)
        (λ err, console_log err;; throw err) st in
    (r, updConn ws (set_closeOrErrorHandler false) st').

(** [handleSession] from the [await]s on. *)
Definition handleSession_resume (fuel : nat) (ws : nat) : M unit :=
  c ← conn_at ws;
  '(dc, ls) ← dataClient_at ws;
  cc ← crdtClient_at ws;
  _ ← lockClient_at ws;
  modify (λ st, set_trace (trace st ++ [Pushed ws]) (set_sessions (sessions st ++ [ws]) st));;
  send ws (Binary (serializeMessage (getImportMessage dc)));;
  send ws (Binary (serializeMessage (getInitialUpdateMessage cc)));;
  m ← read networkInitMessage;
  send ws (Binary (serializeMessage m));;
  set_dataClient ws dc (ls ++ [ws]);;
  _sendJoinMessage ws (playerId c);;
  modify (updConn ws (λ c, set_listeners (listeners c ++ [onsession]) c));;
  modify (updConn ws (set_closeOrErrorHandler true));;
  _resumeWebsocket fuel ws.

(** ** The events and the step *)

Inductive event :=
| request (r : Request)             (* [fetch(request)] *)
| storageReplyData (p : nat)        (* the get data promise [p] waits for *)
| storageReplyCrdt (p : nat)        (* the get of ['crdt'] of promise [p] *)
| resume (ws : nat) (fuel : nat)    (* the three [await]s of [ws] are over *)
| message (ws : nat) (d : wsdata)   (* a frame from the client of [ws] *)
| closeOrError (ws : nat)           (* ['close'] or ['error'] on [ws] *)
| break (ws : nat).                 (* from now on [send] on [ws] throws *)

Definition resolved (c : conn) (st : state) : bool :=
  match dataPromiseHeap st !! dataClientPromise c,
        crdtPromiseHeap st !! crdtClientPromise c,
        lockPromiseHeap st !! lockClientPromise c with
  | Some (dataResolved _ _), Some (crdtResolved _), Some _ => true
  | _, _, _ => false
  end.

Definition isSuspended (c : conn) : bool :=
  match stage c with suspended => true | _ => false end.

Definition step (e : event) (st : state) : state :=
  if spinning st then st else
  match e with
  | request r => snd (fetch r st)
  | storageReplyData p =>
      match dataPromiseHeap st !! p with
      | Some (dataPending roomName r) =>
          let '(promise, st') := storageReplied roomName r st in
          set_dataPromiseHeap (<[p := promise]> (dataPromiseHeap st')) st'
      | _ => st
      end
  | storageReplyCrdt p =>
      match crdtPromiseHeap st !! p with
      | Some (crdtPending initialUpdate) =>
          set_console (console st ++ ["get room crdt"])
            (set_crdtPromiseHeap
               (<[p := crdtResolved (newCrdtClient initialUpdate)]> (crdtPromiseHeap st)) st)
      | _ => st
      end
  | resume ws fuel =>
      match conns st !! ws with
      | Some c =>
          if isSuspended c && resolved c st then
            match handleSession_resume fuel ws (updConn ws (set_stage resumed) st) with
            | (Return _, st') => st'
            | (Throw err, st') => updConn ws (set_stage (failed err)) st'
            end
          else st
      | None => st
      end
  | message ws d => snd (dispatchMessage ws d st)
  | closeOrError ws =>
      match conns st !! ws with
      | Some c => if closeOrErrorHandler c then snd (closeOrError_handler ws st) else st
      | None => st
      end
  | break ws => updConn ws (set_sendFails true) st
  end.

Definition run (es : list event) (st : state) : state :=
  foldl (λ st e, step e st) st es.

(** A fresh object over a storage. *)
Definition init (sto : gmap string jsval) : state :=
  mkState [] [] ∅ ∅ ∅ [] [] [] sto [] [] [] false.

End Coordinator.

(** ** A small implementation of the collaborators

    Enough of a data client, a document client, a lock client and a codec
    to run the coordinator on concrete traces.  A frame is its method
    byte followed by a payload; the data methods are 1 (set a key of
    [worldApps]: accepted), 2 (refused: rolled back), 3 (the keys named
    by the payload become dead hands of player [a]) and 4 (they become
    live again); 20 is the document method, 30-32 the lock methods, 5 and
    6 chat, 7-9 audio and 10-12 video. *)
Module Demo.

Fixpoint render (v : jsval) : string :=
  match v with
  | JUndefined => "undefined"
  | JNull => "null"
  | JNum n => pretty n
  | JStr s => s
  | JBytes b => string_of_list_byte b
  | JArr items => "[" +:+ String.concat "," (map render items) +:+ "]"
  | JObj fields =>
      "{" +:+ String.concat "," (map (λ kv, fst kv +:+ ":" +:+ render (snd kv)) fields) +:+ "}"
  end.

Definition methodOf (b : list Byte.byte) : Z :=
  match b with
  | [] => 0
  | m :: _ => Z.of_N (Byte.to_N m)
  end.

Definition payload (b : list Byte.byte) : string := string_of_list_byte (tail b).

Definition within (lo hi m : Z) : bool := (lo <=? m)%Z && (m <=? hi)%Z.

(** The data client: the keys of each array. *)
Definition arrays := list (string * list string).

Definition keysOf (dc : arrays) (a : string) : list string :=
  match list_find (λ e, e.1 = a) dc with
  | Some (_, e) => e.2
  | None => []
  end.

Definition apply (dc : arrays) (b : list Byte.byte)
    : arrays * (option MessageEvent * option MessageEvent) :=
  let m := methodOf b in
  if (m =? 1)%Z then
    (mapSet "worldApps" (keysOf dc "worldApps" ++ [payload b]) dc,
     (None, Some (mkMessageEvent "set" (JStr (payload b)))))
  else if (m =? 2)%Z then
    (dc, (Some (mkMessageEvent "rollback" (JStr (payload b))), None))
  else if (m =? 3)%Z then (dc, (None, Some (mkMessageEvent "claim" (JStr (payload b)))))
  else if (m =? 4)%Z then (dc, (None, Some (mkMessageEvent "release" (JStr (payload b)))))
  else (dc, (None, None)).

Definition emit (dc : arrays) (u : MessageEvent) : arrays * list handEvent :=
  match u with
  | mkMessageEvent "claim" (JStr k) => (dc, [deadhand (fields "," k) (Some "a")])
  | mkMessageEvent "release" (JStr k) => (dc, [livehand (fields "," k) (Some "a")])
  | _ => (dc, [])
  end.

#[export] Instance demo : Collaborators := {|
  DataClient := arrays;
  CrdtClient := list jsval;
  LockClient := list (option MessageEvent);
  serializeMessage := λ m,
    match m with mkMessageEvent t d => list_byte_of_string (t +:+ " " +:+ render d) end;
  parseUpdateObject := λ b, (methodOf b, [JBytes (tail b)]);
  errorFrame := λ err, "{error:" +:+ err +:+ "}";
  LOCK_REQUEST := 30;
  LOCK_RESPONSE := 31;
  LOCK_RELEASE := 32;
  dataHandlesMethod := within 1 4;
  crdtHandlesMethod := within 20 20;
  lockHandlesMethod := within 30 32;
  ircHandlesMethod := within 5 6;
  networkedAudioClientHandlesMethod := within 7 9;
  networkedVideoClientHandlesMethod := within 10 12;
  newDataClient := λ crdt _, (λ kv, (kv.1, forIn kv.2)) <$> crdt;
  getImportMessage := λ dc,
    mkMessageEvent "import"
      (JObj ((λ e, (e.1, JArr (JStr <$> e.2))) <$> dc));
  applyUint8Array := apply;
  emitUpdate := emit;
  hasKey := λ dc a i, bool_decide (i ∈ keysOf dc a);
  getKeys := keysOf;
  removeUpdate := λ _ a i, mkMessageEvent ("remove." +:+ a) (JStr i);
  newCrdtClient := λ v, [nullish v JUndefined];
  getInitialUpdateMessage := λ cc, mkMessageEvent "initialUpdate" (JArr cc);
  crdtUpdate := λ cc u, cc ++ [u];
  getStateAsUpdate := λ cc, JArr cc;
  newLockClient := [];
  lockHandle := λ lc m, lc ++ [m];
  serverUnlockSession := λ lc _ _, lc
|}.

(** Frames and requests of the examples. *)
Definition frame (method : Z) (s : string) : wsdata :=
  Binary (default Byte.x00 (Byte.of_N (Z.to_N method)) :: list_byte_of_string s).

End Demo.

(** ** What the code of a handler leaves alone

    The code run for a frame or a close of session [self], past the
    first lines of the handler, changes the dead-hand tables, the
    clients and the document in the storage, and sends: to [self], or to
    members of the session list.  It changes neither the list nor the
    listeners, the queues or the promises. *)

Section Frames.
Context `{Collaborators}.

Definition sameConn (c c' : conn) : Prop :=
  room c' = room c ∧ playerId c' = playerId c ∧
  dataClientPromise c' = dataClientPromise c ∧
  crdtClientPromise c' = crdtClientPromise c ∧
  lockClientPromise c' = lockClientPromise c ∧
  sendFails c' = sendFails c ∧ listeners c' = listeners c ∧
  queue c' = queue c ∧ closeOrErrorHandler c' = closeOrErrorHandler c ∧
  quit c' = quit c ∧ stage c' = stage c.

Definition sameData (p p' : dataPromise) : Prop :=
  match p, p' with
  | dataPending n r, dataPending n' r' => n' = n ∧ r' = r
  | dataResolved _ ls, dataResolved _ ls' => ls' = ls
  | _, _ => False
  end.

Definition sameCrdt (p p' : crdtPromise) : Prop :=
  match p, p' with
  | crdtPending v, crdtPending v' => v' = v
  | crdtResolved _, crdtResolved _ => True
  | _, _ => False
  end.

Definition isPut (op : storageOp) : Prop := ∃ v, op = storagePut "crdt" v.

Definition permitted (self : nat) (st : state) (a : action) : Prop :=
  match a with
  | Sent t _ =>
      (t = self ∨ t ∈ sessions st) ∧
      ∃ c, conns st !! t = Some c ∧ sendFails c = false
  | _ => False
  end.

Record evolves (self : nat) (st st' : state) : Prop := mkEvolves {
  ev_conns : Forall2 sameConn (conns st) (conns st');
  ev_sessions : sessions st' = sessions st;
  ev_dataPromises : dataClientPromises st' = dataClientPromises st;
  ev_crdtPromises : crdtClientPromises st' = crdtClientPromises st;
  ev_lockPromises : lockClientPromises st' = lockClientPromises st;
  ev_dataHeap : Forall2 sameData (dataPromiseHeap st) (dataPromiseHeap st');
  ev_crdtHeap : Forall2 sameCrdt (crdtPromiseHeap st) (crdtPromiseHeap st');
  ev_lockHeap : length (lockPromiseHeap st') = length (lockPromiseHeap st);
  ev_storage : ∀ k, k ≠ "crdt" → storage st' !! k = storage st !! k;
  ev_log : ∃ puts, storageLog st' = storageLog st ++ puts ∧ Forall isPut puts;
  ev_trace : ∃ acts, trace st' = trace st ++ acts ∧ Forall (permitted self st) acts;
  ev_spinning : spinning st' = spinning st
}.

#[global] Instance sameConn_refl : Reflexive sameConn.
Proof. intros c. unfold sameConn. tauto. Qed.
#[global] Instance sameConn_trans : Transitive sameConn.
Proof. intros a b c. unfold sameConn. intuition congruence. Qed.
#[global] Instance sameData_refl : Reflexive sameData.
Proof. intros [??|??]; simpl; auto. Qed.
#[global] Instance sameData_trans : Transitive sameData.
Proof. intros [??|??] [??|??] [??|??]; simpl; intuition congruence. Qed.
#[global] Instance sameCrdt_refl : Reflexive sameCrdt.
Proof. intros [?|?]; simpl; auto. Qed.
#[global] Instance sameCrdt_trans : Transitive sameCrdt.
Proof. intros [?|?] [?|?] [?|?]; simpl; intuition congruence. Qed.

Lemma evolves_refl self st : evolves self st st.
Proof.
  split; try reflexivity.
  - exists []. by rewrite app_nil_r.
  - exists []. by rewrite app_nil_r.
Qed.

Lemma permitted_evolves self st st' a :
  evolves self st st' → permitted self st' a → permitted self st a.
Proof.
  intros E. destruct a as [t d| |]; simpl; try done.
  intros [Hm (c' & Hc' & Hf)]. split.
  - by rewrite <- (ev_sessions _ _ _ E).
  - destruct (Forall2_lookup_r _ _ _ _ _ (ev_conns _ _ _ E) Hc') as (c & Hc & S).
    exists c. split; [done|]. unfold sameConn in S. intuition congruence.
Qed.

Lemma evolves_trans self st1 st2 st3 :
  evolves self st1 st2 → evolves self st2 st3 → evolves self st1 st3.
Proof.
  intros E1 E2. split.
  - etrans; [apply E1 | apply E2].
  - rewrite (ev_sessions _ _ _ E2). apply E1.
  - rewrite (ev_dataPromises _ _ _ E2). apply E1.
  - rewrite (ev_crdtPromises _ _ _ E2). apply E1.
  - rewrite (ev_lockPromises _ _ _ E2). apply E1.
  - etrans; [apply E1 | apply E2].
  - etrans; [apply E1 | apply E2].
  - rewrite (ev_lockHeap _ _ _ E2). apply E1.
  - intros k Hk. rewrite (ev_storage _ _ _ E2 k Hk). by apply E1.
  - destruct (ev_log _ _ _ E1) as (p1 & Hp1 & F1).
    destruct (ev_log _ _ _ E2) as (p2 & Hp2 & F2).
    exists (p1 ++ p2). split; [by rewrite Hp2, Hp1, app_assoc | by apply Forall_app].
  - destruct (ev_trace _ _ _ E1) as (a1 & Ha1 & F1).
    destruct (ev_trace _ _ _ E2) as (a2 & Ha2 & F2).
    exists (a1 ++ a2). split; [by rewrite Ha2, Ha1, app_assoc|].
    apply Forall_app. split; [done|].
    eapply Forall_impl; [apply F2|]. intros a. by apply permitted_evolves.
  - rewrite (ev_spinning _ _ _ E2). apply E1.
Qed.

End Frames.

Section Evolving.
Context `{Collaborators}.
Implicit Types (st : state) (ws self : nat).

Definition evolving self {A} (m : M A) : Prop :=
  ∀ st, evolves self st (snd (m st)).

Lemma evolving_ret self {A} (a : A) : evolving self (ret a).
Proof. intros st. apply evolves_refl. Qed.

Lemma evolving_throw self {A} err : evolving self (throw (A := A) err).
Proof. intros st. apply evolves_refl. Qed.

Lemma evolving_read self {A} (f : state → A) : evolving self (read f).
Proof. intros st. apply evolves_refl. Qed.

Lemma evolving_bind self {A B} (m : M A) (k : A → M B) :
  evolving self m → (∀ a, evolving self (k a)) → evolving self (bind m k).
Proof.
  intros Hm Hk st. unfold bind. specialize (Hm st).
  destruct (m st) as [[a|err] st1]; simpl in *; [|done].
  eapply evolves_trans; [done | apply Hk].
Qed.

Lemma evolving_tryCatch self {A} (m : M A) handler :
  evolving self m → (∀ err, evolving self (handler err)) →
  evolving self (tryCatch m handler).
Proof.
  intros Hm Hh st. unfold tryCatch. specialize (Hm st).
  destruct (m st) as [[a|err] st1]; simpl in *; [done|].
  eapply evolves_trans; [done | apply Hh].
Qed.

Lemma evolving_forEach self {A} (l : list A) body :
  (∀ x, evolving self (body x)) → evolving self (forEach l body).
Proof.
  intros Hb. induction l as [|x l IH]; simpl.
  - apply evolving_ret.
  - apply evolving_bind; auto.
Qed.

Lemma evolving_whenSome self {A} (o : option A) body :
  (∀ x, evolving self (body x)) → evolving self (whenSome o body).
Proof. intros Hb. destruct o; simpl; [apply Hb | apply evolving_ret]. Qed.

Lemma evolving_modify self f :
  (∀ st, evolves self st (f st)) → evolving self (modify f).
Proof. intros Hf st. apply Hf. Qed.

Lemma evolving_conn_at self ws : evolving self (conn_at ws).
Proof. intros st. unfold conn_at. destruct (conns st !! ws); apply evolves_refl. Qed.

Lemma evolving_dataClient_at self ws : evolving self (dataClient_at ws).
Proof.
  apply evolving_bind; [apply evolving_conn_at|]. intros c st.
  destruct (dataPromiseHeap st !! dataClientPromise c) as [[|]|]; apply evolves_refl.
Qed.

Lemma evolving_crdtClient_at self ws : evolving self (crdtClient_at ws).
Proof.
  apply evolving_bind; [apply evolving_conn_at|]. intros c st.
  destruct (crdtPromiseHeap st !! crdtClientPromise c) as [[|]|]; apply evolves_refl.
Qed.

Lemma evolving_lockClient_at self ws : evolving self (lockClient_at ws).
Proof.
  apply evolving_bind; [apply evolving_conn_at|]. intros c st.
  destruct (lockPromiseHeap st !! lockClientPromise c); apply evolves_refl.
Qed.

Lemma evolving_console_log self s : evolving self (console_log s).
Proof.
  intros st. split; simpl; try reflexivity.
  - exists []. by rewrite app_nil_r.
  - exists []. by rewrite app_nil_r.
Qed.

Lemma evolves_sent self st t d c :
  conns st !! t = Some c → sendFails c = false →
  t = self ∨ t ∈ sessions st →
  evolves self st (set_trace (trace st ++ [Sent t d]) st).
Proof.
  intros Hc Hf Ht. split; simpl; try reflexivity.
  - exists []. by rewrite app_nil_r.
  - exists [Sent t d]. split; [done|]. apply Forall_singleton. simpl. eauto.
Qed.

Lemma evolves_send self st t d :
  t = self ∨ t ∈ sessions st → evolves self st (snd (send t d st)).
Proof.
  intros Ht. unfold send, bind, conn_at.
  destruct (conns st !! t) as [c|] eqn:Hc; simpl; [|apply evolves_refl].
  destruct (sendFails c) eqn:Hf; simpl; [apply evolves_refl|].
  by eapply evolves_sent.
Qed.

Lemma evolving_respondToSelf self m : evolving self (respondToSelf self m).
Proof. intros st. apply evolves_send. by left. Qed.

Lemma evolves_forEach_members self (l : list nat) (body : nat → M unit) :
  (∀ s st, s ∈ sessions st → evolves self st (snd (body s st))) →
  ∀ st, (∀ s, s ∈ l → s ∈ sessions st) → evolves self st (snd (forEach l body st)).
Proof.
  intros Hb. induction l as [|x l IH]; intros st Hl; simpl.
  - apply evolves_refl.
  - unfold bind. assert (E := Hb x st (Hl x ltac:(left))).
    destruct (body x st) as [[[]|err] st1]; simpl in *; [|done].
    eapply evolves_trans; [done|]. apply IH. intros s Hs.
    rewrite (ev_sessions _ _ _ E). apply Hl. by right.
Qed.

Lemma evolving_proxyMessageToPeers self ws m : evolving self (proxyMessageToPeers ws m).
Proof.
  intros st. unfold proxyMessageToPeers, bind, read.
  apply evolves_forEach_members; [|done].
  intros s st' Hs. destruct (decide (s ≠ ws)); [|apply evolves_refl].
  apply evolves_send. by right.
Qed.

Lemma evolving_reflectMessageToPeers self ws m :
  evolving self (reflectMessageToPeers ws m).
Proof.
  intros st. unfold reflectMessageToPeers, bind, read.
  apply evolves_forEach_members; [|done].
  intros s st' Hs. apply evolves_send. by right.
Qed.

Lemma evolves_updConn self st ws f :
  (∀ c, sameConn c (f c)) → evolves self st (updConn ws f st).
Proof.
  intros Hf. split; simpl; try reflexivity.
  - apply Forall2_alter_r; [reflexivity|]. intros x y _ _ S. etrans; [apply S | apply Hf].
  - exists []. by rewrite app_nil_r.
  - exists []. by rewrite app_nil_r.
Qed.

Lemma Forall2_insert_self {A} (P : relation A) `{!Reflexive P} (l : list A) i x y :
  l !! i = Some x → P x y → Forall2 P l (<[i := y]> l).
Proof.
  intros Hl Hxy. rewrite <- (list_insert_id l i x) at 1 by done.
  apply Forall2_insert; [reflexivity | done].
Qed.

Lemma evolving_set_dataClient self ws dc ls :
  ∀ st c dc0, conns st !! ws = Some c →
    dataPromiseHeap st !! dataClientPromise c = Some (dataResolved dc0 ls) →
    evolves self st (snd (set_dataClient ws dc ls st)).
Proof.
  intros st c dc0 Hc Hp. unfold set_dataClient, bind, conn_at. rewrite Hc. simpl.
  split; simpl; try reflexivity.
  - by apply (Forall2_insert_self sameData _ _ (dataResolved dc0 ls)).
  - exists []. by rewrite app_nil_r.
  - exists []. by rewrite app_nil_r.
Qed.

Lemma evolving_deadhandListener self l keys h : evolving self (deadhandListener l keys h).
Proof.
  apply evolving_bind; [apply evolving_conn_at|]. intros c.
  destruct (decide (h = playerId c)); [|apply evolving_ret].
  apply evolving_forEach. intros key. destruct (parseKey key); [|apply evolving_throw].
  apply evolving_modify. intros st. apply evolves_updConn.
  intros c'. unfold sameConn. simpl. tauto.
Qed.

Lemma evolving_livehandListener self l keys h : evolving self (livehandListener l keys h).
Proof.
  apply evolving_bind; [apply evolving_conn_at|]. intros c.
  destruct (decide (h = playerId c)); [|apply evolving_ret].
  apply evolving_forEach. intros key.
  apply evolving_modify. intros st. apply evolves_updConn.
  intros c'. unfold sameConn. simpl. tauto.
Qed.

Lemma conn_at_Some ws st c : conns st !! ws = Some c → conn_at ws st = (Return c, st).
Proof. intros Hc. unfold conn_at. by rewrite Hc. Qed.

Lemma conn_at_snd ws st : snd (conn_at ws st) = st.
Proof. unfold conn_at. by destruct (conns st !! ws). Qed.

Lemma dataClient_at_Some ws st c dc ls :
  conns st !! ws = Some c →
  dataPromiseHeap st !! dataClientPromise c = Some (dataResolved dc ls) →
  dataClient_at ws st = (Return (dc, ls), st).
Proof. intros Hc Hp. unfold dataClient_at, bind. rewrite (conn_at_Some _ _ _ Hc). by rewrite Hp. Qed.

Lemma dataClient_at_inv ws st r st1 :
  dataClient_at ws st = (r, st1) →
  st1 = st ∧
  ∀ dc ls, r = Return (dc, ls) →
    ∃ c, conns st !! ws = Some c ∧
         dataPromiseHeap st !! dataClientPromise c = Some (dataResolved dc ls).
Proof.
  unfold dataClient_at, bind, conn_at.
  destruct (conns st !! ws) as [c|] eqn:Hc; simpl.
  - destruct (dataPromiseHeap st !! dataClientPromise c) as [[|dc ls]|] eqn:Hp;
      intros [= <- <-]; split; try done.
    intros ?? [= <- <-]. eauto.
  - intros [= <- <-]. split; done.
Qed.

Lemma crdtClient_at_Some ws st c cc :
  conns st !! ws = Some c →
  crdtPromiseHeap st !! crdtClientPromise c = Some (crdtResolved cc) →
  crdtClient_at ws st = (Return cc, st).
Proof. intros Hc Hp. unfold crdtClient_at, bind. rewrite (conn_at_Some _ _ _ Hc). by rewrite Hp. Qed.

Lemma lockClient_at_Some ws st c lc :
  conns st !! ws = Some c →
  lockPromiseHeap st !! lockClientPromise c = Some lc →
  lockClient_at ws st = (Return lc, st).
Proof. intros Hc Hp. unfold lockClient_at, bind. rewrite (conn_at_Some _ _ _ Hc). by rewrite Hp. Qed.

Lemma evolving_dataClient_emitUpdate self ws u : evolving self (dataClient_emitUpdate ws u).
Proof.
  intros st. unfold dataClient_emitUpdate. unfold bind at 1.
  destruct (dataClient_at ws st) as [[[dc ls]|err] st1] eqn:E;
    destruct (dataClient_at_inv _ _ _ _ E) as [-> Hr]; simpl; [|apply evolves_refl].
  destruct (Hr _ _ eq_refl) as (c & Hc & Hp).
  destruct (emitUpdate dc u) as [dc' events]. unfold bind.
  assert (E1 := evolving_set_dataClient self ws dc' ls st c dc Hc Hp).
  destruct (set_dataClient ws dc' ls st) as [[[]|err] st1]; simpl in *; [|done].
  eapply evolves_trans; [done|].
  apply evolving_forEach. intros e. apply evolving_forEach. intros l.
  destruct e; [apply evolving_deadhandListener | apply evolving_livehandListener].
Qed.

Lemma evolving_dataClient_applyUint8Array self ws b :
  evolving self (dataClient_applyUint8Array ws b).
Proof.
  intros st. unfold dataClient_applyUint8Array. unfold bind at 1.
  destruct (dataClient_at ws st) as [[[dc ls]|err] st1] eqn:E;
    destruct (dataClient_at_inv _ _ _ _ E) as [-> Hr]; simpl; [|apply evolves_refl].
  destruct (Hr _ _ eq_refl) as (c & Hc & Hp).
  destruct (applyUint8Array dc b) as [dc' r]. unfold bind.
  assert (E1 := evolving_set_dataClient self ws dc' ls st c dc Hc Hp).
  destruct (set_dataClient ws dc' ls st) as [[[]|err] st1]; simpl in *; done.
Qed.

Lemma conn_at_inv ws st r st1 :
  conn_at ws st = (r, st1) → st1 = st ∧ ∀ c, r = Return c → conns st !! ws = Some c.
Proof.
  unfold conn_at. destruct (conns st !! ws) as [c|]; intros [= <- <-]; split; try done.
  by intros ? [= <-].
Qed.

Lemma crdtClient_at_inv ws st r st1 :
  crdtClient_at ws st = (r, st1) →
  st1 = st ∧
  ∀ cc, r = Return cc →
    ∃ c, conns st !! ws = Some c ∧
         crdtPromiseHeap st !! crdtClientPromise c = Some (crdtResolved cc).
Proof.
  unfold crdtClient_at, bind, conn_at.
  destruct (conns st !! ws) as [c|] eqn:Hc; simpl.
  - destruct (crdtPromiseHeap st !! crdtClientPromise c) as [[v|cc]|] eqn:Hp;
      intros [= <- <-]; split; try done.
    intros ? [= <-]. eauto.
  - intros [= <- <-]. split; done.
Qed.

Lemma lockClient_at_inv ws st r st1 :
  lockClient_at ws st = (r, st1) →
  st1 = st ∧
  ∀ lc, r = Return lc →
    ∃ c, conns st !! ws = Some c ∧
         lockPromiseHeap st !! lockClientPromise c = Some lc.
Proof.
  unfold lockClient_at, bind, conn_at.
  destruct (conns st !! ws) as [c|] eqn:Hc; simpl.
  - destruct (lockPromiseHeap st !! lockClientPromise c) as [lc|] eqn:Hp;
      intros [= <- <-]; split; try done.
    intros ? [= <-]. eauto.
  - intros [= <- <-]. split; done.
Qed.

Lemma evolving_crdtClient_update self ws u : evolving self (crdtClient_update ws u).
Proof.
  intros st. unfold crdtClient_update. unfold bind at 1.
  destruct (conn_at ws st) as [[c|err] st1] eqn:E;
    destruct (conn_at_inv _ _ _ _ E) as [-> Hr]; simpl; [|apply evolves_refl].
  specialize (Hr _ eq_refl). unfold bind at 1.
  destruct (crdtClient_at ws st) as [[cc|err] st1] eqn:E';
    destruct (crdtClient_at_inv _ _ _ _ E') as [-> Hr']; simpl; [|apply evolves_refl].
  destruct (Hr' _ eq_refl) as (c' & Hc' & Hp). simplify_eq.
  split; simpl; try reflexivity.
  - by apply (Forall2_insert_self sameCrdt _ _ (crdtResolved cc)).
  - intros k Hk. by rewrite lookup_insert_ne.
  - eexists [_]. split; [done|]. apply Forall_singleton. by eexists.
  - exists []. by rewrite app_nil_r.
Qed.

Lemma evolves_set_lock self st i lc :
  evolves self st (set_lockPromiseHeap (<[i := lc]> (lockPromiseHeap st)) st).
Proof.
  split; simpl; try reflexivity.
  - apply length_insert.
  - exists []. by rewrite app_nil_r.
  - exists []. by rewrite app_nil_r.
Qed.

Lemma evolving_lockClient_handle self ws m : evolving self (lockClient_handle ws m).
Proof.
  apply evolving_bind; [apply evolving_conn_at|]. intros c.
  apply evolving_bind; [apply evolving_lockClient_at|]. intros lc.
  apply evolving_modify. intros st. apply evolves_set_lock.
Qed.

Lemma evolving__triggerUnlocks self ws : evolving self (_triggerUnlocks ws).
Proof.
  apply evolving_bind; [apply evolving_conn_at|]. intros c.
  apply evolving_bind; [apply evolving_lockClient_at|]. intros lc.
  apply evolving_modify. intros st. apply evolves_set_lock.
Qed.

Lemma evolving_lockMessage self method pid args : evolving self (lockMessage method pid args).
Proof.
  unfold lockMessage. repeat case_match; try apply evolving_ret.
  apply evolving_bind; [apply evolving_console_log | intros; apply evolving_ret].
Qed.

Lemma evolving_handleData self ws b : evolving self (handleData self b).
Proof.
  unfold handleData. apply evolving_bind; [apply evolving_dataClient_applyUint8Array|].
  intros [rollback update]. apply evolving_bind.
  - apply evolving_whenSome. intros r. apply evolving_respondToSelf.
  - intros _. apply evolving_whenSome. intros u. apply evolving_bind.
    + apply evolving_dataClient_emitUpdate.
    + intros _. apply evolving_proxyMessageToPeers.
Qed.

Lemma evolving_handleBinaryMessage self b : evolving self (handleBinaryMessage self b).
Proof.
  unfold handleBinaryMessage. destruct (parseUpdateObject b) as [method args].
  repeat (apply evolving_bind; [|intros _]).
  - destruct (dataHandlesMethod method); [by apply evolving_handleData | apply evolving_ret].
  - destruct (crdtHandlesMethod method); [|apply evolving_ret].
    apply evolving_bind; [apply evolving_crdtClient_update|].
    intros _. apply evolving_proxyMessageToPeers.
  - destruct (lockHandlesMethod method); [|apply evolving_ret].
    apply evolving_bind; [apply evolving_conn_at|]. intros c.
    apply evolving_bind; [apply evolving_lockMessage|]. intros m.
    apply evolving_lockClient_handle.
  - destruct (ircHandlesMethod method); [|apply evolving_ret].
    apply evolving_reflectMessageToPeers.
  - destruct (_ || _); [|apply evolving_ret]. apply evolving_proxyMessageToPeers.
Qed.

Lemma evolving__sendJoinMessage self pid : evolving self (_sendJoinMessage self pid).
Proof.
  unfold _sendJoinMessage. destruct pid as [p|]; [|apply evolving_ret].
  destruct (nonempty p); [|apply evolving_ret].
  apply evolving_bind; [apply evolving_dataClient_emitUpdate|].
  intros _. apply evolving_proxyMessageToPeers.
Qed.

Lemma evolving__triggerDeadHands self : evolving self (_triggerDeadHands self).
Proof.
  unfold _triggerDeadHands. apply evolving_bind; [apply evolving_conn_at|]. intros c.
  apply evolving_forEach. intros entry.
  apply evolving_bind; [apply evolving_dataClient_at|]. intros [dc ls].
  destruct (arrayIndexId entry.2) as [i|].
  - destruct (hasKey dc _ i); [apply evolving_proxyMessageToPeers | apply evolving_ret].
  - apply evolving_forEach. intros i. apply evolving_proxyMessageToPeers.
Qed.

(** The steady-state listener past its first line. *)
Definition sessionListener_body (ws : nat) (d : wsdata) : M unit :=
  tryCatch
    (bind (conn_at ws) (λ c,
       if quit c then
         bind (console_log "closing due to webasocket broken") (λ _,
           modify (updConn ws (set_closed (Some (1011%Z, "WebSocket broken.")))))
       else
         match d with
         | Binary b => handleBinaryMessage ws b
         | Text _ => throw "got non-binary message"
         end))
    (λ err, bind (console_log err) (λ _, send ws (Text (errorFrame err)))).

Lemma sessionListener_unfold ws d st :
  sessionListener ws d st =
  (Return tt,
   snd (sessionListener_body ws d (set_trace (trace st ++ [Dispatched ws d]) st))).
Proof. reflexivity. Qed.

Lemma evolving_sessionListener_body self d : evolving self (sessionListener_body self d).
Proof.
  apply evolving_tryCatch.
  - apply evolving_bind; [apply evolving_conn_at|]. intros c.
    destruct (quit c).
    + apply evolving_bind; [apply evolving_console_log|]. intros _.
      apply evolving_modify. intros st. apply evolves_updConn.
      intros c'. unfold sameConn. simpl. tauto.
    + destruct d; [apply evolving_handleBinaryMessage | apply evolving_throw].
  - intros err. apply evolving_bind; [apply evolving_console_log|]. intros _.
    apply evolving_respondToSelf.
Qed.

End Evolving.

(** ** What a session sees *)

Definition concerns (ws : nat) (a : action) : Prop :=
  match a with
  | Sent t _ | Dispatched t _ => t = ws
  | Pushed _ => False
  end.

#[global] Instance concerns_dec ws a : Decision (concerns ws a).
Proof. destruct a; simpl; apply _. Defined.

(** The sends to [ws] and the dispatches of its frames, in order. *)
Definition view (ws : nat) (tr : list action) : list action :=
  filter (concerns ws) tr.

Definition wsOf (a : action) : nat :=
  match a with Sent t _ | Dispatched t _ | Pushed t => t end.

(** The frames the listener of [ws] was run on, in order. *)
Definition dispatchedOf (ws : nat) (tr : list action) : list wsdata :=
  omap (λ a, match a with
             | Dispatched t d => if decide (t = ws) then Some d else None
             | _ => None
             end) tr.

(** The frames sent to [ws], in order. *)
Definition sentTo (ws : nat) (tr : list action) : list wsdata :=
  omap (λ a, match a with
             | Sent t d => if decide (t = ws) then Some d else None
             | _ => None
             end) tr.

Section Invariant.
Context `{Collaborators}.
Implicit Types (st : state) (ws self : nat).

Definition networkInit (ids : list string) : MessageEvent :=
  mkMessageEvent "networkinit" (JObj [("playerIds", JArr (JStr <$> ids))]).

(** The first three things of a view are the snapshots. *)
Definition startsWithSnapshots (ws : nat) (v : list action) : Prop :=
  ∃ dc cc ids rest,
    v = Sent ws (Binary (serializeMessage (getImportMessage dc))) ::
        Sent ws (Binary (serializeMessage (getInitialUpdateMessage cc))) ::
        Sent ws (Binary (serializeMessage (networkInit ids))) :: rest.

Record attached (st : state) : Prop := mkAttached {
  inv_bound : ∀ a, a ∈ trace st → wsOf a < length (conns st);
  inv_members : ∀ ws, ws ∈ sessions st → ws < length (conns st);
  inv_suspended : ∀ ws c, conns st !! ws = Some c → stage c = suspended →
    (ws ∉ sessions st) ∧ listeners c = [onmessage] ∧
    closeOrErrorHandler c = false ∧ quit c = false ∧ view ws (trace st) = [];
  inv_first : ∀ ws,
    view ws (trace st) = [] ∨ startsWithSnapshots ws (view ws (trace st));
  inv_silent : ∀ ws c, conns st !! ws = Some c → ws ∈ sessions st →
    view ws (trace st) = [] → sendFails c = true;
  inv_listening : ∀ ws c, conns st !! ws = Some c →
    onsession ∈ listeners c ∨ closeOrErrorHandler c = true →
    startsWithSnapshots ws (view ws (trace st));
  inv_quit : ∀ ws c, conns st !! ws = Some c → quit c = true → ws ∉ sessions st
}.

Lemma view_app ws t1 t2 : view ws (t1 ++ t2) = view ws t1 ++ view ws t2.
Proof. apply filter_app. Qed.

Lemma startsWithSnapshots_app ws v w :
  startsWithSnapshots ws v → startsWithSnapshots ws (v ++ w).
Proof. intros (dc & cc & ids & rest & ->). by exists dc, cc, ids, (rest ++ w). Qed.

Lemma startsWithSnapshots_nonempty ws v : startsWithSnapshots ws v → v ≠ [].
Proof. by intros (dc & cc & ids & rest & ->). Qed.

Lemma view_nil_iff ws tr : view ws tr = [] ↔ ∀ a, a ∈ tr → ¬ concerns ws a.
Proof.
  unfold view. split.
  - intros Hv a Ha Hc. assert (a ∈ filter (concerns ws) tr) as Hin
      by (apply list_elem_of_filter; done).
    rewrite Hv in Hin. by apply elem_of_nil in Hin.
  - intros Hn. induction tr as [|a tr IH]; [done|].
    rewrite filter_cons. destruct (decide (concerns ws a)) as [Hc|Hc].
    + exfalso. apply (Hn a); [left | done].
    + apply IH. intros b Hb. apply Hn. by right.
Qed.

Lemma view_bound ws st :
  attached st → (length (conns st) ≤ ws)%nat → view ws (trace st) = [].
Proof.
  intros I Hle. apply view_nil_iff. intros a Ha Hc.
  assert (wsOf a < length (conns st)) by by apply (inv_bound _ I).
  destruct a; simpl in *; lia.
Qed.

(** The invariant reads the list, the trace and these fields only. *)
Definition sameStanding (c c' : conn) : Prop :=
  sendFails c' = sendFails c ∧ listeners c' = listeners c ∧
  closeOrErrorHandler c' = closeOrErrorHandler c ∧ quit c' = quit c ∧
  stage c' = stage c.

Lemma attached_ext st st' :
  Forall2 sameStanding (conns st) (conns st') →
  sessions st' = sessions st → trace st' = trace st →
  attached st → attached st'.
Proof.
  intros Hc Hs Ht I. assert (Hlen := Forall2_length _ _ _ Hc).
  split; rewrite ?Hs, ?Ht, <- ?Hlen.
  - apply I.
  - apply I.
  - intros ws c' Hc' Hst.
    destruct (Forall2_lookup_r _ _ _ _ _ Hc Hc') as (c & Hl & S).
    destruct S as (?&?&?&?&?).
    destruct (inv_suspended _ I ws c Hl) as (?&?&?&?&?); [congruence|].
    repeat split; congruence.
  - apply I.
  - intros ws c' Hc' Hm Hv.
    destruct (Forall2_lookup_r _ _ _ _ _ Hc Hc') as (c & Hl & S).
    destruct S as (?&?&?&?&?).
    rewrite <- (inv_silent _ I ws c Hl Hm Hv). congruence.
  - intros ws c' Hc' Hl'.
    destruct (Forall2_lookup_r _ _ _ _ _ Hc Hc') as (c & Hl & S).
    destruct S as (?&?&?&?&?).
    apply (inv_listening _ I ws c Hl). by destruct Hl'; [left|right]; congruence.
  - intros ws c' Hc' Hq.
    destruct (Forall2_lookup_r _ _ _ _ _ Hc Hc') as (c & Hl & S).
    destruct S as (?&?&?&?&?).
    apply (inv_quit _ I ws c Hl). congruence.
Qed.

Lemma sameConn_standing c c' : sameConn c c' → sameStanding c c'.
Proof. unfold sameConn, sameStanding. tauto. Qed.

(** The code of a handler of [self] keeps the invariant, once [self] has
    its snapshots. *)
Lemma attached_evolves self st st' :
  attached st → evolves self st st' →
  startsWithSnapshots self (view self (trace st)) →
  attached st'.
Proof.
  intros I E Hself.
  destruct (ev_trace _ _ _ E) as (acts & Ht & Hp).
  assert (Hlen := Forall2_length _ _ _ (ev_conns _ _ _ E)).
  assert (Hquiet : ∀ ws, view ws (trace st) = [] → view ws acts = []).
  { intros ws Hv. apply view_nil_iff. intros a Ha Hc.
    rewrite Forall_forall in Hp. specialize (Hp a Ha).
    destruct a as [t d| |]; simpl in *; try done. subst t.
    destruct Hp as [[->|Hm] (c & Hl & Hf)].
    - by apply startsWithSnapshots_nonempty in Hself.
    - rewrite (inv_silent _ I ws c Hl Hm Hv) in Hf. done. }
  assert (Hback : ∀ ws c', conns st' !! ws = Some c' →
            ∃ c, conns st !! ws = Some c ∧ sameConn c c').
  { intros ws c' Hc'. by apply (Forall2_lookup_r _ _ _ _ _ (ev_conns _ _ _ E)). }
  split; rewrite ?(ev_sessions _ _ _ E), ?Ht, <- ?Hlen.
  - intros a [Ha|Ha]%elem_of_app; [by apply I|].
    rewrite Forall_forall in Hp. specialize (Hp a Ha).
    destruct a as [t d| |]; simpl in *; try done.
    destruct Hp as [_ (c & Hl & _)]. by apply lookup_lt_Some in Hl.
  - apply I.
  - intros ws c' Hc' Hst. destruct (Hback _ _ Hc') as (c & Hl & S).
    destruct S as (?&?&?&?&?&?&?&?&?&?&?).
    destruct (inv_suspended _ I ws c Hl) as (?&?&?&?&Hv); [congruence|].
    rewrite view_app, Hv, (Hquiet _ Hv). repeat split; congruence.
  - intros ws. rewrite view_app. destruct (inv_first _ I ws) as [Hv|Hv].
    + left. by rewrite Hv, (Hquiet _ Hv).
    + right. by apply startsWithSnapshots_app.
  - intros ws c' Hc' Hm Hv. destruct (Hback _ _ Hc') as (c & Hl & S).
    destruct S as (?&?&?&?&?&?&?&?&?&?&?).
    rewrite view_app in Hv. apply app_eq_nil in Hv as [Hv _].
    rewrite <- (inv_silent _ I ws c Hl Hm Hv). congruence.
  - intros ws c' Hc' Hl'. destruct (Hback _ _ Hc') as (c & Hl & S).
    destruct S as (?&?&?&?&?&?&?&?&?&?&?).
    rewrite view_app. apply startsWithSnapshots_app.
    apply (inv_listening _ I ws c Hl). by destruct Hl'; [left|right]; congruence.
  - intros ws c' Hc' Hq. destruct (Hback _ _ Hc') as (c & Hl & S).
    destruct S as (?&?&?&?&?&?&?&?&?&?&?).
    apply (inv_quit _ I ws c Hl). congruence.
Qed.

Lemma attached_init sto : attached (init sto).
Proof.
  split; simpl; try done.
  - by intros a ?%elem_of_nil.
  - by intros ws ?%elem_of_nil.
  - by left.
Qed.

(** A change of one record that asks nothing new of the invariant. *)
Lemma attached_updConn ws f st :
  attached st →
  (∀ c, conns st !! ws = Some c →
     (stage (f c) = suspended →
        stage c = suspended ∧ listeners (f c) = listeners c ∧
        closeOrErrorHandler (f c) = closeOrErrorHandler c ∧ quit (f c) = quit c) ∧
     (sendFails c = true → sendFails (f c) = true) ∧
     (onsession ∈ listeners (f c) ∨ closeOrErrorHandler (f c) = true →
        (onsession ∈ listeners c ∨ closeOrErrorHandler c = true) ∨
        startsWithSnapshots ws (view ws (trace st))) ∧
     (quit (f c) = true → quit c = true ∨ ws ∉ sessions st)) →
  attached (updConn ws f st).
Proof.
  intros I Hf.
  assert (Hback : ∀ t c', conns (updConn ws f st) !! t = Some c' →
            (t ≠ ws ∧ conns st !! t = Some c') ∨
            (t = ws ∧ ∃ c, conns st !! ws = Some c ∧ c' = f c)).
  { intros t c'. simpl. destruct (decide (ws = t)) as [->|Hne].
    - rewrite list_lookup_alter_eq. destruct (conns st !! t) as [c|]; simpl; [|done].
      intros [= <-]. right. eauto.
    - rewrite list_lookup_alter_ne by done. intros ?. left. eauto. }
  split; simpl; rewrite ?length_alter.
  - apply I.
  - apply I.
  - intros t c' Hc' Hst. destruct (Hback _ _ Hc') as [[_ Hl]|[-> (c & Hl & ->)]].
    + by apply (inv_suspended _ I t c').
    + destruct (Hf c Hl) as ((Hs & Hls & Hcl & Hq) & _); [done|].
      rewrite Hls, Hcl, Hq. by apply (inv_suspended _ I ws c).
  - apply I.
  - intros t c' Hc' Hm Hv. destruct (Hback _ _ Hc') as [[_ Hl]|[-> (c & Hl & ->)]].
    + by apply (inv_silent _ I t c').
    + destruct (Hf c Hl) as (_ & Hs & _). apply Hs. by apply (inv_silent _ I ws c).
  - intros t c' Hc' Hl'. destruct (Hback _ _ Hc') as [[_ Hl]|[-> (c & Hl & ->)]].
    + by apply (inv_listening _ I t c').
    + destruct (Hf c Hl) as (_ & _ & Hs & _). destruct (Hs Hl') as [Ho|Ho]; [|done].
      by apply (inv_listening _ I ws c).
  - intros t c' Hc' Hq. destruct (Hback _ _ Hc') as [[_ Hl]|[-> (c & Hl & ->)]].
    + by apply (inv_quit _ I t c').
    + destruct (Hf c Hl) as (_ & _ & _ & Hs). destruct (Hs Hq) as [Ho|Ho]; [|done].
      by apply (inv_quit _ I ws c).
Qed.

(** Sessions leave the list. *)
Lemma attached_shrink st ss :
  attached st → (∀ s, s ∈ ss → s ∈ sessions st) → attached (set_sessions ss st).
Proof.
  intros I Hss. split; simpl.
  - apply I.
  - intros ws Hws. apply I. auto.
  - intros ws c Hc Hst. destruct (inv_suspended _ I ws c Hc Hst) as (?&?&?&?&?).
    repeat split; auto.
  - apply I.
  - intros ws c Hc Hm. apply (inv_silent _ I ws c Hc). auto.
  - apply I.
  - intros ws c Hc Hq Hm. apply (inv_quit _ I ws c Hc Hq). auto.
Qed.

Lemma view_snoc ws tr a :
  view ws (tr ++ [a]) = if decide (concerns ws a) then view ws tr ++ [a] else view ws tr.
Proof.
  rewrite view_app. unfold view at 2. rewrite filter_cons, filter_nil.
  destruct (decide (concerns ws a)); [done | by rewrite app_nil_r].
Qed.

(** More for a session that has its snapshots. *)
Lemma attached_append self acts st :
  attached st →
  startsWithSnapshots self (view self (trace st)) →
  self < length (conns st) →
  Forall (λ a, wsOf a = self ∧ concerns self a) acts →
  attached (set_trace (trace st ++ acts) st).
Proof.
  intros I Hself Hlt Hacts.
  assert (Hother : ∀ ws, ws ≠ self → view ws (trace st ++ acts) = view ws (trace st)).
  { intros ws Hne. rewrite view_app.
    replace (view ws acts) with (@nil action); [by rewrite app_nil_r|].
    symmetry. apply view_nil_iff. intros a Ha Hc.
    rewrite Forall_forall in Hacts. destruct (Hacts a Ha) as [Hw _].
    destruct a; simpl in *; congruence. }
  assert (Hnil : ∀ ws, view ws (trace st ++ acts) = [] → view ws (trace st) = []).
  { intros ws. rewrite view_app. by intros [? _]%app_eq_nil. }
  split; simpl.
  - intros a [Ha|Ha]%elem_of_app; [by apply I|].
    rewrite Forall_forall in Hacts. destruct (Hacts a Ha) as [-> _]. done.
  - apply I.
  - intros ws c Hc Hst. destruct (inv_suspended _ I ws c Hc Hst) as (?&?&?&?&Hv).
    repeat split; try done. destruct (decide (ws = self)) as [->|Hne].
    + by apply startsWithSnapshots_nonempty in Hself.
    + by rewrite Hother.
  - intros ws. destruct (decide (ws = self)) as [->|Hne].
    + right. rewrite view_app. by apply startsWithSnapshots_app.
    + rewrite Hother by done. apply I.
  - intros ws c Hc Hm Hv. apply (inv_silent _ I ws c Hc Hm). by apply Hnil.
  - intros ws c Hc Hl. destruct (decide (ws = self)) as [->|Hne].
    + rewrite view_app. by apply startsWithSnapshots_app.
    + rewrite Hother by done. by apply (inv_listening _ I ws c).
  - apply I.
Qed.

End Invariant.

(** ** What every piece of code leaves alone

    No code but the initializations touches the promises or reads the
    storage; a session keeps its room and its promises; what was done
    stays in the trace. *)

Section Respects.
Context `{Collaborators}.
Variable R : state → state → Prop.
Hypothesis R_refl : ∀ st, R st st.
Hypothesis R_trans : ∀ st1 st2 st3, R st1 st2 → R st2 st3 → R st1 st3.

Definition respects {A} (m : M A) : Prop := ∀ st, R st (snd (m st)).

Lemma respects_ret {A} (a : A) : respects (ret a).
Proof. intros st. apply R_refl. Qed.

Lemma respects_throw {A} err : respects (throw (A := A) err).
Proof. intros st. apply R_refl. Qed.

Lemma respects_read {A} (f : state → A) : respects (read f).
Proof. intros st. apply R_refl. Qed.

Lemma respects_bind {A B} (m : M A) (k : A → M B) :
  respects m → (∀ a, respects (k a)) → respects (bind m k).
Proof.
  intros Hm Hk st. unfold bind. specialize (Hm st).
  destruct (m st) as [[a|err] st1]; simpl in *; [|done].
  eapply R_trans; [done | apply Hk].
Qed.

Lemma respects_tryCatch {A} (m : M A) handler :
  respects m → (∀ err, respects (handler err)) → respects (tryCatch m handler).
Proof.
  intros Hm Hh st. unfold tryCatch. specialize (Hm st).
  destruct (m st) as [[a|err] st1]; simpl in *; [done|].
  eapply R_trans; [done | apply Hh].
Qed.

Lemma respects_forEach {A} (l : list A) body :
  (∀ x, respects (body x)) → respects (forEach l body).
Proof.
  intros Hb. induction l as [|x l IH]; simpl.
  - apply respects_ret.
  - apply respects_bind; auto.
Qed.

Lemma respects_modify f : (∀ st, R st (f st)) → respects (modify f).
Proof. intros Hf st. apply Hf. Qed.

End Respects.

Section Quiet.
Context `{Collaborators}.
Implicit Types (st : state) (ws self : nat).

Definition keeps (c c' : conn) : Prop :=
  room c' = room c ∧ playerId c' = playerId c ∧
  dataClientPromise c' = dataClientPromise c ∧
  crdtClientPromise c' = crdtClientPromise c ∧
  lockClientPromise c' = lockClientPromise c ∧
  (stage c ≠ suspended → stage c' ≠ suspended).

Definition settles (p p' : dataPromise) : Prop :=
  match p, p' with
  | dataPending n r, dataPending n' r' => n' = n ∧ r' = r
  | dataResolved _ _, dataResolved _ _ => True
  | _, _ => False
  end.

Record quiet (st st' : state) : Prop := mkQuiet {
  q_conns : Forall2 keeps (conns st) (conns st');
  q_dataPromises : dataClientPromises st' = dataClientPromises st;
  q_crdtPromises : crdtClientPromises st' = crdtClientPromises st;
  q_lockPromises : lockClientPromises st' = lockClientPromises st;
  q_dataHeap : Forall2 settles (dataPromiseHeap st) (dataPromiseHeap st');
  q_crdtHeap : Forall2 sameCrdt (crdtPromiseHeap st) (crdtPromiseHeap st');
  q_lockHeap : length (lockPromiseHeap st') = length (lockPromiseHeap st);
  q_storage : ∀ k, k ≠ "crdt" → storage st' !! k = storage st !! k;
  q_log : ∃ puts, storageLog st' = storageLog st ++ puts ∧ Forall isPut puts;
  q_trace : ∃ acts, trace st' = trace st ++ acts
}.

#[global] Instance keeps_refl : Reflexive keeps.
Proof. intros c. unfold keeps. tauto. Qed.
#[global] Instance keeps_trans : Transitive keeps.
Proof. intros a b c. unfold keeps. intuition congruence. Qed.
#[global] Instance settles_refl : Reflexive settles.
Proof. intros [??|??]; simpl; auto. Qed.
#[global] Instance settles_trans : Transitive settles.
Proof. intros [??|??] [??|??] [??|??]; simpl; intuition congruence. Qed.

Lemma quiet_refl st : quiet st st.
Proof.
  split; try reflexivity.
  - exists []. by rewrite app_nil_r.
  - exists []. by rewrite app_nil_r.
Qed.

Lemma quiet_trans st1 st2 st3 : quiet st1 st2 → quiet st2 st3 → quiet st1 st3.
Proof.
  intros E1 E2. split.
  - etrans; [apply E1 | apply E2].
  - rewrite (q_dataPromises _ _ E2). apply E1.
  - rewrite (q_crdtPromises _ _ E2). apply E1.
  - rewrite (q_lockPromises _ _ E2). apply E1.
  - etrans; [apply E1 | apply E2].
  - etrans; [apply E1 | apply E2].
  - rewrite (q_lockHeap _ _ E2). apply E1.
  - intros k Hk. rewrite (q_storage _ _ E2 k Hk). by apply E1.
  - destruct (q_log _ _ E1) as (p1 & Hp1 & F1).
    destruct (q_log _ _ E2) as (p2 & Hp2 & F2).
    exists (p1 ++ p2). split; [by rewrite Hp2, Hp1, app_assoc | by apply Forall_app].
  - destruct (q_trace _ _ E1) as (a1 & Ha1).
    destruct (q_trace _ _ E2) as (a2 & Ha2).
    exists (a1 ++ a2). by rewrite Ha2, Ha1, app_assoc.
Qed.

Lemma evolves_quiet self st st' : evolves self st st' → quiet st st'.
Proof.
  intros E. split; try apply E.
  - eapply Forall2_impl; [apply E|]. intros c c'. unfold sameConn, keeps.
    intuition congruence.
  - eapply Forall2_impl; [apply E|]. intros [??|??] [??|??]; simpl; tauto.
  - destruct (ev_trace _ _ _ E) as (acts & Ha & _). eauto.
Qed.

Definition quieting {A} (m : M A) : Prop := respects quiet m.

Lemma evolving_quieting self {A} (m : M A) : evolving self m → quieting m.
Proof. intros E st. eapply evolves_quiet, E. Qed.

(** A change of fields of records that [keeps] does not read, of the
    list, the trace, the flag. *)
Lemma quiet_conns st cs :
  Forall2 keeps (conns st) cs → quiet st (set_conns cs st).
Proof.
  intros Hc. split; simpl; try reflexivity; try done.
  - exists []. by rewrite app_nil_r.
  - exists []. by rewrite app_nil_r.
Qed.

Lemma quiet_updConn st ws f : (∀ c, keeps c (f c)) → quiet st (updConn ws f st).
Proof.
  intros Hf. apply quiet_conns. apply Forall2_alter_r; [reflexivity|].
  intros x y _ _ S. etrans; [apply S | apply Hf].
Qed.

Lemma quiet_sessions st ss : quiet st (set_sessions ss st).
Proof.
  split; simpl; try reflexivity.
  - exists []. by rewrite app_nil_r.
  - exists []. by rewrite app_nil_r.
Qed.

Lemma quiet_trace st acts : quiet st (set_trace (trace st ++ acts) st).
Proof.
  split; simpl; try reflexivity.
  - exists []. by rewrite app_nil_r.
  - by exists acts.
Qed.

Lemma quiet_spinning st b : quiet st (set_spinning b st).
Proof.
  split; simpl; try reflexivity.
  - exists []. by rewrite app_nil_r.
  - exists []. by rewrite app_nil_r.
Qed.

Lemma quieting_sessionListener ws d : quieting (sessionListener ws d).
Proof.
  intros st. rewrite sessionListener_unfold. simpl.
  eapply quiet_trans; [apply (quiet_trace st [Dispatched ws d])|].
  eapply evolves_quiet, evolving_sessionListener_body.
Qed.

Lemma quieting_dispatchMessage ws d : quieting (dispatchMessage ws d).
Proof.
  apply respects_bind; [apply quiet_trans | apply (evolving_quieting 0), evolving_conn_at |].
  intros c. apply respects_forEach; [apply quiet_refl | apply quiet_trans |].
  intros [|].
  - apply respects_modify. intros st. apply quiet_updConn.
    intros c'. unfold keeps. simpl. tauto.
  - apply quieting_sessionListener.
Qed.

Lemma quieting_replay fuel ws i : quieting (replay fuel ws i).
Proof.
  revert i. induction fuel as [|fuel IH]; intros i; simpl.
  - apply respects_bind; [apply quiet_trans | apply (evolving_quieting 0), evolving_conn_at |].
    intros c. destruct (queue c !! i); apply respects_ret, quiet_refl.
  - apply respects_bind; [apply quiet_trans | apply (evolving_quieting 0), evolving_conn_at |].
    intros c. destruct (queue c !! i); [|apply respects_ret, quiet_refl].
    apply respects_bind; [apply quiet_trans | apply quieting_dispatchMessage |].
    intros _. apply IH.
Qed.

Lemma quieting__resumeWebsocket fuel ws : quieting (_resumeWebsocket fuel ws).
Proof.
  apply respects_bind; [apply quiet_trans | apply quieting_replay |].
  intros [|].
  - apply respects_bind; [apply quiet_trans | |intros _];
      apply respects_modify; intros st; apply quiet_updConn;
      intros c'; unfold keeps; simpl; tauto.
  - apply respects_modify. intros st. apply quiet_spinning.
Qed.

End Quiet.

(** ** The attach sequence and the close handler, unfolded *)

Section Unfold.
Context `{Collaborators}.
Implicit Types (st : state) (ws self : nat).

(** The session enters the list. *)
Definition pushed (ws : nat) (st : state) : state :=
  set_trace (trace st ++ [Pushed ws]) (set_sessions (sessions st ++ [ws]) st).

(** The three snapshots, [st] being the state the third is made in. *)
Definition snapshots (ws : nat) (dc : DataClient) (cc : CrdtClient) (st : state)
    : list action :=
  [Sent ws (Binary (serializeMessage (getImportMessage dc)));
   Sent ws (Binary (serializeMessage (getInitialUpdateMessage cc)));
   Sent ws (Binary (serializeMessage (networkInitMessage st)))].

(** [handleSession] after the snapshots. *)
Definition afterSnapshots (fuel : nat) (ws : nat) (pid : option string)
    (dc : DataClient) (ls : list nat) : M unit :=
  bind (set_dataClient ws dc (ls ++ [ws])) (λ _,
  bind (_sendJoinMessage ws pid) (λ _,
  bind (modify (updConn ws (λ c, set_listeners (listeners c ++ [onsession]) c))) (λ _,
  bind (modify (updConn ws (set_closeOrErrorHandler true))) (λ _,
  _resumeWebsocket fuel ws)))).

Lemma send_ok ws d st c :
  conns st !! ws = Some c → sendFails c = false →
  send ws d st = (Return tt, set_trace (trace st ++ [Sent ws d]) st).
Proof. intros Hc Hf. unfold send, bind. rewrite (conn_at_Some _ _ _ Hc). by rewrite Hf. Qed.

Lemma send_fails ws d st c :
  conns st !! ws = Some c → sendFails c = true →
  send ws d st = (Throw sendError, st).
Proof. intros Hc Hf. unfold send, bind. rewrite (conn_at_Some _ _ _ Hc). by rewrite Hf. Qed.

Lemma handleSession_resume_unfold fuel ws st c dc ls cc lc :
  conns st !! ws = Some c →
  dataPromiseHeap st !! dataClientPromise c = Some (dataResolved dc ls) →
  crdtPromiseHeap st !! crdtClientPromise c = Some (crdtResolved cc) →
  lockPromiseHeap st !! lockClientPromise c = Some lc →
  handleSession_resume fuel ws st =
    if sendFails c then (Throw sendError, pushed ws st)
    else afterSnapshots fuel ws (playerId c) dc ls
           (set_trace (trace st ++ Pushed ws :: snapshots ws dc cc (pushed ws st))
              (set_sessions (sessions st ++ [ws]) st)).
Proof.
  intros Hc Hd Hr Hl. unfold handleSession_resume.
  unfold bind at 1. rewrite (conn_at_Some _ _ _ Hc).
  unfold bind at 1. rewrite (dataClient_at_Some _ _ _ _ _ Hc Hd).
  unfold bind at 1. rewrite (crdtClient_at_Some _ _ _ _ Hc Hr).
  unfold bind at 1. rewrite (lockClient_at_Some _ _ _ _ Hc Hl).
  unfold bind at 1. unfold modify at 1.
  destruct (sendFails c) eqn:Hf.
  - unfold bind at 1. erewrite send_fails; [done | exact Hc | done].
  - unfold bind at 1. erewrite send_ok; [|exact Hc | done].
    unfold bind at 1. erewrite send_ok; [|exact Hc | done].
    unfold bind at 1. unfold read at 1.
    unfold bind at 1. erewrite send_ok; [|exact Hc | done].
    unfold afterSnapshots, snapshots, pushed. simpl.
    rewrite <- !app_assoc. reflexivity.
Qed.

Lemma closeOrError_handler_unfold ws st :
  snd (closeOrError_handler ws st) =
  updConn ws (set_closeOrErrorHandler false)
    (snd (tryCatch (bind (_triggerDeadHands ws) (λ _, _triggerUnlocks ws))
            (λ err, bind (console_log err) (λ _, throw err))
            (updConn ws (set_quit true)
               (set_sessions (filter (λ member, member ≠ ws) (sessions st)) st)))).
Proof.
  unfold closeOrError_handler. unfold tryCatch.
  unfold bind at 1 2. unfold modify at 1 2.
  change (set_sessions _ (updConn ws (set_quit true) st))
    with (updConn ws (set_quit true)
            (set_sessions (filter (λ member, member ≠ ws) (sessions st)) st)).
  match goal with |- context [bind ?m ?k ?s] => destruct (bind m k s) as [[[]|err] st1] end;
    simpl; [done|].
  unfold bind. by destruct (console_log err st1) as [[[]|err'] st2].
Qed.

End Unfold.

(** ** Every event keeps the invariant *)

Section Preserves.
Context `{Collaborators}.
Implicit Types (st : state) (ws self : nat).

Definition preserves (P : state → Prop) {A} (m : M A) : Prop :=
  ∀ st, P st → P (snd (m st)).

Lemma preserves_bind P {A B} (m : M A) (k : A → M B) :
  preserves P m → (∀ a, preserves P (k a)) → preserves P (bind m k).
Proof.
  intros Hm Hk st HP. unfold bind. specialize (Hm st HP).
  destruct (m st) as [[a|err] st1]; simpl in *; [|done]. by apply Hk.
Qed.

Lemma preserves_forEach P {A} (l : list A) body :
  (∀ x, x ∈ l → preserves P (body x)) → preserves P (forEach l body).
Proof.
  induction l as [|x l IH]; intros Hb; simpl; [by intros st|].
  apply preserves_bind; [apply Hb; left|].
  intros _. apply IH. intros y Hy. apply Hb. by right.
Qed.

Lemma preserves_modify P f : (∀ st, P st → P (f st)) → preserves P (modify f).
Proof. intros Hf st. apply Hf. Qed.

Lemma preserves_conn_at P ws : preserves P (conn_at ws).
Proof. intros st HP. by rewrite conn_at_snd. Qed.

Lemma handleSession_begin_spec roomName pid st :
  ∃ dp cp lp,
    conns (handleSession_begin roomName pid st) =
      conns st ++ [mkConn roomName pid dp cp lp false [onmessage] [] false false []
                     suspended None] ∧
    sessions (handleSession_begin roomName pid st) = sessions st ∧
    trace (handleSession_begin roomName pid st) = trace st.
Proof.
  unfold handleSession_begin, continueReading, storage_get, schemaArrayNames.
  destruct (dataClientPromises st !! roomName); simpl;
    destruct (crdtClientPromises st !! roomName); simpl;
    destruct (lockClientPromises st !! roomName); simpl;
    do 3 eexists; (split; [|split]); reflexivity.
Qed.

Lemma attached_begin roomName pid st :
  attached st → attached (handleSession_begin roomName pid st).
Proof.
  intros I. destruct (handleSession_begin_spec roomName pid st)
    as (dp & cp & lp & Hc & Hs & Ht).
  set (c0 := mkConn _ _ _ _ _ _ _ _ _ _ _ _ _) in Hc.
  assert (Hlook : ∀ ws c, (conns st ++ [c0]) !! ws = Some c →
            conns st !! ws = Some c ∨ (ws = length (conns st) ∧ c = c0)).
  { intros ws c Hl. apply lookup_app_Some in Hl as [Hl|[Hle Hl]]; [by left|].
    right. apply list_lookup_singleton_Some in Hl as [Hz <-]. split; [lia | done]. }
  split; rewrite ?Hc, ?Hs, ?Ht, ?length_app; simpl.
  - intros a Ha. apply (inv_bound _ I) in Ha. lia.
  - intros ws Hws. apply (inv_members _ I) in Hws. lia.
  - intros ws c Hl Hst. destruct (Hlook _ _ Hl) as [Hl'|[-> ->]].
    + by apply (inv_suspended _ I ws c).
    + repeat split; try done.
      * intros Hm. apply (inv_members _ I) in Hm. lia.
      * by apply view_bound.
  - apply I.
  - intros ws c Hl Hm Hv. destruct (Hlook _ _ Hl) as [Hl'|[-> ->]].
    + by apply (inv_silent _ I ws c).
    + apply (inv_members _ I) in Hm. lia.
  - intros ws c Hl Ho. destruct (Hlook _ _ Hl) as [Hl'|[-> ->]].
    + by apply (inv_listening _ I ws c).
    + simpl in Ho. destruct Ho as [Ho|Ho]; [|done].
      apply list_elem_of_singleton in Ho. done.
  - intros ws c Hl Hq. destruct (Hlook _ _ Hl) as [Hl'|[-> ->]].
    + by apply (inv_quit _ I ws c).
    + done.
Qed.

#[global] Instance sameStanding_refl : Reflexive sameStanding.
Proof. intros c. unfold sameStanding. tauto. Qed.

Lemma attached_sessionListener ws d st c :
  attached st → conns st !! ws = Some c → onsession ∈ listeners c →
  attached (snd (sessionListener ws d st)).
Proof.
  intros I Hc Ho. rewrite sessionListener_unfold. simpl.
  assert (Hs := inv_listening _ I ws c Hc (or_introl Ho)).
  eapply attached_evolves; [|apply evolving_sessionListener_body|].
  - apply attached_append with (self := ws); try done.
    + by apply lookup_lt_Some in Hc.
    + by apply Forall_singleton.
  - simpl. rewrite view_app. by apply startsWithSnapshots_app.
Qed.

Lemma sessionListener_conn ws d st t c :
  conns st !! t = Some c →
  ∃ c', conns (snd (sessionListener ws d st)) !! t = Some c' ∧ sameConn c c'.
Proof.
  intros Hc. rewrite sessionListener_unfold. simpl.
  apply (Forall2_lookup_l _ _ _ _ _
           (ev_conns _ _ _ (evolving_sessionListener_body ws d
                              (set_trace (trace st ++ [Dispatched ws d]) st)))).
  done.
Qed.

Lemma attached_dispatchMessage ws d : preserves attached (dispatchMessage ws d).
Proof.
  intros st I. unfold dispatchMessage. unfold bind at 1.
  destruct (conn_at ws st) as [[c|err] st1] eqn:E;
    destruct (conn_at_inv _ _ _ _ E) as [-> Hr]; simpl; [|done].
  specialize (Hr _ eq_refl).
  set (P := λ st, attached st ∧ ∃ c', conns st !! ws = Some c' ∧ listeners c' = listeners c).
  enough (P (snd (forEach (listeners c)
    (λ l, match l with
          | onmessage => modify (updConn ws (λ c0, set_queue (queue c0 ++ [d]) c0))
          | onsession => sessionListener ws d
          end) st))) as [? _] by done.
  apply preserves_forEach; [|split; eauto].
  intros l Hl st' [I' (c' & Hc' & Hls)]. destruct l; simpl.
  - split.
    + apply attached_updConn; [done|]. intros c0 _. simpl. tauto.
    + exists (set_queue (queue c' ++ [d]) c'). split; [|done].
      unfold modify, updConn. simpl. by rewrite list_lookup_alter_eq, Hc'.
  - split.
    + eapply attached_sessionListener; [done | done | by rewrite Hls].
    + destruct (sessionListener_conn ws d st' ws c' Hc') as (c2 & Hc2 & S).
      exists c2. split; [done|]. unfold sameConn in S. intuition congruence.
Qed.

Lemma attached_close ws st c :
  attached st → conns st !! ws = Some c → closeOrErrorHandler c = true →
  attached (snd (closeOrError_handler ws st)).
Proof.
  intros I Hc Hh. rewrite closeOrError_handler_unfold.
  set (st1 := set_sessions _ st).
  assert (I1 : attached st1).
  { apply attached_shrink; [done|]. by intros s [_ ?]%list_elem_of_filter. }
  assert (Hs : startsWithSnapshots ws (view ws (trace st)))
    by (apply (inv_listening _ I ws c Hc); by right).
  assert (Hns : stage c ≠ suspended).
  { intros Hst. destruct (inv_suspended _ I ws c Hc Hst) as (_&_&Hcl&_). congruence. }
  set (st2 := updConn ws (set_quit true) st1).
  assert (Hc2 : conns st2 !! ws = Some (set_quit true c)).
  { simpl. by rewrite list_lookup_alter_eq, Hc. }
  assert (I2 : attached st2).
  { apply attached_updConn; [done|]. intros c0 Hc0.
    assert (c0 = c) as -> by (simpl in Hc0; congruence). simpl.
    split; [done|]. split; [done|]. split; [auto|].
    intros _. right. by intros [? _]%list_elem_of_filter. }
  match goal with |- context [tryCatch ?m ?h st2] =>
    assert (E : evolves ws st2 (snd (tryCatch m h st2))) end.
  { apply evolving_tryCatch.
    - apply evolving_bind; [apply evolving__triggerDeadHands|].
      intros _. apply evolving__triggerUnlocks.
    - intros err. apply evolving_bind; [apply evolving_console_log|].
      intros _. apply evolving_throw. }
  apply attached_updConn.
  - eapply attached_evolves; [exact I2 | exact E | exact Hs].
  - intros c3 Hc3.
    destruct (Forall2_lookup_r _ _ _ _ _ (ev_conns _ _ _ E) Hc3) as (c2 & Hc2' & S).
    assert (c2 = set_quit true c) as -> by congruence.
    destruct S as (_&_&_&_&_&_&_&_&_&_&Hst). simpl in *.
    split; [intros ?; congruence|]. split; [done|]. split; [|auto].
    intros [?|?]; [|done]. left. by left.
Qed.

(** The session enters the list and is sent its snapshots, or enters the
    list with a transport that refuses them. *)
Lemma attached_enter ws c acts st :
  attached st → conns st !! ws = Some c →
  stage c ≠ suspended → quit c = false → listeners c = [onmessage] →
  closeOrErrorHandler c = false →
  ws ∉ sessions st → view ws (trace st) = [] →
  Forall (λ a, wsOf a = ws) acts →
  (view ws acts = [] ∧ sendFails c = true) ∨ startsWithSnapshots ws (view ws acts) →
  attached (set_trace (trace st ++ acts) (set_sessions (sessions st ++ [ws]) st)).
Proof.
  intros I Hc Hst Hq Hls Hcl Hn Hv Hacts Hcase.
  assert (Hother : ∀ t, t ≠ ws → view t (trace st ++ acts) = view t (trace st)).
  { intros t Hne. rewrite view_app.
    replace (view t acts) with (@nil action); [by rewrite app_nil_r|].
    symmetry. apply view_nil_iff. intros a Ha Hca.
    rewrite Forall_forall in Hacts. specialize (Hacts a Ha).
    destruct a; simpl in *; congruence. }
  assert (Hself : view ws (trace st ++ acts) = view ws acts)
    by by rewrite view_app, Hv.
  split; simpl.
  - intros a [Ha|Ha]%elem_of_app; [by apply I|].
    rewrite Forall_forall in Hacts. rewrite (Hacts a Ha). by apply lookup_lt_Some in Hc.
  - intros t [Ht|Ht%list_elem_of_singleton]%elem_of_app; [by apply I|].
    subst t. by apply lookup_lt_Some in Hc.
  - intros t c' Hc' Hst'. assert (t ≠ ws) as Hne by (intros ->; congruence).
    destruct (inv_suspended _ I t c' Hc' Hst') as (?&?&?&?&?).
    rewrite Hother by done. repeat split; try done.
    intros [?|?%list_elem_of_singleton]%elem_of_app; done.
  - intros t. destruct (decide (t = ws)) as [->|Hne].
    + rewrite Hself. destruct Hcase as [[-> _]|?]; [by left | by right].
    + rewrite Hother by done. apply I.
  - intros t c' Hc' Ht Hv'. destruct (decide (t = ws)) as [->|Hne].
    + assert (c' = c) as -> by congruence. rewrite Hself in Hv'.
      destruct Hcase as [[_ ?]|Hs]; [done|].
      by apply startsWithSnapshots_nonempty in Hs.
    + rewrite Hother in Hv' by done. apply (inv_silent _ I t c' Hc'); [|done].
      apply elem_of_app in Ht as [?|?%list_elem_of_singleton]; done.
  - intros t c' Hc' Ho. destruct (decide (t = ws)) as [->|Hne].
    + assert (c' = c) as -> by congruence. rewrite Hls, Hcl in Ho.
      destruct Ho as [Ho%list_elem_of_singleton|Ho]; done.
    + rewrite Hother by done. by apply (inv_listening _ I t c').
  - intros t c' Hc' Hq'. assert (t ≠ ws) as Hne by (intros ->; congruence).
    intros [?|?%list_elem_of_singleton]%elem_of_app; [|done].
    by apply (inv_quit _ I t c' Hc' Hq').
Qed.

(** A session past its snapshots. *)
Definition settled (ws : nat) (st : state) : Prop :=
  attached st ∧ (∃ c, conns st !! ws = Some c ∧ stage c ≠ suspended) ∧
  startsWithSnapshots ws (view ws (trace st)).

Lemma settled_quiet ws st st' :
  settled ws st → quiet st st' → attached st' → settled ws st'.
Proof.
  intros (I & (c & Hc & Hst) & Hs) Q I'. split; [done|]. split.
  - destruct (Forall2_lookup_l _ _ _ _ _ (q_conns _ _ Q) Hc) as (c' & Hc' & K).
    exists c'. split; [done|]. unfold keeps in K. tauto.
  - destruct (q_trace _ _ Q) as (acts & ->). rewrite view_app.
    by apply startsWithSnapshots_app.
Qed.

Lemma settled_evolving ws {A} (m : M A) : evolving ws m → preserves (settled ws) m.
Proof.
  intros E st S. eapply settled_quiet; [done | eapply evolves_quiet, E |].
  destruct S as (I & _ & Hs). eapply attached_evolves; [done | apply E | done].
Qed.

Lemma settled_dispatchMessage ws t d : preserves (settled ws) (dispatchMessage t d).
Proof.
  intros st S. eapply settled_quiet; [done | apply quieting_dispatchMessage |].
  apply attached_dispatchMessage, S.
Qed.

Lemma settled_replay fuel ws i : preserves (settled ws) (replay fuel ws i).
Proof.
  revert i. induction fuel as [|fuel IH]; intros i; simpl.
  - apply preserves_bind; [apply preserves_conn_at|].
    intros c. by destruct (queue c !! i); intros st.
  - apply preserves_bind; [apply preserves_conn_at|].
    intros c. destruct (queue c !! i); [|by intros st].
    apply preserves_bind; [apply settled_dispatchMessage | intros _; apply IH].
Qed.

Lemma settled_updConn ws f :
  (∀ c, keeps c (f c)) →
  (∀ c, stage (f c) = stage c ∧ sendFails (f c) = sendFails c ∧ quit (f c) = quit c) →
  preserves (settled ws) (modify (updConn ws f)).
Proof.
  intros Hk Hf st S. eapply settled_quiet; [done | |].
  - by apply quiet_updConn.
  - destruct S as (I & (c & Hc & Hst) & Hs). apply attached_updConn; [done|].
    intros c0 Hc0. assert (c0 = c) as -> by congruence.
    destruct (Hf c) as (H1 & H2 & H3). rewrite H1, H2, H3.
    split; [intros ?; congruence|]. split; [done|]. split; [by right | by left].
Qed.

Lemma settled_same ws st st' :
  conns st' = conns st → sessions st' = sessions st → trace st' = trace st →
  settled ws st → settled ws st'.
Proof.
  intros Hc Hs Ht (I & Hst & Hv). split; [|by rewrite Hc, Ht].
  eapply attached_ext; [| | |exact I]; try done. rewrite Hc. reflexivity.
Qed.

Lemma set_dataClient_same ws dc ls st :
  conns (snd (set_dataClient ws dc ls st)) = conns st ∧
  sessions (snd (set_dataClient ws dc ls st)) = sessions st ∧
  trace (snd (set_dataClient ws dc ls st)) = trace st.
Proof. unfold set_dataClient, bind, conn_at. by destruct (conns st !! ws). Qed.

Lemma settled__resumeWebsocket fuel ws : preserves (settled ws) (_resumeWebsocket fuel ws).
Proof.
  apply preserves_bind; [apply settled_replay|]. intros [|].
  - apply preserves_bind; [|intros _];
      (apply settled_updConn; [intros c; unfold keeps; simpl; tauto | done]).
  - intros st. by apply settled_same.
Qed.

Lemma settled_afterSnapshots fuel ws pid dc ls :
  preserves (settled ws) (afterSnapshots fuel ws pid dc ls).
Proof.
  unfold afterSnapshots. apply preserves_bind.
  { intros st. destruct (set_dataClient_same ws dc (ls ++ [ws]) st) as (?&?&?).
    by apply settled_same. }
  intros _. apply preserves_bind; [apply settled_evolving, evolving__sendJoinMessage|].
  intros _. apply preserves_bind;
    [apply settled_updConn; [intros c; unfold keeps; simpl; tauto | done]|].
  intros _. apply preserves_bind;
    [apply settled_updConn; [intros c; unfold keeps; simpl; tauto | done]|].
  intros _. apply settled__resumeWebsocket.
Qed.

Lemma view_snapshots ws dc cc st : view ws (Pushed ws :: snapshots ws dc cc st) = snapshots ws dc cc st.
Proof.
  unfold view, snapshots. rewrite filter_cons_False by (simpl; tauto).
  rewrite !filter_cons_True by done. done.
Qed.

Lemma attached_resume ws fuel st : attached st → attached (step (resume ws fuel) st).
Proof.
  intros I. unfold step. destruct (spinning st); [done|].
  destruct (conns st !! ws) as [c|] eqn:Hc; [|done].
  destruct (isSuspended c && resolved c st) eqn:Hen; [|done].
  apply andb_prop in Hen as [Hsu Hre].
  assert (Hst : stage c = suspended) by (unfold isSuspended in Hsu; by destruct (stage c)).
  destruct (inv_suspended _ I ws c Hc Hst) as (Hn & Hls & Hcl & Hq & Hv).
  unfold resolved in Hre.
  destruct (dataPromiseHeap st !! dataClientPromise c) as [[|dc ls]|] eqn:Hd; try done.
  destruct (crdtPromiseHeap st !! crdtClientPromise c) as [[|cc]|] eqn:Hr; try done.
  destruct (lockPromiseHeap st !! lockClientPromise c) as [lc|] eqn:Hl; try done.
  set (st0 := updConn ws (set_stage resumed) st).
  assert (Hc0 : conns st0 !! ws = Some (set_stage resumed c)).
  { simpl. by rewrite list_lookup_alter_eq, Hc. }
  assert (I0 : attached st0).
  { apply attached_updConn; [done|]. intros c0 _. simpl. split; [done|]. auto. }
  rewrite (handleSession_resume_unfold fuel ws st0 _ dc ls cc lc Hc0 Hd Hr Hl). simpl.
  destruct (sendFails c) eqn:Hf.
  - apply attached_updConn.
    + apply (attached_enter ws (set_stage resumed c) [Pushed ws] st0); try done.
      * by apply Forall_singleton.
      * left. split; [|done]. unfold view. by rewrite filter_cons_False by (simpl; tauto).
    + intros c0 _. simpl. split; [done|]. auto.
  - match goal with |- context [afterSnapshots ?f ?w ?p ?d ?l ?s] =>
      assert (S := settled_afterSnapshots f w p d l s) end.
    match type of S with settled _ ?s → _ => assert (S0 : settled ws s) end.
    { split; [|split].
      - apply (attached_enter ws (set_stage resumed c) _ st0); try done.
        + repeat constructor.
        + right. rewrite view_snapshots. by eexists _, _, _, _.
      - exists (set_stage resumed c). split; [done | done].
      - simpl. rewrite view_app. change (view ws (trace st)) with (view ws (trace st0)).
        simpl. rewrite Hv, view_snapshots. by eexists _, _, _, _. }
    specialize (S S0).
    match goal with |- context [afterSnapshots ?f ?w ?p ?d ?l ?s] =>
      destruct (afterSnapshots f w p d l s) as [[[]|err] st1] end; simpl in *.
    + apply S.
    + destruct S as (I1 & _). apply attached_updConn; [done|].
      intros c0 _. simpl. split; [done|]. auto.
Qed.

Lemma attached_step e st : attached st → attached (step e st).
Proof.
  intros I. destruct e as [r|p|p|ws fuel|ws d|ws|ws]; try by apply attached_resume.
  - unfold step. destruct (spinning st); [done|]. unfold fetch.
    destruct (matchPath (pathname r)) as [roomName methodName].
    destruct (String.eqb methodName "websocket"); [|done].
    case_bool_decide; [done|]. by apply attached_begin.
  - unfold step. destruct (spinning st); [done|].
    destruct (dataPromiseHeap st !! p) as [[roomName r|]|]; try done.
    unfold storageReplied, continueReading, storage_get.
    eapply attached_ext; [| | |exact I];
      repeat case_match; simplify_eq; simpl; try reflexivity.
  - unfold step. destruct (spinning st); [done|].
    destruct (crdtPromiseHeap st !! p) as [[v|]|]; try done.
    eapply attached_ext; [| | |exact I]; simpl; reflexivity.
  - unfold step. destruct (spinning st); [done|]. by apply attached_dispatchMessage.
  - unfold step. destruct (spinning st); [done|].
    destruct (conns st !! ws) as [c|] eqn:Hc; [|done].
    destruct (closeOrErrorHandler c) eqn:Hh; [|done]. by eapply attached_close.
  - unfold step. destruct (spinning st); [done|].
    apply attached_updConn; [done|]. intros c _. simpl. tauto.
Qed.

Lemma attached_run es st : attached st → attached (run es st).
Proof.
  revert st. induction es as [|e es IH]; intros st I; [done|].
  simpl. apply IH. by apply attached_step.
Qed.

End Preserves.

(** ** The replay of the queue *)

(** The frames the loop of [_resumeWebsocket] dispatches in [fuel]
    turns from index [i]: each frame dispatched is queued again by the
    listener of [_pauseWebSocket], which is removed after the loop only. *)
Fixpoint replayed (fuel : nat) (q : list wsdata) (i : nat) : list wsdata :=
  match q !! i with
  | None => []
  | Some d =>
      match fuel with
      | 0 => []
      | S fuel' => d :: replayed fuel' (q ++ [d]) (S i)
      end
  end.

Lemma replayed_take fuel : ∀ k q i,
  (k ≤ fuel)%nat → take k (drop i q) `prefix_of` replayed fuel q i.
Proof.
  induction fuel as [|fuel IH]; intros k q i Hk.
  - assert (k = 0%nat) as -> by lia. rewrite take_0. apply prefix_nil.
  - destruct k as [|k]; [rewrite take_0; apply prefix_nil|].
    destruct (q !! i) as [d|] eqn:Hq.
    + rewrite (drop_S _ _ _ Hq). rewrite firstn_cons.
      replace (replayed (S fuel) q i) with (d :: replayed fuel (q ++ [d]) (S i))
        by (simpl; by rewrite Hq).
      apply prefix_cons. etrans; [|apply (IH k (q ++ [d]) (S i)); lia].
      rewrite drop_app_le by (apply lookup_lt_Some in Hq; lia).
      rewrite take_app. apply prefix_app_r. reflexivity.
    + rewrite drop_ge by (by apply lookup_ge_None). rewrite take_nil. apply prefix_nil.
Qed.

Lemma replayed_all fuel q : (length q ≤ fuel)%nat → q `prefix_of` replayed fuel q 0.
Proof.
  intros Hf. pose proof (replayed_take fuel (length q) q 0 Hf) as Hp.
  by rewrite drop_0, firstn_all in Hp.
Qed.

Section Replay.
Context `{Collaborators}.
Implicit Types (st : state) (ws self : nat).

Lemma dispatchedOf_app ws t1 t2 :
  dispatchedOf ws (t1 ++ t2) = dispatchedOf ws t1 ++ dispatchedOf ws t2.
Proof. apply omap_app. Qed.

Lemma dispatchedOf_permitted self ws st acts :
  Forall (permitted self st) acts → dispatchedOf ws acts = [].
Proof.
  induction 1 as [|a acts Ha _ IH]; [done|].
  destruct a; simpl in *; try done.
Qed.

Lemma evolves_dispatchedOf self ws st st' :
  evolves self st st' → dispatchedOf ws (trace st') = dispatchedOf ws (trace st).
Proof.
  intros E. destruct (ev_trace _ _ _ E) as (acts & -> & Hp).
  by rewrite dispatchedOf_app, (dispatchedOf_permitted _ _ _ _ Hp), app_nil_r.
Qed.

Lemma view_nil_dispatchedOf ws tr : view ws tr = [] → dispatchedOf ws tr = [].
Proof.
  rewrite view_nil_iff. induction tr as [|a tr IH]; intros Hn; [done|].
  simpl. rewrite IH by (intros b Hb; apply Hn; by right).
  destruct a as [t d|t d|t]; try done.
  destruct (decide (t = ws)) as [->|]; [|done].
  exfalso. apply (Hn (Dispatched ws d)); [left | done].
Qed.

Lemma dispatchMessage_paused ws d st c :
  conns st !! ws = Some c → listeners c = [onmessage] →
  dispatchMessage ws d st =
    (Return tt, updConn ws (λ c, set_queue (queue c ++ [d]) c) st).
Proof.
  intros Hc Hl. unfold dispatchMessage, bind. rewrite (conn_at_Some _ _ _ Hc), Hl. done.
Qed.

Lemma dispatchMessage_steady ws d st c :
  conns st !! ws = Some c → listeners c = [onsession] →
  dispatchMessage ws d st = (Return tt, snd (sessionListener ws d st)).
Proof.
  intros Hc Hl. unfold dispatchMessage, bind. rewrite (conn_at_Some _ _ _ Hc), Hl. done.
Qed.

Lemma dispatchMessage_both ws d st c :
  conns st !! ws = Some c → listeners c = [onmessage; onsession] →
  dispatchMessage ws d st =
    (Return tt,
     snd (sessionListener ws d (updConn ws (λ c, set_queue (queue c ++ [d]) c) st))).
Proof.
  intros Hc Hl. unfold dispatchMessage, bind. rewrite (conn_at_Some _ _ _ Hc), Hl. done.
Qed.

Lemma sessionListener_dispatchedOf ws d st :
  dispatchedOf ws (trace (snd (sessionListener ws d st))) =
  dispatchedOf ws (trace st) ++ [d].
Proof.
  rewrite sessionListener_unfold. simpl.
  rewrite (evolves_dispatchedOf ws ws _ _ (evolving_sessionListener_body ws d _)).
  simpl. rewrite dispatchedOf_app. simpl. by rewrite decide_True.
Qed.

Lemma replay_spec ws fuel : ∀ i st c,
  conns st !! ws = Some c → listeners c = [onmessage; onsession] →
  dispatchedOf ws (trace (snd (replay fuel ws i st))) =
  dispatchedOf ws (trace st) ++ replayed fuel (queue c) i.
Proof.
  induction fuel as [|fuel IH]; intros i st c Hc Hl.
  - simpl. unfold bind. rewrite (conn_at_Some _ _ _ Hc).
    destruct (queue c !! i); simpl; by rewrite app_nil_r.
  - simpl. unfold bind at 1. rewrite (conn_at_Some _ _ _ Hc).
    destruct (queue c !! i) as [d|] eqn:Hq; [|simpl; by rewrite app_nil_r].
    unfold bind. rewrite (dispatchMessage_both _ _ _ _ Hc Hl).
    set (st1 := updConn ws _ st).
    assert (Hc1 : conns st1 !! ws = Some (set_queue (queue c ++ [d]) c)).
    { simpl. by rewrite list_lookup_alter_eq, Hc. }
    destruct (sessionListener_conn ws d st1 ws _ Hc1) as (c2 & Hc2 & S).
    destruct S as (_&_&_&_&_&_&Hl2&Hq2&_). simpl in Hl2, Hq2.
    rewrite (IH (S i) _ c2 Hc2) by congruence.
    rewrite sessionListener_dispatchedOf, Hq2, <- app_assoc. done.
Qed.

(** Once a frame waits, the loop does not come to its end. *)
Lemma replay_spins ws fuel : ∀ i st c,
  conns st !! ws = Some c → listeners c = [onmessage; onsession] →
  (i < length (queue c))%nat →
  fst (replay fuel ws i st) = Return false.
Proof.
  induction fuel as [|fuel IH]; intros i st c Hc Hl Hi.
  - simpl. unfold bind. rewrite (conn_at_Some _ _ _ Hc).
    destruct (lookup_lt_is_Some_2 _ _ Hi) as [d ->]. done.
  - simpl. unfold bind at 1. rewrite (conn_at_Some _ _ _ Hc).
    destruct (lookup_lt_is_Some_2 _ _ Hi) as [d ->].
    unfold bind. rewrite (dispatchMessage_both _ _ _ _ Hc Hl).
    set (st1 := updConn ws _ st).
    assert (Hc1 : conns st1 !! ws = Some (set_queue (queue c ++ [d]) c)).
    { simpl. by rewrite list_lookup_alter_eq, Hc. }
    destruct (sessionListener_conn ws d st1 ws _ Hc1) as (c2 & Hc2 & S).
    destruct S as (_&_&_&_&_&_&Hl2&Hq2&_). simpl in Hl2, Hq2.
    apply (IH (S i) _ c2 Hc2); [congruence|].
    rewrite Hq2, length_app. simpl. lia.
Qed.

End Replay.

Section Attach.
Context `{Collaborators}.
Implicit Types (st : state) (ws self : nat).

Lemma bind_Return {A B} (m : M A) (k : A → M B) st b st' :
  bind m k st = (Return b, st') →
  ∃ a st1, m st = (Return a, st1) ∧ k a st1 = (Return b, st').
Proof.
  unfold bind. destruct (m st) as [[a|err] st1]; [eauto | done].
Qed.

Lemma afterSnapshots_replays fuel ws pid dc ls st c st' :
  conns st !! ws = Some c → listeners c = [onmessage] →
  dispatchedOf ws (trace st) = [] →
  afterSnapshots fuel ws pid dc ls st = (Return tt, st') →
  dispatchedOf ws (trace st') = replayed fuel (queue c) 0.
Proof.
  intros Hc Hl Hd Hrun. unfold afterSnapshots in Hrun.
  apply bind_Return in Hrun as ([] & sA & HA & Hrun).
  apply bind_Return in Hrun as ([] & sB & HB & Hrun).
  apply bind_Return in Hrun as ([] & sC & HC & Hrun).
  apply bind_Return in Hrun as ([] & sD & HD & Hrun).
  destruct (set_dataClient_same ws dc (ls ++ [ws]) st) as (HcA & _ & HtA).
  rewrite HA in HcA, HtA. simpl in HcA, HtA.
  assert (EB := evolving__sendJoinMessage ws pid sA). rewrite HB in EB. simpl in EB.
  assert (HcA' : conns sA !! ws = Some c) by by rewrite HcA.
  destruct (Forall2_lookup_l _ _ _ _ _ (ev_conns _ _ _ EB) HcA') as (cB & HcB & S).
  destruct S as (_&_&_&_&_&_&HlB&HqB&_).
  injection HC as <-. injection HD as <-.
  set (sD := updConn ws (set_closeOrErrorHandler true) _) in Hrun.
  set (cD := set_closeOrErrorHandler true (set_listeners (listeners cB ++ [onsession]) cB)).
  assert (HcD : conns sD !! ws = Some cD).
  { simpl. rewrite list_lookup_alter_eq, list_lookup_alter_eq, HcB. done. }
  assert (HdD : dispatchedOf ws (trace sD) = []).
  { simpl. rewrite (evolves_dispatchedOf _ _ _ _ EB). by rewrite HtA. }
  unfold _resumeWebsocket in Hrun.
  apply bind_Return in Hrun as (finished & sE & HE & Hrun).
  assert (HlD : listeners cD = [onmessage; onsession]) by (simpl; by rewrite HlB, Hl).
  assert (Hspec := replay_spec ws fuel 0 sD cD HcD HlD).
  rewrite HE, HdD in Hspec. simpl in Hspec. rewrite HqB in Hspec.
  destruct finished.
  - apply bind_Return in Hrun as ([] & sF & HF & Hrun).
    injection HF as <-. injection Hrun as <-. done.
  - injection Hrun as <-. done.
Qed.

End Attach.

Section QuietSteps.
Context `{Collaborators}.
Implicit Types (st : state) (ws self : nat).

Lemma quiet_set_dataClient ws dc ls st : ∀ c dc0 ls0,
  conns st !! ws = Some c →
  dataPromiseHeap st !! dataClientPromise c = Some (dataResolved dc0 ls0) →
  quiet st (snd (set_dataClient ws dc ls st)).
Proof.
  intros c dc0 ls0 Hc Hp. unfold set_dataClient, bind. rewrite (conn_at_Some _ _ _ Hc).
  split; simpl; try reflexivity.
  - by apply (Forall2_insert_self settles _ _ (dataResolved dc0 ls0)).
  - exists []. by rewrite app_nil_r.
  - exists []. by rewrite app_nil_r.
Qed.

Lemma quiet_afterSnapshots fuel ws pid dc ls st c dc0 ls0 :
  conns st !! ws = Some c →
  dataPromiseHeap st !! dataClientPromise c = Some (dataResolved dc0 ls0) →
  quiet st (snd (afterSnapshots fuel ws pid dc ls st)).
Proof.
  intros Hc Hp. unfold afterSnapshots. unfold bind at 1.
  assert (Q := quiet_set_dataClient ws dc (ls ++ [ws]) st c dc0 ls0 Hc Hp).
  destruct (set_dataClient ws dc (ls ++ [ws]) st) as [[[]|err] st1]; simpl in *; [|done].
  eapply quiet_trans; [exact Q|].
  apply respects_bind; [apply quiet_trans | apply (evolving_quieting ws), evolving__sendJoinMessage |].
  intros _. apply respects_bind; [apply quiet_trans | |].
  { apply respects_modify. intros s. apply quiet_updConn. intros c'. unfold keeps. simpl. tauto. }
  intros _. apply respects_bind; [apply quiet_trans | |].
  { apply respects_modify. intros s. apply quiet_updConn. intros c'. unfold keeps. simpl. tauto. }
  intros _. apply quieting__resumeWebsocket.
Qed.

Lemma quiet_pushed ws st : quiet st (pushed ws st).
Proof.
  eapply quiet_trans; [apply (quiet_sessions st (sessions st ++ [ws]))|].
  apply (quiet_trace (set_sessions (sessions st ++ [ws]) st) [Pushed ws]).
Qed.

Lemma quiet_stage ws st ph : ph ≠ suspended → quiet st (updConn ws (set_stage ph) st).
Proof. intros Hph. apply quiet_updConn. intros c. unfold keeps. simpl. tauto. Qed.

(** What an enabled [resume] event does. *)
Lemma step_resume ws fuel st c dc ls cc lc :
  spinning st = false → conns st !! ws = Some c → stage c = suspended →
  dataPromiseHeap st !! dataClientPromise c = Some (dataResolved dc ls) →
  crdtPromiseHeap st !! crdtClientPromise c = Some (crdtResolved cc) →
  lockPromiseHeap st !! lockClientPromise c = Some lc →
  let st0 := updConn ws (set_stage resumed) st in
  step (resume ws fuel) st =
    if sendFails c then updConn ws (set_stage (failed sendError)) (pushed ws st0)
    else
      let r := afterSnapshots fuel ws (playerId c) dc ls
                 (set_trace (trace st ++ Pushed ws :: snapshots ws dc cc (pushed ws st0))
                    (set_sessions (sessions st ++ [ws]) st0)) in
      match fst r with
      | Return _ => snd r
      | Throw err => updConn ws (set_stage (failed err)) (snd r)
      end.
Proof.
  intros Hsp Hc Hst Hd Hr Hl st0. unfold step. rewrite Hsp, Hc.
  unfold isSuspended, resolved. rewrite Hst, Hd, Hr, Hl. cbv beta iota delta [andb].
  fold st0.
  assert (Hc0 : conns st0 !! ws = Some (set_stage resumed c)).
  { simpl. by rewrite list_lookup_alter_eq, Hc. }
  rewrite (handleSession_resume_unfold fuel ws st0 _ dc ls cc lc Hc0 Hd Hr Hl).
  change (sendFails (set_stage resumed c)) with (sendFails c).
  destruct (sendFails c); [done|]. simpl.
  match goal with |- context [afterSnapshots ?f ?w ?p ?d ?l ?s] =>
    by destruct (afterSnapshots f w p d l s) as [[[]|err] st1] end.
Qed.

Lemma quiet_resume ws fuel st : quiet st (step (resume ws fuel) st).
Proof.
  destruct (spinning st) eqn:Hsp; [unfold step; rewrite Hsp; apply quiet_refl|].
  destruct (conns st !! ws) as [c|] eqn:Hc;
    [|unfold step; rewrite Hsp, Hc; apply quiet_refl].
  destruct (isSuspended c && resolved c st) eqn:Hen;
    [|unfold step; rewrite Hsp, Hc, Hen; apply quiet_refl].
  apply andb_prop in Hen as [Hsu Hre].
  assert (Hst : stage c = suspended) by (unfold isSuspended in Hsu; by destruct (stage c)).
  unfold resolved in Hre.
  destruct (dataPromiseHeap st !! dataClientPromise c) as [[|dc ls]|] eqn:Hd; try done.
  destruct (crdtPromiseHeap st !! crdtClientPromise c) as [[|cc]|] eqn:Hr; try done.
  destruct (lockPromiseHeap st !! lockClientPromise c) as [lc|] eqn:Hl; try done.
  rewrite (step_resume ws fuel st c dc ls cc lc Hsp Hc Hst Hd Hr Hl). simpl.
  set (st0 := updConn ws (set_stage resumed) st).
  assert (Q0 : quiet st st0) by by apply quiet_stage.
  destruct (sendFails c).
  - eapply quiet_trans; [exact Q0|]. eapply quiet_trans; [apply quiet_pushed|].
    by apply quiet_stage.
  - set (st2 := set_trace _ _).
    assert (Q2 : quiet st st2).
    { eapply quiet_trans; [exact Q0|].
      eapply quiet_trans; [apply (quiet_sessions st0 (sessions st ++ [ws]))|].
      apply (quiet_trace (set_sessions (sessions st ++ [ws]) st0) (Pushed ws :: _)). }
    assert (Q3 : quiet st2 (snd (afterSnapshots fuel ws (playerId c) dc ls st2))).
    { eapply (quiet_afterSnapshots _ _ _ _ _ _ (set_stage resumed c)); [|exact Hd].
      simpl. by rewrite list_lookup_alter_eq, Hc. }
    destruct (afterSnapshots fuel ws (playerId c) dc ls st2) as [[[]|err] st3]; simpl in *.
    + by eapply quiet_trans.
    + eapply quiet_trans; [exact Q2|]. eapply quiet_trans; [exact Q3|].
      by apply quiet_stage.
Qed.

Lemma quiet_close ws st : quiet st (snd (closeOrError_handler ws st)).
Proof.
  rewrite closeOrError_handler_unfold.
  set (st1 := set_sessions _ st). set (st2 := updConn ws (set_quit true) st1).
  apply (quiet_trans _ st1); [apply quiet_sessions|].
  apply (quiet_trans _ st2);
    [apply quiet_updConn; intros c; unfold keeps; simpl; tauto|].
  eapply quiet_trans; [|apply quiet_updConn; intros c; unfold keeps; simpl; tauto].
  apply (evolving_quieting ws). apply evolving_tryCatch.
  - apply evolving_bind; [apply evolving__triggerDeadHands|].
    intros _. apply evolving__triggerUnlocks.
  - intros err. apply evolving_bind; [apply evolving_console_log|].
    intros _. apply evolving_throw.
Qed.

(** The events that are not a request or a storage reply. *)
Definition later (e : event) : Prop :=
  match e with
  | request _ | storageReplyData _ | storageReplyCrdt _ => False
  | _ => True
  end.

Lemma quiet_step e st : later e → quiet st (step e st).
Proof.
  destruct e as [r|p|p|ws fuel|ws d|ws|ws]; try done; intros _.
  - apply quiet_resume.
  - unfold step. destruct (spinning st); [apply quiet_refl|].
    apply quieting_dispatchMessage.
  - unfold step. destruct (spinning st); [apply quiet_refl|].
    destruct (conns st !! ws) as [c|]; [|apply quiet_refl].
    destruct (closeOrErrorHandler c); [apply quiet_close | apply quiet_refl].
  - unfold step. destruct (spinning st); [apply quiet_refl|].
    apply quiet_updConn. intros c. unfold keeps. simpl. tauto.
Qed.

End QuietSteps.

(** ** One initialization for a room *)

(** The keys the storage was asked for on behalf of a room, in order. *)
Definition getsOf (roomName : string) (log : list storageOp) : list string :=
  omap (λ op, match op with
              | storageGet r k => if decide (r = roomName) then Some k else None
              | storagePut _ _ => None
              end) log.

(** How often the storage was asked for [key] on behalf of a room. *)
Definition reads (roomName key : string) (log : list storageOp) : nat :=
  length (filter (λ k, k = key) (getsOf roomName log)).

Section Initialization.
Context `{Collaborators}.
Implicit Types (st : state) (ws self : nat).

(** The reads of one array: its own key, then the keys it lists. *)
Definition readsOf (sto : gmap string jsval) (a : string) : list string :=
  a :: forIn (nullish (sto !! a) (JObj [])).

(** The reads of one initialization of the three clients: the first
    array is asked for before ['crdt'], the rest follows as the storage
    answers. *)
Definition initReads (sto : gmap string jsval) : list string :=
  match schemaArrayNames with
  | [] => ["crdt"]
  | a :: names =>
      a :: "crdt" :: forIn (nullish (sto !! a) (JObj [])) ++ flat_map (readsOf sto) names
  end.

(** The reads a data promise has still to issue. *)
Definition todo (sto : gmap string jsval) (p : dataPromise) : list string :=
  match p with
  | dataPending _ r =>
      (if isArray r then forIn (nullish (fetched r) (JObj [])) else indexIds r)
      ++ flat_map (readsOf sto) (arrayNames r)
  | dataResolved _ _ => []
  end.

Record initialised (sto : gmap string jsval) (st : state) : Prop := mkInitialised {
  i_storage : ∀ k, k ≠ "crdt" → storage st !! k = sto !! k;
  i_dom : ∀ r,
    (dataClientPromises st !! r = None ↔ crdtClientPromises st !! r = None) ∧
    (dataClientPromises st !! r = None ↔ lockClientPromises st !! r = None);
  i_none : ∀ r, dataClientPromises st !! r = None → getsOf r (storageLog st) = [];
  i_some : ∀ r p, dataClientPromises st !! r = Some p →
    ∃ dp, dataPromiseHeap st !! p = Some dp ∧
          (∀ n rd, dp = dataPending n rd → n = r) ∧
          getsOf r (storageLog st) ++ todo sto dp = initReads sto;
  i_pending : ∀ p n rd, dataPromiseHeap st !! p = Some (dataPending n rd) →
    dataClientPromises st !! n = Some p ∧ "crdt" ∉ arrayNames rd;
  i_conns : ∀ ws c, conns st !! ws = Some c →
    dataClientPromises st !! room c = Some (dataClientPromise c) ∧
    crdtClientPromises st !! room c = Some (crdtClientPromise c) ∧
    lockClientPromises st !! room c = Some (lockClientPromise c)
}.

Lemma getsOf_app r l1 l2 : getsOf r (l1 ++ l2) = getsOf r l1 ++ getsOf r l2.
Proof. apply omap_app. Qed.

Lemma getsOf_puts r puts : Forall isPut puts → getsOf r puts = [].
Proof. induction 1 as [|op puts [v ->] _ IH]; [done | exact IH]. Qed.

Lemma getsOf_get r n k :
  getsOf r [storageGet n k] = if decide (n = r) then [k] else [].
Proof. unfold getsOf. simpl. by destruct (decide (n = r)). Qed.

Lemma initialised_init sto : initialised sto (init sto).
Proof. split; simpl; try done. Qed.

Lemma initialised_quiet sto st st' : initialised sto st → quiet st st' → initialised sto st'.
Proof.
  intros I Q.
  assert (Hg : ∀ r, getsOf r (storageLog st') = getsOf r (storageLog st)).
  { intros r. destruct (q_log _ _ Q) as (puts & -> & Hputs).
    by rewrite getsOf_app, (getsOf_puts _ _ Hputs), app_nil_r. }
  split; rewrite ?(q_dataPromises _ _ Q), ?(q_crdtPromises _ _ Q),
    ?(q_lockPromises _ _ Q).
  - intros k Hk. rewrite (q_storage _ _ Q k Hk). by apply I.
  - apply I.
  - intros r Hr. rewrite Hg. by apply I.
  - intros r p Hp. destruct (i_some _ _ I r p Hp) as (dp & Hdp & Hn & Heq).
    destruct (Forall2_lookup_l _ _ _ _ _ (q_dataHeap _ _ Q) Hdp) as (dp' & Hdp' & S).
    exists dp'. split; [done|].
    destruct dp as [n0 rd0|], dp' as [n1 rd1|]; simpl in S; try done.
    + destruct S as [-> ->]. split; [done|]. by rewrite Hg.
    + split; [done|]. by rewrite Hg.
  - intros p n rd Hp.
    destruct (Forall2_lookup_r _ _ _ _ _ (q_dataHeap _ _ Q) Hp) as (dp & Hdp & S).
    destruct dp as [n0 rd0|]; simpl in S; [|done]. destruct S as [-> ->].
    by apply (i_pending _ _ I p).
  - intros ws c' Hc'.
    destruct (Forall2_lookup_r _ _ _ _ _ (q_conns _ _ Q) Hc') as (c & Hc & K).
    destruct K as (-> & _ & -> & -> & -> & _). by apply (i_conns _ _ I ws).
Qed.

Lemma schema_not_crdt a : a ∈ schemaArrayNames → a ≠ "crdt".
Proof. unfold schemaArrayNames. by intros ->%list_elem_of_singleton. Qed.

Lemma initialised_begin sto r pid st :
  initialised sto st → initialised sto (handleSession_begin r pid st).
Proof.
  intros I. assert (Hdom := i_dom _ _ I r).
  unfold handleSession_begin.
  destruct (dataClientPromises st !! r) as [p|] eqn:Hd; destruct Hdom as [Hdc Hdl].
  - destruct (crdtClientPromises st !! r) as [pc|] eqn:Hc;
      [|by specialize (proj2 Hdc eq_refl)].
    destruct (lockClientPromises st !! r) as [pl|] eqn:Hl;
      [|by specialize (proj2 Hdl eq_refl)].
    cbv beta iota zeta.
    split; simpl; try apply I.
    intros ws c [Hws|[_ Hws]]%lookup_app_Some; [by apply (i_conns _ _ I ws)|].
    apply list_lookup_singleton_Some in Hws as [_ <-]. done.
  - unfold continueReading, schemaArrayNames, storage_get. cbv beta iota zeta.
    change (crdtClientPromises (set_dataClientPromises _ _)) with (crdtClientPromises st).
    rewrite (proj1 Hdc eq_refl). cbv beta iota zeta.
    change (lockClientPromises (set_crdtClientPromises _ _)) with (lockClientPromises st).
    rewrite (proj1 Hdl eq_refl). cbv beta iota zeta.
    split; simpl.
    + apply I.
    + intros r'. destruct (decide (r = r')) as [->|Hne].
      * rewrite !lookup_insert_eq. done.
      * rewrite !lookup_insert_ne by done. apply I.
    + intros r'. destruct (decide (r = r')) as [->|Hne].
      * by rewrite lookup_insert_eq.
      * rewrite lookup_insert_ne by done. intros Hr'.
        rewrite !getsOf_app, !getsOf_get, !decide_False, !app_nil_r by done.
        by apply I.
    + intros r' p'. destruct (decide (r = r')) as [->|Hne].
      * rewrite lookup_insert_eq. intros [= <-].
        eexists. split; [by rewrite lookup_app_r, Nat.sub_diag|].
        split; [by intros ?? [= <- _]|].
        rewrite !getsOf_app, !getsOf_get, !decide_True by done.
        rewrite (i_none _ _ I _ Hd). simpl. unfold initReads, schemaArrayNames. simpl.
        rewrite (i_storage _ _ I "worldApps") by done. by rewrite !app_nil_r.
      * rewrite lookup_insert_ne by done. intros Hr'.
        destruct (i_some _ _ I r' p' Hr') as (dp & Hdp & Hn & Heq).
        exists dp. split; [by apply lookup_app_l_Some|]. split; [done|].
        by rewrite !getsOf_app, !getsOf_get, !decide_False, !app_nil_r.
    + intros p' n rd [Hp'|[Hle Hp']]%lookup_app_Some.
      * destruct (i_pending _ _ I p' n rd Hp') as [Hn Hcrdt]. split; [|done].
        rewrite lookup_insert_ne; [done|]. intros ->. congruence.
      * apply list_lookup_singleton_Some in Hp' as [Hz [= <- <-]]. simpl.
        split; [|by intros ?%elem_of_nil].
        rewrite lookup_insert_eq. f_equal. lia.
    + intros ws c [Hws|[_ Hws]]%lookup_app_Some.
      * destruct (i_conns _ _ I ws c Hws) as (H1 & H2 & H3).
        assert (r ≠ room c) by (intros ->; congruence).
        by rewrite !lookup_insert_ne.
      * apply list_lookup_singleton_Some in Hws as [_ <-]. simpl.
        by rewrite !lookup_insert_eq.
Qed.

Lemma continueReading_spec sto n ids names crdt st :
  (∀ k, k ≠ "crdt" → storage st !! k = sto !! k) → "crdt" ∉ names →
  let '(dp, st') := continueReading n ids names crdt st in
  ∃ ks,
    st' = set_storageLog (storageLog st ++ (storageGet n <$> ks)) st ∧
    ks ++ todo sto dp = ids ++ flat_map (readsOf sto) names ∧
    (∀ n' rd, dp = dataPending n' rd → n' = n ∧ "crdt" ∉ arrayNames rd).
Proof.
  intros Hsto Hnames. unfold continueReading, storage_get.
  destruct ids as [|i ids'].
  - destruct names as [|a names'].
    + exists []. split; [|done]. destruct st; simpl. by rewrite app_nil_r.
    + exists [a]. split; [done|]. simpl. split.
      * rewrite Hsto; [done|]. intros ->. apply Hnames. by left.
      * intros ?? [= <- <-]. split; [done|]. simpl. intros ?. apply Hnames. by right.
  - exists [i]. split; [done|]. simpl. split; [done|].
    by intros ?? [= <- <-].
Qed.

Lemma initialised_replyData sto p st :
  initialised sto st → initialised sto (step (storageReplyData p) st).
Proof.
  intros I. unfold step. destruct (spinning st); [done|].
  destruct (dataPromiseHeap st !! p) as [[n rd|]|] eqn:Hp; try done.
  destruct (i_pending _ _ I p n rd Hp) as [Hn Hcrdt].
  destruct (i_some _ _ I n p Hn) as (dp & Hdp & _ & Heq).
  assert (dp = dataPending n rd) as -> by congruence.
  unfold storageReplied.
  set (ids := if isArray rd then forIn (nullish (fetched rd) (JObj [])) else indexIds rd).
  set (crdt' := if isArray rd
                then mapSet (awaited rd) (nullish (fetched rd) (JObj [])) (crdt rd)
                else mapSet (awaited rd) (nullish (fetched rd) (JArr [JNum 0; JObj []])) (crdt rd)).
  assert (Hcr := continueReading_spec sto n ids (arrayNames rd) crdt' st (i_storage _ _ I) Hcrdt).
  replace (if isArray rd then _ else _)
    with (continueReading n ids (arrayNames rd) crdt' st)
    by (unfold ids, crdt'; by destruct (isArray rd)).
  destruct (continueReading n ids (arrayNames rd) crdt' st) as [dp' st'].
  destruct Hcr as (ks & -> & Htodo & Hroom).
  assert (Hlt : (p < length (dataPromiseHeap st))%nat) by by apply lookup_lt_Some in Hp.
  split; simpl.
  - apply I.
  - apply I.
  - intros r Hr. rewrite getsOf_app.
    rewrite (i_none _ _ I r Hr). simpl.
    assert (n ≠ r) by (intros ->; congruence).
    clear -H0. induction ks as [|k ks IH]; [done|]. simpl.
    by rewrite decide_False.
  - intros r p' Hr. destruct (decide (p' = p)) as [->|Hne].
    + destruct (i_some _ _ I r p Hr) as (dp & Hdp' & Hnr & _).
      assert (dp = dataPending n rd) as -> by congruence.
      assert (n = r) as <- by by eapply Hnr.
      exists dp'. split; [by rewrite list_lookup_insert_eq|].
      split; [intros ?? ->; by eapply Hroom|].
      rewrite getsOf_app.
      replace (getsOf n (storageGet n <$> ks)) with ks.
      * rewrite <- app_assoc, Htodo. exact Heq.
      * clear. induction ks as [|k ks IH]; [done|]. simpl.
        rewrite decide_True by done. by f_equal.
    + destruct (i_some _ _ I r p' Hr) as (dp & Hdp' & Hnr & Heq').
      exists dp. split; [by rewrite list_lookup_insert_ne|]. split; [done|].
      rewrite getsOf_app.
      replace (getsOf r (storageGet n <$> ks)) with (@nil string);
        [by rewrite app_nil_r|].
      assert (n ≠ r).
      { intros ->. rewrite Hn in Hr. by injection Hr as ->. }
      clear -H0. induction ks as [|k ks IH]; [done|]. simpl.
      by rewrite decide_False.
  - intros p' n' rd' Hp'. destruct (decide (p' = p)) as [->|Hne].
    + rewrite list_lookup_insert_eq in Hp' by done. injection Hp' as ->.
      destruct (Hroom _ _ eq_refl) as [-> ?]. done.
    + rewrite list_lookup_insert_ne in Hp' by done. by apply (i_pending _ _ I p').
  - apply I.
Qed.

Lemma initialised_step sto e st : initialised sto st → initialised sto (step e st).
Proof.
  intros I. destruct e as [r|p|p|ws fuel|ws d|ws|ws];
    try (apply (initialised_quiet sto st); [done|]; by apply quiet_step).
  - unfold step. destruct (spinning st); [done|]. unfold fetch.
    destruct (matchPath (pathname r)) as [roomName methodName].
    destruct (String.eqb methodName "websocket"); [|done].
    case_bool_decide; [done|]. by apply initialised_begin.
  - by apply initialised_replyData.
  - unfold step. destruct (spinning st); [done|].
    destruct (crdtPromiseHeap st !! p) as [[v|]|]; try done.
    split; simpl; apply I.
Qed.

Lemma initialised_run sto es st : initialised sto st → initialised sto (run es st).
Proof.
  revert st. induction es as [|e es IH]; intros st I; [done|].
  simpl. apply IH. by apply initialised_step.
Qed.

End Initialization.

(** ** The loops that send *)

(** The targets a loop of sends reaches: those before the first one
    whose transport refuses. *)
Fixpoint reached (cs : list conn) (targets : list nat) : list nat :=
  match targets with
  | [] => []
  | t :: ts =>
      match cs !! t with
      | Some c => if sendFails c then [] else t :: reached cs ts
      | None => []
      end
  end.

(** What the loop throws, if it throws. *)
Fixpoint firstError (cs : list conn) (targets : list nat) : option string :=
  match targets with
  | [] => None
  | t :: ts =>
      match cs !! t with
      | Some c => if sendFails c then Some sendError else firstError cs ts
      | None => Some "no such socket"
      end
  end.

Definition outcomeOf (e : option string) : outcome unit :=
  match e with Some err => Throw err | None => Return tt end.

(** Every transport of [targets] takes what is sent. *)
Definition accepting (cs : list conn) (targets : list nat) : Prop :=
  ∀ t, t ∈ targets → ∃ c, cs !! t = Some c ∧ sendFails c = false.

(** [accepting], as a test. *)
Definition acceptingb (cs : list conn) (targets : list nat) : bool :=
  forallb (λ t, match cs !! t with
                | Some c => negb (sendFails c)
                | None => false
                end) targets.

Lemma acceptingb_accepting cs targets :
  acceptingb cs targets = true → accepting cs targets.
Proof.
  unfold acceptingb. rewrite forallb_forall. intros Hb t Ht.
  specialize (Hb t). rewrite <- list_elem_of_In in Hb. specialize (Hb Ht).
  destruct (cs !! t) as [c|]; [|done]. exists c. split; [done|].
  by destruct (sendFails c).
Qed.

Lemma reached_accepting cs targets :
  accepting cs targets → reached cs targets = targets ∧ firstError cs targets = None.
Proof.
  induction targets as [|t ts IH]; intros Ha; [done|]. simpl.
  destruct (Ha t) as (c & -> & ->); [by left|].
  destruct IH as [-> ->]; [|done]. intros u Hu. apply Ha. by right.
Qed.

Lemma firstError_accepting cs targets :
  firstError cs targets = None → accepting cs targets.
Proof.
  induction targets as [|t ts IH]; simpl.
  - intros _ t Ht. by apply elem_of_nil in Ht.
  - destruct (cs !! t) as [c|] eqn:Hc; [|done].
    destruct (sendFails c) eqn:Hf; [done|].
    intros He u [->|Hu]%elem_of_cons; [by exists c|by apply IH].
Qed.

Section Sending.
Context `{Collaborators}.
Implicit Types (st : state) (ws self : nat).

Definition sends (m : wsdata) (targets : list nat) : list action :=
  (λ t, Sent t m) <$> targets.

Lemma sendAll_spec m targets : ∀ st,
  forEach targets (λ t, send t m) st =
    (outcomeOf (firstError (conns st) targets),
     set_trace (trace st ++ sends m (reached (conns st) targets)) st).
Proof.
  induction targets as [|t ts IH]; intros st; simpl.
  - unfold ret, sends. simpl. rewrite app_nil_r. by destruct st.
  - unfold bind, send at 1, bind, conn_at.
    destruct (conns st !! t) as [c|] eqn:Hc; simpl.
    + destruct (sendFails c); simpl.
      * unfold sends. simpl. rewrite app_nil_r. by destruct st.
      * rewrite IH. simpl. unfold sends. simpl. by rewrite <- app_assoc.
    + unfold sends. simpl. rewrite app_nil_r. by destruct st.
Qed.

Lemma forEach_filter (P : nat → Prop) `{∀ x, Decision (P x)} (l : list nat) body : ∀ st,
  forEach l (λ s, if decide (P s) then body s else ret tt) st =
  forEach (filter P l) body st.
Proof.
  induction l as [|x l IH]; intros st; [done|]. simpl.
  rewrite filter_cons. destruct (decide (P x)); simpl.
  - unfold bind. destruct (body x st) as [[[]|err] st1]; [apply IH | done].
  - unfold bind, ret. apply IH.
Qed.

Lemma reflectMessageToPeers_spec ws m st :
  reflectMessageToPeers ws m st =
    (outcomeOf (firstError (conns st) (sessions st)),
     set_trace (trace st ++ sends m (reached (conns st) (sessions st))) st).
Proof. unfold reflectMessageToPeers, bind, read. apply sendAll_spec. Qed.

Lemma proxyMessageToPeers_spec ws m st :
  let peers := filter (λ s, s ≠ ws) (sessions st) in
  proxyMessageToPeers ws m st =
    (outcomeOf (firstError (conns st) peers),
     set_trace (trace st ++ sends m (reached (conns st) peers)) st).
Proof.
  unfold proxyMessageToPeers, bind, read. simpl.
  rewrite (forEach_filter (λ s, s ≠ ws)). apply sendAll_spec.
Qed.

Lemma respondToSelf_spec ws m st :
  respondToSelf ws m st =
    (outcomeOf (firstError (conns st) [ws]),
     set_trace (trace st ++ sends m (reached (conns st) [ws])) st).
Proof.
  rewrite <- sendAll_spec. simpl. unfold respondToSelf, bind.
  by destruct (send ws m st) as [[[]|err] st1].
Qed.

Lemma proxyMessageToPeers_ok ws m st :
  accepting (conns st) (filter (λ s, s ≠ ws) (sessions st)) →
  proxyMessageToPeers ws m st =
    (Return tt,
     set_trace (trace st ++ sends m (filter (λ s, s ≠ ws) (sessions st))) st).
Proof.
  intros Ha. rewrite proxyMessageToPeers_spec. simpl.
  by destruct (reached_accepting _ _ Ha) as [-> ->].
Qed.

Lemma reflectMessageToPeers_ok ws m st :
  accepting (conns st) (sessions st) →
  reflectMessageToPeers ws m st =
    (Return tt, set_trace (trace st ++ sends m (sessions st)) st).
Proof.
  intros Ha. rewrite reflectMessageToPeers_spec.
  by destruct (reached_accepting _ _ Ha) as [-> ->].
Qed.

End Sending.

(** ** The listeners of the data client *)

(** The keys of a dead-hand event are of one of the two forms. *)
Definition wellFormed (e : handEvent) : Prop :=
  match e with
  | deadhand keys _ => Forall (λ k, is_Some (parseKey k)) keys
  | livehand _ _ => True
  end.

Section Hands.
Context `{Collaborators}.
Implicit Types (st : state) (ws self : nat).

(** Only tables of dead hands differ. *)
Definition onlyHands (st st' : state) : Prop :=
  st' = set_conns (conns st') st ∧
  Forall2 (λ c c', c' = set_deadHands (deadHands c') c) (conns st) (conns st').

Lemma onlyHands_refl st : onlyHands st st.
Proof.
  split; [by destruct st|]. apply Forall_Forall2_diag, Forall_forall.
  intros c _. by destruct c.
Qed.

Lemma onlyHands_trans st1 st2 st3 : onlyHands st1 st2 → onlyHands st2 st3 → onlyHands st1 st3.
Proof.
  intros [E1 F1] [E2 F2]. split.
  - transitivity (set_conns (conns st3) st2); [exact E2|]. rewrite E1 at 1. done.
  - eapply Forall2_trans; [|exact F1|exact F2].
    intros a b c -> ->. by destruct a.
Qed.

Lemma onlyHands_updConn ws st v :
  onlyHands st (updConn ws (λ c, set_deadHands (v c) c) st).
Proof.
  split; [done|]. simpl. apply Forall2_alter_r.
  - apply Forall_Forall2_diag, Forall_forall. intros c _. by destruct c.
  - intros c c' _ _ ->. by destruct c.
Qed.

Lemma onlyHands_lookup st st' t c :
  onlyHands st st' → conns st !! t = Some c →
  ∃ c', conns st' !! t = Some c' ∧ c' = set_deadHands (deadHands c') c.
Proof. intros [_ F] Hc. by apply (Forall2_lookup_l _ _ _ _ _ F). Qed.

(** [m] comes to its end and changes tables only, wherever the
    sessions of [ls] exist. *)
Definition tabling (ls : list nat) {A} (m : M A) : Prop :=
  ∀ st, (∀ l, l ∈ ls → is_Some (conns st !! l)) →
    (∃ a, fst (m st) = Return a) ∧ onlyHands st (snd (m st)).

Lemma tabling_bind ls {A B} (m : M A) (k : A → M B) :
  tabling ls m → (∀ a, tabling ls (k a)) → tabling ls (bind m k).
Proof.
  intros Hm Hk st Hls. unfold bind. destruct (Hm st Hls) as [[a Ha] Ho].
  destruct (m st) as [r st1]; simpl in *. subst r.
  destruct (Hk a st1) as [Hr Ho1].
  - intros l Hl. destruct (Hls l Hl) as [c Hc].
    destruct (onlyHands_lookup _ _ _ _ Ho Hc) as (c' & -> & _). done.
  - split; [done|]. by eapply onlyHands_trans.
Qed.

Lemma tabling_ret ls {A} (a : A) : tabling ls (ret a).
Proof. intros st _. split; [by exists a | apply onlyHands_refl]. Qed.

Lemma tabling_forEach ls {A} (l : list A) body :
  (∀ x, x ∈ l → tabling ls (body x)) → tabling ls (forEach l body).
Proof.
  induction l as [|x l IH]; intros Hb; simpl; [apply tabling_ret|].
  apply tabling_bind; [apply Hb; left|]. intros _. apply IH.
  intros y Hy. apply Hb. by right.
Qed.

Lemma tabling_conn_at ls l {B} (k : conn → M B) :
  l ∈ ls → (∀ c, tabling ls (k c)) → tabling ls (bind (conn_at l) k).
Proof.
  intros Hl Hk st Hls. destruct (Hls l Hl) as [c Hc].
  unfold bind. rewrite (conn_at_Some _ _ _ Hc). by apply Hk.
Qed.

Lemma tabling_listener ls l e : l ∈ ls → wellFormed e →
  tabling ls (match e with
              | deadhand keys h => deadhandListener l keys h
              | livehand keys h => livehandListener l keys h
              end).
Proof.
  intros Hl Hwf. destruct e as [keys h|keys h].
  - apply tabling_conn_at; [done|]. intros c.
    destruct (decide (h = playerId c)); [|by apply tabling_ret].
    apply tabling_forEach. intros key Hkey. simpl in Hwf.
    rewrite Forall_forall in Hwf. destruct (Hwf key Hkey) as [hd ->].
    intros st' _. split; [by exists tt|].
    apply (onlyHands_updConn l st' (λ c, mapSet key hd (deadHands c))).
  - apply tabling_conn_at; [done|]. intros c.
    destruct (decide (h = playerId c)); [|by apply tabling_ret].
    apply tabling_forEach. intros key Hkey.
    intros st' _. split; [by exists tt|].
    apply (onlyHands_updConn l st' (λ c, mapDelete key (deadHands c))).
Qed.

Lemma tabling_events ls events :
  Forall wellFormed events →
  tabling ls (forEach events (λ e,
    forEach ls (λ l,
      match e with
      | deadhand keys h => deadhandListener l keys h
      | livehand keys h => livehandListener l keys h
      end))).
Proof.
  intros Hwf. apply tabling_forEach. intros e He.
  apply tabling_forEach. intros l Hl. apply tabling_listener; [done|].
  rewrite Forall_forall in Hwf. by apply Hwf.
Qed.

Lemma dataClient_applyUint8Array_spec ws b st c dc ls :
  conns st !! ws = Some c →
  dataPromiseHeap st !! dataClientPromise c = Some (dataResolved dc ls) →
  dataClient_applyUint8Array ws b st =
    (Return (applyUint8Array dc b).2,
     set_dataPromiseHeap
       (<[dataClientPromise c := dataResolved (applyUint8Array dc b).1 ls]>
          (dataPromiseHeap st)) st).
Proof.
  intros Hc Hp. unfold dataClient_applyUint8Array. unfold bind at 1.
  rewrite (dataClient_at_Some _ _ _ _ _ Hc Hp).
  destruct (applyUint8Array dc b) as [dc' r]. unfold bind, set_dataClient, bind.
  by rewrite (conn_at_Some _ _ _ Hc).
Qed.

(** [emitUpdate] with listeners that come to their end. *)
Lemma dataClient_emitUpdate_ok ws u st c dc ls :
  conns st !! ws = Some c →
  dataPromiseHeap st !! dataClientPromise c = Some (dataResolved dc ls) →
  (∀ l, l ∈ ls → is_Some (conns st !! l)) →
  Forall wellFormed (emitUpdate dc u).2 →
  ∃ st', dataClient_emitUpdate ws u st = (Return tt, st') ∧
    onlyHands (set_dataPromiseHeap
                 (<[dataClientPromise c := dataResolved (emitUpdate dc u).1 ls]>
                    (dataPromiseHeap st)) st) st'.
Proof.
  intros Hc Hp Hls Hwf. unfold dataClient_emitUpdate. unfold bind at 1.
  rewrite (dataClient_at_Some _ _ _ _ _ Hc Hp).
  destruct (emitUpdate dc u) as [dc' events]. simpl in *.
  unfold bind at 1, set_dataClient, bind. rewrite (conn_at_Some _ _ _ Hc).
  unfold modify.
  set (st1 := set_dataPromiseHeap _ st).
  destruct (tabling_events ls events Hwf st1 Hls) as [[[] Hr] Ho].
  match goal with |- context [forEach events ?body st1] =>
    destruct (forEach events body st1) as [r st'] end.
  simpl in *. subst r. by exists st'.
Qed.

End Hands.

(** ** What the listeners of [emitUpdate] throw *)

(** The error the dead-hand listener of a session throws on [keys]:
    the one of the first key that matches neither pattern. *)
Fixpoint keyError (keys : list string) : option string :=
  match keys with
  | [] => None
  | key :: keys' =>
      match parseKey key with
      | Some _ => keyError keys'
      | None => Some ("invalid deadhand key: " +:+ key)
      end
  end.

(** The error the hand listener of [l] throws on the event [e]. *)
Definition listenerError (cs : list conn) (l : nat) (e : handEvent) : option string :=
  match cs !! l with
  | None => Some "no such socket"
  | Some c =>
      match e with
      | deadhand keys h => if decide (h = playerId c) then keyError keys else None
      | livehand _ _ => None
      end
  end.

Fixpoint firstThrown {A} (f : A → option string) (l : list A) : option string :=
  match l with
  | [] => None
  | x :: l' =>
      match f x with
      | Some err => Some err
      | None => firstThrown f l'
      end
  end.

(** The error that comes out of the emission of [events] to the
    listeners of [ls], if one does: events in order, for each event the
    listeners in the order of subscription. *)
Definition handError (cs : list conn) (ls : list nat) (events : list handEvent)
    : option string :=
  firstThrown (λ e, firstThrown (λ l, listenerError cs l e) ls) events.

(** Some subscribed session has the player [h]. *)
Definition owned (cs : list conn) (ls : list nat) (h : option string) : Prop :=
  ∃ l c, l ∈ ls ∧ cs !! l = Some c ∧ playerId c = h.

Lemma firstThrown_None {A} (f : A → option string) l :
  firstThrown f l = None ↔ ∀ x, x ∈ l → f x = None.
Proof.
  induction l as [|x l IH]; simpl.
  - split; [|done]. intros _ y Hy. by apply elem_of_nil in Hy.
  - destruct (f x) eqn:Hx.
    + split; [done|]. intros Hall. rewrite Hall in Hx; [done|by left].
    + rewrite IH. split.
      * intros Hall y [->|Hy]%elem_of_cons; auto.
      * intros Hall y Hy. apply Hall. by right.
Qed.

Lemma firstThrown_Some {A} (f : A → option string) l err :
  firstThrown f l = Some err → ∃ x, x ∈ l ∧ f x = Some err.
Proof.
  induction l as [|x l IH]; simpl; [done|].
  destruct (f x) eqn:Hx.
  - intros [= ->]. exists x. split; [by left|done].
  - intros Hl. destruct (IH Hl) as (y & Hy & Hf). exists y. split; [by right|done].
Qed.

Lemma keyError_None keys :
  keyError keys = None ↔ Forall (λ k, is_Some (parseKey k)) keys.
Proof.
  induction keys as [|k keys IH]; simpl; [by split; [constructor|]|].
  destruct (parseKey k) eqn:Hk.
  - rewrite IH. split; [intros; constructor; eauto|]. by intros [_ ?]%Forall_cons.
  - split; [done|]. intros [[? Hs] _]%Forall_cons. by rewrite Hk in Hs.
Qed.

Lemma keyError_Some keys err :
  keyError keys = Some err →
  ∃ bad, bad ∈ keys ∧ parseKey bad = None ∧ err = "invalid deadhand key: " +:+ bad.
Proof.
  induction keys as [|k keys IH]; simpl; [done|].
  destruct (parseKey k) eqn:Hk.
  - intros He. destruct (IH He) as (bad & Hin & Hb & ->).
    exists bad. split; [by right|done].
  - intros [= <-]. exists k. split; [by left|done].
Qed.

(** With every listener in place, an error is the one of a malformed
    key of a dead hand that a subscribed session has. *)
Lemma handError_Some cs ls events err :
  (∀ l, l ∈ ls → is_Some (cs !! l)) →
  handError cs ls events = Some err →
  ∃ keys h bad, deadhand keys h ∈ events ∧ owned cs ls h ∧ bad ∈ keys ∧
                parseKey bad = None ∧ err = "invalid deadhand key: " +:+ bad.
Proof.
  intros Hls He. apply firstThrown_Some in He as (e & He & Hl).
  apply firstThrown_Some in Hl as (l & Hl & Herr).
  unfold listenerError in Herr. destruct (Hls l Hl) as [c Hc]. rewrite Hc in Herr.
  destruct e as [keys h|keys h]; [|done].
  destruct (decide (h = playerId c)) as [->|]; [|done].
  destruct (keyError_Some _ _ Herr) as (bad & Hin & Hb & ->).
  exists keys, (playerId c), bad. split; [done|]. split; [by exists l, c|done].
Qed.

Lemma handError_None cs ls events :
  (∀ l, l ∈ ls → is_Some (cs !! l)) →
  handError cs ls events = None ↔
  ∀ keys h, deadhand keys h ∈ events → owned cs ls h →
            Forall (λ k, is_Some (parseKey k)) keys.
Proof.
  intros Hls. unfold handError. rewrite firstThrown_None. split.
  - intros Hall keys h He (l & c & Hl & Hc & Hp).
    specialize (Hall _ He). rewrite firstThrown_None in Hall. specialize (Hall l Hl).
    unfold listenerError in Hall. rewrite Hc in Hall.
    rewrite decide_True in Hall by done. by apply keyError_None.
  - intros Hall e He. apply firstThrown_None. intros l Hl.
    unfold listenerError. destruct (Hls l Hl) as [c Hc]. rewrite Hc.
    destruct e as [keys h|keys h]; [|done].
    destruct (decide (h = playerId c)) as [->|]; [|done].
    apply keyError_None. apply (Hall keys (playerId c) He). by exists l, c.
Qed.

Lemma handError_wellFormed cs ls events :
  (∀ l, l ∈ ls → is_Some (cs !! l)) → Forall wellFormed events →
  handError cs ls events = None.
Proof.
  intros Hls Hwf. apply handError_None; [done|]. intros keys h He _.
  rewrite Forall_forall in Hwf. apply (Hwf _ He).
Qed.

Section Emission.
Context `{Collaborators}.
Implicit Types (st : state) (ws self : nat).

Lemma listenerError_onlyHands st st' l e :
  onlyHands st st' → listenerError (conns st') l e = listenerError (conns st) l e.
Proof.
  intros [_ F]. unfold listenerError.
  destruct (conns st !! l) as [c|] eqn:Hc.
  - destruct (Forall2_lookup_l _ _ _ _ _ F Hc) as (c' & -> & E).
    assert (playerId c' = playerId c) as -> by (by rewrite E). done.
  - apply lookup_ge_None in Hc. rewrite (Forall2_length _ _ _ F) in Hc.
    apply lookup_ge_None in Hc. by rewrite Hc.
Qed.

Lemma subscribersError_onlyHands st st' ls e :
  onlyHands st st' →
  firstThrown (λ l, listenerError (conns st') l e) ls =
  firstThrown (λ l, listenerError (conns st) l e) ls.
Proof.
  intros Ho. induction ls as [|l ls IHl]; [done|]. cbn [firstThrown].
  by rewrite (listenerError_onlyHands _ _ _ _ Ho), IHl.
Qed.

Lemma handError_onlyHands st st' ls events :
  onlyHands st st' → handError (conns st') ls events = handError (conns st) ls events.
Proof.
  intros Ho. unfold handError. induction events as [|e events IH]; [done|].
  cbn [firstThrown]. by rewrite IH, (subscribersError_onlyHands _ _ _ _ Ho).
Qed.

Lemma reached_onlyHands st st' targets :
  onlyHands st st' →
  reached (conns st') targets = reached (conns st) targets ∧
  firstError (conns st') targets = firstError (conns st) targets.
Proof.
  intros [_ F]. induction targets as [|t ts [IH1 IH2]]; [done|]. simpl.
  destruct (conns st !! t) as [c|] eqn:Hc.
  - destruct (Forall2_lookup_l _ _ _ _ _ F Hc) as (c' & -> & E).
    assert (sendFails c' = sendFails c) as -> by (by rewrite E).
    by rewrite IH1, IH2.
  - apply lookup_ge_None in Hc. rewrite (Forall2_length _ _ _ F) in Hc.
    apply lookup_ge_None in Hc. by rewrite Hc.
Qed.

Lemma keys_spec l keys : ∀ st,
  ∃ st',
    forEach keys (λ key,
      match parseKey key with
      | Some h => modify (updConn l (λ c, set_deadHands (mapSet key h (deadHands c)) c))
      | None => throw ("invalid deadhand key: " +:+ key)
      end) st = (outcomeOf (keyError keys), st') ∧
    onlyHands st st'.
Proof.
  induction keys as [|k keys IH]; intros st; simpl.
  - exists st. split; [done|apply onlyHands_refl].
  - destruct (parseKey k) as [h|]; unfold bind; simpl.
    + destruct (IH (updConn l (λ c, set_deadHands (mapSet k h (deadHands c)) c) st))
        as (st' & -> & Ho).
      exists st'. split; [done|].
      eapply onlyHands_trans; [|exact Ho].
      apply (onlyHands_updConn l st (λ c, mapSet k h (deadHands c))).
    + exists st. split; [done|apply onlyHands_refl].
Qed.

Lemma listener_spec l e st :
  ∃ st',
    match e with
    | deadhand keys h => deadhandListener l keys h
    | livehand keys h => livehandListener l keys h
    end st = (outcomeOf (listenerError (conns st) l e), st') ∧
    onlyHands st st'.
Proof.
  unfold listenerError. destruct e as [keys h|keys h].
  - unfold deadhandListener, bind, conn_at.
    destruct (conns st !! l) as [c|]; [|exists st; split; [done|apply onlyHands_refl]].
    destruct (decide (h = playerId c)); [apply keys_spec|].
    exists st. split; [done|apply onlyHands_refl].
  - unfold livehandListener, bind, conn_at.
    destruct (conns st !! l) as [c|]; [|exists st; split; [done|apply onlyHands_refl]].
    destruct (decide (h = playerId c)); [|exists st; split; [done|apply onlyHands_refl]].
    generalize st. clear. induction keys as [|k keys IH]; intros st; simpl.
    + exists st. split; [done|apply onlyHands_refl].
    + unfold bind. simpl.
      destruct (IH (updConn l (λ c, set_deadHands (mapDelete k (deadHands c)) c) st))
        as (st' & -> & Ho).
      exists st'. split; [done|].
      eapply onlyHands_trans; [|exact Ho].
      apply (onlyHands_updConn l st (λ c, mapDelete k (deadHands c))).
Qed.

Lemma subscribers_spec ls e : ∀ st,
  ∃ st',
    forEach ls (λ l,
      match e with
      | deadhand keys h => deadhandListener l keys h
      | livehand keys h => livehandListener l keys h
      end) st = (outcomeOf (firstThrown (λ l, listenerError (conns st) l e) ls), st') ∧
    onlyHands st st'.
Proof.
  induction ls as [|l ls IH]; intros st; simpl.
  - exists st. split; [done|apply onlyHands_refl].
  - unfold bind. destruct (listener_spec l e st) as (st1 & -> & Ho1).
    destruct (listenerError (conns st) l e) as [err|]; simpl.
    + by exists st1.
    + destruct (IH st1) as (st' & -> & Ho). exists st'. split.
      * by rewrite (subscribersError_onlyHands _ _ _ _ Ho1).
      * by eapply onlyHands_trans.
Qed.

Lemma events_spec ls events : ∀ st,
  ∃ st',
    forEach events (λ e,
      forEach ls (λ l,
        match e with
        | deadhand keys h => deadhandListener l keys h
        | livehand keys h => livehandListener l keys h
        end)) st = (outcomeOf (handError (conns st) ls events), st') ∧
    onlyHands st st'.
Proof.
  induction events as [|e events IH]; intros st.
  - exists st. split; [done|apply onlyHands_refl].
  - simpl forEach. unfold bind. destruct (subscribers_spec ls e st) as (st1 & -> & Ho1).
    unfold handError. simpl.
    destruct (firstThrown (λ l, listenerError (conns st) l e) ls) as [err|]; simpl.
    + by exists st1.
    + destruct (IH st1) as (st' & -> & Ho). exists st'. split.
      * by rewrite (handError_onlyHands _ _ _ _ Ho1).
      * by eapply onlyHands_trans.
Qed.

(** [emitUpdate], whatever the listeners do. *)
Lemma dataClient_emitUpdate_spec ws u st c dc ls :
  conns st !! ws = Some c →
  dataPromiseHeap st !! dataClientPromise c = Some (dataResolved dc ls) →
  ∃ st',
    dataClient_emitUpdate ws u st =
      (outcomeOf (handError (conns st) ls (emitUpdate dc u).2), st') ∧
    onlyHands (set_dataPromiseHeap
                 (<[dataClientPromise c := dataResolved (emitUpdate dc u).1 ls]>
                    (dataPromiseHeap st)) st) st'.
Proof.
  intros Hc Hp. unfold dataClient_emitUpdate. unfold bind at 1.
  rewrite (dataClient_at_Some _ _ _ _ _ Hc Hp).
  destruct (emitUpdate dc u) as [dc' events]. simpl.
  unfold bind at 1, set_dataClient, bind. rewrite (conn_at_Some _ _ _ Hc).
  unfold modify.
  destruct (events_spec ls events
              (set_dataPromiseHeap
                 (<[dataClientPromise c := dataResolved dc' ls]> (dataPromiseHeap st)) st))
    as (st' & E & Ho).
  exists st'. split; [exact E|exact Ho].
Qed.
End Emission.

(** ** The listeners of a data client are sockets of the object *)

Section Subscribers.
Context `{Collaborators}.
Implicit Types (st : state) (ws : nat).

(** Every session that subscribed to a data client has its record. *)
Definition subscribed (st : state) : Prop :=
  ∀ p dc ls l, dataPromiseHeap st !! p = Some (dataResolved dc ls) → l ∈ ls →
    is_Some (conns st !! l).

Definition lasting (st st' : state) : Prop := subscribed st → subscribed st'.

Lemma lasting_refl st : lasting st st.
Proof. by intros S. Qed.

Lemma lasting_trans st1 st2 st3 : lasting st1 st2 → lasting st2 st3 → lasting st1 st3.
Proof. intros L1 L2 S. by apply L2, L1. Qed.

Lemma lasting_from st st' :
  (∀ l, is_Some (conns st !! l) → is_Some (conns st' !! l)) →
  (∀ p dc ls, dataPromiseHeap st' !! p = Some (dataResolved dc ls) →
     (∃ dc0, dataPromiseHeap st !! p = Some (dataResolved dc0 ls)) ∨
     (∀ l, l ∈ ls → is_Some (conns st' !! l))) →
  lasting st st'.
Proof.
  intros Hcs Hheap S p dc ls l Hp Hl.
  destruct (Hheap p dc ls Hp) as [[dc0 Hp0]|Hall]; [|by apply Hall].
  apply Hcs. by apply (S p dc0 ls l).
Qed.

Lemma evolves_lasting self st st' : evolves self st st' → lasting st st'.
Proof.
  intros E. apply lasting_from.
  - intros l [c Hc].
    destruct (Forall2_lookup_l _ _ _ _ _ (ev_conns _ _ _ E) Hc) as (c' & -> & _). done.
  - intros p dc ls Hp. left.
    destruct (Forall2_lookup_r _ _ _ _ _ (ev_dataHeap _ _ _ E) Hp) as (p0 & Hp0 & S).
    destruct p0 as [n r|dc0 ls0]; simpl in S; [done|]. subst ls0. by exists dc0.
Qed.

Lemma lasting_updConn ws f st : lasting st (updConn ws f st).
Proof.
  apply lasting_from.
  - intros l. rewrite !lookup_lt_is_Some. simpl. by rewrite length_alter.
  - intros p dc ls Hp. left. by exists dc.
Qed.

Lemma lasting_same st st' :
  conns st' = conns st → dataPromiseHeap st' = dataPromiseHeap st → lasting st st'.
Proof.
  intros Hc Hp. apply lasting_from.
  - intros l. by rewrite Hc.
  - intros p dc ls. rewrite Hp. intros Hl. left. by exists dc.
Qed.

Lemma lasting_sessionListener ws d : respects lasting (sessionListener ws d).
Proof.
  intros st. rewrite sessionListener_unfold. simpl.
  eapply lasting_trans;
    [apply (lasting_same st (set_trace (trace st ++ [Dispatched ws d]) st)); reflexivity|].
  eapply evolves_lasting, evolving_sessionListener_body.
Qed.

Lemma lasting_dispatchMessage ws d : respects lasting (dispatchMessage ws d).
Proof.
  apply respects_bind;
    [apply lasting_trans | intros st; apply (evolves_lasting 0), evolving_conn_at |].
  intros c. apply respects_forEach; [apply lasting_refl | apply lasting_trans |].
  intros [|].
  - apply respects_modify. intros st. apply lasting_updConn.
  - apply lasting_sessionListener.
Qed.

Lemma lasting_replay fuel ws i : respects lasting (replay fuel ws i).
Proof.
  revert i. induction fuel as [|fuel IH]; intros i; simpl.
  - apply respects_bind;
      [apply lasting_trans | intros st; apply (evolves_lasting 0), evolving_conn_at |].
    intros c. destruct (queue c !! i); apply respects_ret, lasting_refl.
  - apply respects_bind;
      [apply lasting_trans | intros st; apply (evolves_lasting 0), evolving_conn_at |].
    intros c. destruct (queue c !! i); [|apply respects_ret, lasting_refl].
    apply respects_bind; [apply lasting_trans | apply lasting_dispatchMessage |].
    intros _. apply IH.
Qed.

Lemma lasting__resumeWebsocket fuel ws : respects lasting (_resumeWebsocket fuel ws).
Proof.
  apply respects_bind; [apply lasting_trans | apply lasting_replay |].
  intros [|].
  - apply respects_bind; [apply lasting_trans | |intros _];
      apply respects_modify; intros st; apply lasting_updConn.
  - apply respects_modify. intros st. by apply lasting_same.
Qed.

Lemma lasting_afterSnapshots fuel ws pid dc ls st c dc0 :
  conns st !! ws = Some c →
  dataPromiseHeap st !! dataClientPromise c = Some (dataResolved dc0 ls) →
  lasting st (snd (afterSnapshots fuel ws pid dc ls st)).
Proof.
  intros Hc Hp. unfold afterSnapshots. unfold bind at 1.
  unfold set_dataClient, bind at 1. rewrite (conn_at_Some _ _ _ Hc). unfold modify at 1.
  set (st1 := set_dataPromiseHeap _ st).
  assert (L1 : lasting st st1).
  { intros S p dc1 ls1 l Hp1 Hl. simpl in *.
    destruct (decide (p = dataClientPromise c)) as [->|Hne].
    - rewrite list_lookup_insert_eq in Hp1 by (by apply lookup_lt_Some in Hp).
      injection Hp1 as <- <-.
      apply elem_of_app in Hl as [Hl|Hl%list_elem_of_singleton].
      + by apply (S _ _ _ _ Hp).
      + subst l. by rewrite Hc.
    - rewrite list_lookup_insert_ne in Hp1 by done. by apply (S _ _ _ _ Hp1). }
  eapply lasting_trans; [exact L1|].
  apply respects_bind;
    [apply lasting_trans | intros s; apply (evolves_lasting ws), evolving__sendJoinMessage |].
  intros _. apply respects_bind; [apply lasting_trans | |].
  { apply respects_modify. intros s. apply lasting_updConn. }
  intros _. apply respects_bind; [apply lasting_trans | |].
  { apply respects_modify. intros s. apply lasting_updConn. }
  intros _. apply lasting__resumeWebsocket.
Qed.

Lemma lasting_resume ws fuel st : lasting st (step (resume ws fuel) st).
Proof.
  destruct (spinning st) eqn:Hsp; [unfold step; rewrite Hsp; apply lasting_refl|].
  destruct (conns st !! ws) as [c|] eqn:Hc;
    [|unfold step; rewrite Hsp, Hc; apply lasting_refl].
  destruct (isSuspended c && resolved c st) eqn:Hen;
    [|unfold step; rewrite Hsp, Hc, Hen; apply lasting_refl].
  apply andb_prop in Hen as [Hsu Hre].
  assert (Hst : stage c = suspended) by (unfold isSuspended in Hsu; by destruct (stage c)).
  unfold resolved in Hre.
  destruct (dataPromiseHeap st !! dataClientPromise c) as [[|dc ls]|] eqn:Hd; try done.
  destruct (crdtPromiseHeap st !! crdtClientPromise c) as [[|cc]|] eqn:Hr; try done.
  destruct (lockPromiseHeap st !! lockClientPromise c) as [lc|] eqn:Hl; try done.
  rewrite (step_resume ws fuel st c dc ls cc lc Hsp Hc Hst Hd Hr Hl). simpl.
  set (st0 := updConn ws (set_stage resumed) st).
  assert (L0 : lasting st st0) by apply lasting_updConn.
  destruct (sendFails c).
  - eapply lasting_trans; [exact L0|].
    eapply lasting_trans; [|apply lasting_updConn]. by apply lasting_same.
  - set (st2 := set_trace _ _).
    assert (L2 : lasting st st2).
    { eapply lasting_trans; [exact L0|]. by apply lasting_same. }
    assert (L3 : lasting st2 (snd (afterSnapshots fuel ws (playerId c) dc ls st2))).
    { eapply (lasting_afterSnapshots _ _ _ _ _ _ (set_stage resumed c)); [|exact Hd].
      simpl. by rewrite list_lookup_alter_eq, Hc. }
    destruct (afterSnapshots fuel ws (playerId c) dc ls st2) as [[[]|err] st3]; simpl in *.
    + by eapply lasting_trans.
    + eapply lasting_trans; [exact L2|]. eapply lasting_trans; [exact L3|].
      apply lasting_updConn.
Qed.

Lemma lasting_close ws st : lasting st (snd (closeOrError_handler ws st)).
Proof.
  rewrite closeOrError_handler_unfold.
  set (st1 := set_sessions _ st). set (st2 := updConn ws (set_quit true) st1).
  apply (lasting_trans _ st1); [by apply lasting_same|].
  apply (lasting_trans _ st2); [apply lasting_updConn|].
  eapply lasting_trans; [|apply lasting_updConn].
  apply (evolves_lasting ws). apply evolving_tryCatch.
  - apply evolving_bind; [apply evolving__triggerDeadHands|].
    intros _. apply evolving__triggerUnlocks.
  - intros err. apply evolving_bind; [apply evolving_console_log|].
    intros _. apply evolving_throw.
Qed.

Lemma lasting_begin roomName pid st : lasting st (handleSession_begin roomName pid st).
Proof.
  assert (Hheap : dataPromiseHeap (handleSession_begin roomName pid st) = dataPromiseHeap st ∨
                  ∃ n r, dataPromiseHeap (handleSession_begin roomName pid st) =
                         dataPromiseHeap st ++ [dataPending n r]).
  { unfold handleSession_begin, continueReading, storage_get, schemaArrayNames.
    destruct (dataClientPromises st !! roomName); simpl;
      destruct (crdtClientPromises st !! roomName); simpl;
      destruct (lockClientPromises st !! roomName); simpl; eauto. }
  destruct (handleSession_begin_spec roomName pid st) as (dp & cp & lp & Hcs & _).
  apply lasting_from.
  - intros l Hl. rewrite Hcs. destruct Hl as [c Hc]. exists c. by apply lookup_app_l_Some.
  - intros p dc ls Hp. left. exists dc.
    destruct Hheap as [E|(n & r & E)]; rewrite E in Hp; [done|].
    apply lookup_app_Some in Hp as [Hp|[_ Hp]]; [done|].
    by destruct (p - length (dataPromiseHeap st))%nat as [|[|?]].
Qed.

Lemma lasting_replyData p st : lasting st (step (storageReplyData p) st).
Proof.
  unfold step. destruct (spinning st); [apply lasting_refl|].
  destruct (dataPromiseHeap st !! p) as [[roomName r|]|] eqn:Hp; try apply lasting_refl.
  assert (Hshape : ∃ promise st',
    storageReplied roomName r st = (promise, st') ∧ conns st' = conns st ∧
    dataPromiseHeap st' = dataPromiseHeap st ∧
    ((∃ n r', promise = dataPending n r') ∨ ∃ dc, promise = dataResolved dc [])).
  { unfold storageReplied, continueReading, storage_get.
    repeat case_match; simplify_eq; simpl; do 2 eexists; eauto 10. }
  destruct Hshape as (promise & st' & -> & Hcs & Hh & Hpr).
  apply lasting_from; simpl.
  - intros l. by rewrite Hcs.
  - intros q dc ls Hq. rewrite Hh in Hq.
    destruct (decide (q = p)) as [->|Hne].
    + rewrite list_lookup_insert_eq in Hq by (by apply lookup_lt_Some in Hp).
      injection Hq as ->. destruct Hpr as [(n & r' & [=])|(dc1 & [= _ ->])].
      right. intros l Hl. by apply elem_of_nil in Hl.
    + rewrite list_lookup_insert_ne in Hq by done. left. by exists dc.
Qed.

Lemma lasting_step e st : lasting st (step e st).
Proof.
  destruct e as [r|p|p|ws fuel|ws d|ws|ws].
  - unfold step. destruct (spinning st); [apply lasting_refl|]. unfold fetch.
    destruct (matchPath (pathname r)) as [roomName methodName].
    destruct (String.eqb methodName "websocket"); [|apply lasting_refl].
    case_bool_decide; [apply lasting_refl|]. apply lasting_begin.
  - apply lasting_replyData.
  - unfold step. destruct (spinning st); [apply lasting_refl|].
    destruct (crdtPromiseHeap st !! p) as [[v|]|]; try apply lasting_refl.
    by apply lasting_same.
  - apply lasting_resume.
  - unfold step. destruct (spinning st); [apply lasting_refl|].
    apply lasting_dispatchMessage.
  - unfold step. destruct (spinning st); [apply lasting_refl|].
    destruct (conns st !! ws) as [c|]; [|apply lasting_refl].
    destruct (closeOrErrorHandler c); [apply lasting_close | apply lasting_refl].
  - unfold step. destruct (spinning st); [apply lasting_refl|]. apply lasting_updConn.
Qed.

Lemma subscribed_run sto es : subscribed (run es (init sto)).
Proof.
  unfold run. induction es as [|e es IH] using rev_ind.
  - intros p dc ls l Hp. simpl in Hp. by rewrite lookup_nil in Hp.
  - rewrite foldl_snoc. by apply lasting_step.
Qed.

End Subscribers.

(** * The claims *)

Section Claims.
Context `{Collaborators}.
Implicit Types (st : state) (ws self : nat).

Lemma run_snoc es e st : run (es ++ [e]) st = step e (run es st).
Proof. unfold run. by rewrite foldl_app. Qed.

Lemma reachable_attached sto es : attached (run es (init sto)).
Proof. apply attached_run, attached_init. Qed.

(** C1.  In every run of the room object and for every session [ws]:
    what the session is sent and what its listener dispatches starts
    with the three snapshots (import, initial update, network init), so
    no live update and no dispatch comes before them; while
    [handleSession] is suspended at its [await]s a frame that arrives is
    put on the queue and nothing else happens; and when [handleSession]
    gets through, the frames of the queue have been dispatched, in their
    order of arrival, by the steady-state listener (as soon as the loop
    is given as many turns as there are frames). *)
Theorem snapshot_before_live (sto : gmap string jsval) (es : list event)
    (ws : nat) (c : conn) :
  let st := run es (init sto) in
  conns st !! ws = Some c →
  (view ws (trace st) = [] ∨ startsWithSnapshots ws (view ws (trace st))) ∧
  (stage c = suspended → spinning st = false →
   ∀ d, step (message ws d) st = updConn ws (λ c, set_queue (queue c ++ [d]) c) st) ∧
  (stage c = suspended →
   ∀ fuel c',
     conns (step (resume ws fuel) st) !! ws = Some c' →
     stage c' = resumed → (length (queue c) ≤ fuel)%nat →
     queue c `prefix_of` dispatchedOf ws (trace (step (resume ws fuel) st))).
Proof.
  intros st Hc. assert (I : attached st) by apply reachable_attached.
  split; [apply (inv_first _ I)|]. split.
  - intros Hst Hsp d. destruct (inv_suspended _ I ws c Hc Hst) as (_ & Hl & _).
    unfold step. rewrite Hsp. by rewrite (dispatchMessage_paused _ _ _ _ Hc Hl).
  - intros Hst fuel c' Hc' Hst' Hfuel.
    destruct (inv_suspended _ I ws c Hc Hst) as (Hn & Hls & Hcl & Hq & Hv).
    revert Hc'. unfold step.
    destruct (spinning st); [intros; simplify_eq; congruence|].
    rewrite Hc.
    destruct (isSuspended c && resolved c st) eqn:Hen; [|intros; simplify_eq; congruence].
    apply andb_prop in Hen as [_ Hre]. unfold resolved in Hre.
    destruct (dataPromiseHeap st !! dataClientPromise c) as [[|dc ls]|] eqn:Hd; try done.
    destruct (crdtPromiseHeap st !! crdtClientPromise c) as [[|cc]|] eqn:Hr; try done.
    destruct (lockPromiseHeap st !! lockClientPromise c) as [lc|] eqn:Hl; try done.
    set (st0 := updConn ws (set_stage resumed) st).
    assert (Hc0 : conns st0 !! ws = Some (set_stage resumed c)).
    { simpl. by rewrite list_lookup_alter_eq, Hc. }
    rewrite (handleSession_resume_unfold fuel ws st0 _ dc ls cc lc Hc0 Hd Hr Hl).
    assert (Hfailed : ∀ err s c', conns (updConn ws (set_stage (failed err)) s) !! ws = Some c' →
              stage c' ≠ resumed).
    { intros err s c1. simpl. rewrite list_lookup_alter_eq.
      destruct (conns s !! ws); simpl; [|done]. by intros [= <-]. }
    change (sendFails (set_stage resumed c)) with (sendFails c).
    destruct (sendFails c); [intros Hc'; by apply Hfailed in Hc'|].
    match goal with |- context [afterSnapshots ?f ?w ?p ?d ?l ?s] =>
      destruct (afterSnapshots f w p d l s) as [[[]|err] st1] eqn:Hrun end;
      [|intros Hc'; by apply Hfailed in Hc'].
    intros _.
    assert (Hrep : dispatchedOf ws (trace st1) = replayed fuel (queue c) 0).
    { eapply (afterSnapshots_replays _ _ _ _ _ _ (set_stage resumed c)); [| | |exact Hrun].
      - simpl. by rewrite list_lookup_alter_eq, Hc.
      - done.
      - simpl. rewrite dispatchedOf_app. by rewrite (view_nil_dispatchedOf _ _ Hv). }
    rewrite Hrep. by apply replayed_all.
Qed.

Lemma accepting_onlyHands st st' targets :
  onlyHands st st' → accepting (conns st) targets → accepting (conns st') targets.
Proof.
  intros Ho Ha t Ht. destruct (Ha t Ht) as (c & Hc & Hf).
  destruct (onlyHands_lookup _ _ _ _ Ho Hc) as (c' & Hc' & E).
  exists c'. split; [done|]. by rewrite E.
Qed.

(** What [handleData] sends and throws: the rollback to the sender; the
    bytes to the peers when there is an update and no listener throws
    as it is emitted, up to the first peer that refuses. *)
Lemma handleData_spec ws b st c dc ls dc' rollback update :
  conns st !! ws = Some c → sendFails c = false →
  dataPromiseHeap st !! dataClientPromise c = Some (dataResolved dc ls) →
  applyUint8Array dc b = (dc', (rollback, update)) →
  let peers := filter (λ s, s ≠ ws) (sessions st) in
  let thrown :=
    match update with
    | Some u =>
        match handError (conns st) ls (emitUpdate dc' u).2 with
        | Some err => Some err
        | None => firstError (conns st) peers
        end
    | None => None
    end in
  let proxied :=
    match update with
    | Some u =>
        match handError (conns st) ls (emitUpdate dc' u).2 with
        | Some _ => []
        | None => reached (conns st) peers
        end
    | None => []
    end in
  ∃ st',
    handleData ws b st = (outcomeOf thrown, st') ∧
    trace st' =
      trace st
      ++ match rollback with
         | Some r => [Sent ws (Binary (serializeMessage r))]
         | None => []
         end
      ++ sends (Binary b) proxied ∧
    dataPromiseHeap st' !! dataClientPromise c =
      Some (dataResolved match update with
                         | Some u => (emitUpdate dc' u).1
                         | None => dc'
                         end ls) ∧
    sessions st' = sessions st ∧
    Forall2 (λ c c', c' = set_deadHands (deadHands c') c) (conns st) (conns st').
Proof.
  intros Hc Hf Hp Happly peers thrown proxied.
  assert (Hlt : (dataClientPromise c < length (dataPromiseHeap st))%nat)
    by by apply lookup_lt_Some in Hp.
  unfold handleData. unfold bind at 1.
  rewrite (dataClient_applyUint8Array_spec _ _ _ _ _ _ Hc Hp), Happly. simpl.
  set (sA := set_dataPromiseHeap _ st).
  assert (HpA : dataPromiseHeap sA !! dataClientPromise c = Some (dataResolved dc' ls))
    by (simpl; by rewrite list_lookup_insert_eq).
  assert (∃ sB, whenSome rollback (λ r, respondToSelf ws (Binary (serializeMessage r))) sA
                = (Return tt, sB) ∧
                sB = set_trace (trace st ++ match rollback with
                         | Some r => [Sent ws (Binary (serializeMessage r))]
                         | None => [] end) sA) as (sB & HB & HsB).
  { destruct rollback as [r|]; simpl.
    - unfold respondToSelf. erewrite send_ok; [|exact Hc|exact Hf]. eauto.
    - unfold ret. eexists. split; [done|]. rewrite app_nil_r. by destruct st. }
  unfold bind at 1. rewrite HB.
  destruct update as [u|]; simpl.
  - destruct (dataClient_emitUpdate_spec ws u sB c dc' ls) as (sC & HC & Ho).
    { by rewrite HsB. } { by rewrite HsB. }
    unfold bind at 1. rewrite HC.
    assert (Hcs : conns sB = conns st) by (by rewrite HsB).
    rewrite Hcs. subst thrown proxied. simpl.
    assert (Hsess : sessions sC = sessions st).
    { destruct Ho as [-> _]. by rewrite HsB. }
    assert (HF : Forall2 (λ c c', c' = set_deadHands (deadHands c') c) (conns st) (conns sC)).
    { destruct Ho as [_ F]. simpl in F. by rewrite Hcs in F. }
    destruct (handError (conns st) ls (emitUpdate dc' u).2) as [err|]; simpl.
    + exists sC. split; [done|]. destruct Ho as [Ho _].
      rewrite Ho at 1. rewrite Ho at 2. simpl. rewrite HsB. simpl.
      rewrite app_nil_r. split; [done|]. split; [|done].
      by rewrite list_lookup_insert_eq by (by rewrite length_insert).
    + rewrite proxyMessageToPeers_spec. rewrite Hsess.
      destruct (reached_onlyHands _ _ peers Ho) as [Hr He]. simpl in Hr, He.
      rewrite Hcs in Hr, He. fold peers. rewrite Hr, He.
      eexists. split; [done|]. simpl.
      destruct Ho as [Ho _]. rewrite Ho at 1. rewrite Ho at 2. simpl. rewrite HsB. simpl.
      rewrite <- app_assoc. split; [done|]. split; [|done].
      by rewrite list_lookup_insert_eq by (by rewrite length_insert).
  - unfold ret. eexists. split; [done|]. rewrite HsB. simpl.
    rewrite app_nil_r. split; [done|]. split; [done|]. split; [done|].
    apply Forall_Forall2_diag, Forall_forall. intros x _. by destruct x.
Qed.

(** C9.  A request to the websocket endpoint of the room object whose
    [Upgrade] header is not [websocket] (or is missing) is answered with
    status 400 and the body [expected websocket]; the state of the
    object, its session list included, is as it was. *)
Theorem expected_websocket (req : Request) (roomName : string) st :
  matchPath (pathname req) = (roomName, "websocket") →
  upgrade req ≠ Some "websocket" →
  fetch req st = (Some (mkResponse 400 "expected websocket"), st) ∧
  step (request req) st = st.
Proof.
  intros Hpath Hup.
  assert (Hf : fetch req st = (Some (mkResponse 400 "expected websocket"), st)).
  { unfold fetch. rewrite Hpath. simpl. by rewrite bool_decide_eq_true_2. }
  split; [done|]. unfold step. rewrite Hf. by destruct (spinning st).
Qed.

Lemma replay_empty fuel ws st c :
  conns st !! ws = Some c → queue c = [] → replay fuel ws 0 st = (Return true, st).
Proof.
  intros Hc Hq. destruct fuel; simpl; unfold bind;
    rewrite (conn_at_Some _ _ _ Hc), Hq; done.
Qed.

(** The attach sequence after the snapshots, for a session without a
    [playerId] and without a frame waiting. *)
Lemma afterSnapshots_anonymous fuel ws pid dc ls st c :
  conns st !! ws = Some c → queue c = [] → pid = None ∨ pid = Some "" →
  afterSnapshots fuel ws pid dc ls st =
    (Return tt,
     updConn ws (λ c, set_listeners (filter (λ l, l ≠ onmessage) (listeners c)) c)
       (updConn ws (set_queue [])
          (updConn ws (set_closeOrErrorHandler true)
             (updConn ws (λ c, set_listeners (listeners c ++ [onsession]) c)
                (set_dataPromiseHeap
                   (<[dataClientPromise c := dataResolved dc (ls ++ [ws])]>
                      (dataPromiseHeap st)) st))))).
Proof.
  intros Hc Hq Hpid. unfold afterSnapshots.
  unfold bind at 1. unfold set_dataClient, bind at 1. rewrite (conn_at_Some _ _ _ Hc).
  unfold modify at 1. unfold bind at 1.
  replace (_sendJoinMessage ws pid) with (ret (A := unit) tt)
    by (by destruct Hpid as [-> | ->]).
  unfold ret at 1. unfold bind at 1. unfold modify at 1.
  unfold bind at 1. unfold modify at 1.
  unfold _resumeWebsocket. unfold bind at 1.
  erewrite replay_empty;
    [| simpl; by rewrite !list_lookup_alter_eq, Hc | done].
  reflexivity.
Qed.

(** C10.  A session whose [playerId] parameter is the empty string: the
    join emission tests the [playerId] for truthiness, so it does what it
    does for an absent one, nothing: no update is emitted into the data
    client and no frame is sent.  In a run, when such a session gets
    through its attach sequence (its transport taking the snapshots, no
    frame waiting), the trace grows by the entry into the list and the
    three snapshots to the session itself and by nothing else, and the
    data client is as it was, with one more subscriber. *)
Theorem empty_playerId_no_join (sto : gmap string jsval) (es : list event)
    (ws fuel : nat) (c : conn) (dc : DataClient) (ls : list nat) (cc : CrdtClient)
    (lc : LockClient) :
  let st := run es (init sto) in
  spinning st = false →
  conns st !! ws = Some c → stage c = suspended → playerId c = Some "" →
  dataPromiseHeap st !! dataClientPromise c = Some (dataResolved dc ls) →
  crdtPromiseHeap st !! crdtClientPromise c = Some (crdtResolved cc) →
  lockPromiseHeap st !! lockClientPromise c = Some lc →
  sendFails c = false → queue c = [] →
  (∀ s, _sendJoinMessage ws (Some "") s = (Return tt, s) ∧
        _sendJoinMessage ws None s = (Return tt, s)) ∧
  trace (step (resume ws fuel) st) =
    trace st ++ Pushed ws ::
      snapshots ws dc cc (pushed ws (updConn ws (set_stage resumed) st)) ∧
  dataPromiseHeap (step (resume ws fuel) st) !! dataClientPromise c =
    Some (dataResolved dc (ls ++ [ws])).
Proof.
  intros st Hsp Hc Hst Hpid Hd Hr Hl Hf Hq. split; [intros s; split; reflexivity|].
  rewrite (step_resume ws fuel st c dc ls cc lc Hsp Hc Hst Hd Hr Hl).
  rewrite Hf, Hpid.
  erewrite (afterSnapshots_anonymous _ _ _ _ _ _ (set_stage resumed c));
    [| simpl; by rewrite list_lookup_alter_eq, Hc | done | by right].
  simpl. split; [done|].
  apply list_lookup_insert_eq. by apply lookup_lt_Some in Hd.
Qed.

(** The order the spec gives the attach sequence: the three snapshots
    go out before the session enters the list, so that the network-init
    frame does not list the session's own [playerId]. *)
Definition snapshotsBeforePush (ws : nat) (st st' : state) : Prop :=
  ∃ a b ids rest,
    trace st' =
      trace st ++ [Sent ws a; Sent ws b;
                   Sent ws (Binary (serializeMessage (networkInit ids)));
                   Pushed ws] ++ rest ∧
    ∀ c p, conns st !! ws = Some c → playerId c = Some p → p ∉ ids.

(** C2, amended.  When the attach sequence of [ws] is resumed with all
    three clients at hand and a transport that takes the sends, the
    session is appended to the session list first, and then the three
    snapshots are sent to it in this order: data-client import, initial
    update of the document, network init.  The network-init frame lists
    the [playerId]s (null left out) of the sessions of the list with the
    new session in it: the session's own [playerId], when it has one, is
    listed. *)
Theorem pushed_before_snapshots (ws fuel : nat) st (c : conn) (dc : DataClient)
    (ls : list nat) (cc : CrdtClient) (lc : LockClient) :
  spinning st = false →
  conns st !! ws = Some c → stage c = suspended →
  dataPromiseHeap st !! dataClientPromise c = Some (dataResolved dc ls) →
  crdtPromiseHeap st !! crdtClientPromise c = Some (crdtResolved cc) →
  lockPromiseHeap st !! lockClientPromise c = Some lc →
  sendFails c = false →
  let ids := omap (λ s, conns st !! s ≫= playerId) (sessions st ++ [ws]) in
  (∃ rest,
     trace (step (resume ws fuel) st) =
       trace st ++ [Pushed ws;
                    Sent ws (Binary (serializeMessage (getImportMessage dc)));
                    Sent ws (Binary (serializeMessage (getInitialUpdateMessage cc)));
                    Sent ws (Binary (serializeMessage (networkInit ids)))] ++ rest) ∧
  (∀ p, playerId c = Some p → p ∈ ids).
Proof.
  intros Hsp Hc Hst Hd Hr Hl Hf ids. split.
  - rewrite (step_resume ws fuel st c dc ls cc lc Hsp Hc Hst Hd Hr Hl). rewrite Hf.
    cbv zeta. set (st0 := updConn ws (set_stage resumed) st). set (st2 := set_trace _ _).
    assert (Hids : networkInitMessage (pushed ws st0) = networkInit ids).
    { unfold networkInitMessage, networkInit, ids. simpl.
      assert (E : omap (λ s, alter (set_stage resumed) ws (conns st) !! s ≫= playerId)
                    (sessions st ++ [ws]) =
                  omap (λ s, conns st !! s ≫= playerId) (sessions st ++ [ws]));
        [|by rewrite E].
      apply list_omap_ext, Forall2_same_length_lookup_2; [done|].
      intros i x y Hx Hy. assert (x = y) as <- by congruence.
      destruct (decide (ws = x)) as [<-|Hne].
      - by rewrite list_lookup_alter_eq, Hc.
      - by rewrite list_lookup_alter_ne. }
    assert (Q : quiet st2 (snd (afterSnapshots fuel ws (playerId c) dc ls st2))).
    { eapply (quiet_afterSnapshots _ _ _ _ _ _ (set_stage resumed c)); [|exact Hd].
      simpl. by rewrite list_lookup_alter_eq, Hc. }
    destruct (q_trace _ _ Q) as (acts & Hacts).
    exists acts.
    replace (trace _) with (trace (snd (afterSnapshots fuel ws (playerId c) dc ls st2)))
      by (by destruct (afterSnapshots fuel ws (playerId c) dc ls st2) as [[[]|err] st3]).
    rewrite Hacts. unfold st2, snapshots. simpl. rewrite Hids.
    by rewrite <- app_assoc.
  - intros p Hp. apply list_elem_of_omap. exists ws. split.
    + apply elem_of_app. right. by left.
    + by rewrite Hc.
Qed.

(** No key a stored array lists is the name of an array of the schema or
    ['crdt']. *)
Definition noCollision (sto : gmap string jsval) : Prop :=
  ∀ a i, a ∈ schemaArrayNames → i ∈ forIn (nullish (sto !! a) (JObj [])) →
    i ≠ "crdt" ∧ i ∉ schemaArrayNames.

Lemma filter_absent (k : string) (l : list string) :
  k ∉ l → filter (λ x, x = k) l = [].
Proof.
  intros Hk. induction l as [|x l IH]; [done|].
  rewrite filter_cons. destruct (decide (x = k)) as [->|_].
  - exfalso. apply Hk. by left.
  - apply IH. intros ?. apply Hk. by right.
Qed.

Lemma reads_prefix r k sto st :
  initialised sto st →
  (reads r k (storageLog st) ≤ length (filter (λ x, x = k) (initReads sto)))%nat.
Proof.
  intros I. unfold reads.
  destruct (dataClientPromises st !! r) as [p|] eqn:Hp.
  - destruct (i_some _ _ I r p Hp) as (dp & _ & _ & <-).
    rewrite filter_app, length_app. lia.
  - rewrite (i_none _ _ I r Hp). simpl. lia.
Qed.

(** C3, amended.  Over a storage in which no key listed by a stored
    schema array is itself the name of a schema array or ['crdt']: in
    every run, on behalf of a room the storage is asked at most once for
    each schema array key and at most once for ['crdt'], however many
    sessions attach before or after the initialization is through; and
    two sessions of one room hold the same three promises, hence the
    same three client instances. *)
Theorem single_flight (sto : gmap string jsval) (es : list event) :
  noCollision sto →
  let st := run es (init sto) in
  (∀ r k, k ∈ schemaArrayNames ∨ k = "crdt" →
     (reads r k (storageLog st) ≤ 1)%nat) ∧
  (∀ i j ci cj, conns st !! i = Some ci → conns st !! j = Some cj →
     room ci = room cj →
     dataClientPromise ci = dataClientPromise cj ∧
     crdtClientPromise ci = crdtClientPromise cj ∧
     lockClientPromise ci = lockClientPromise cj).
Proof.
  intros Hno st.
  assert (I : initialised sto st) by apply initialised_run, initialised_init.
  split.
  - intros r k Hk. etrans; [by apply reads_prefix|].
    unfold initReads, schemaArrayNames. simpl. rewrite app_nil_r.
    assert (Hkeys : k ∉ forIn (nullish (sto !! "worldApps") (JObj []))).
    { intros Hin. destruct (Hno "worldApps" k) as [H1 H2]; [by left | done|].
      destruct Hk as [Hk| ->]; done. }
    rewrite !filter_cons, (filter_absent _ _ Hkeys).
    destruct Hk as [->%list_elem_of_singleton| ->]; simpl; done.
  - intros i j ci cj Hi Hj Hroom.
    destruct (i_conns _ _ I i ci Hi) as (H1 & H2 & H3).
    destruct (i_conns _ _ I j cj Hj) as (H1' & H2' & H3').
    rewrite Hroom in H1, H2, H3. repeat split; congruence.
Qed.

(** The claim as the spec words it: a refused send does not end the
    loop, so every session of the list whose transport takes the send is
    sent the message, whatever the transports before it do. *)
Definition loopContinues (ws : nat) (m : wsdata) (st : state) : Prop :=
  ∀ t c, t ∈ sessions st → conns st !! t = Some c → sendFails c = false →
    Sent t m ∈ drop (length (trace st)) (trace (reflectMessageToPeers ws m st).2).

(** C4, amended.  A broadcast sends, in the order of the session list,
    to the targeted sessions that come before the first one whose
    transport refuses the send; that failure ends the loop, the sessions
    after it are not sent to, and the error is thrown to the caller, the
    primitive logging nothing ([respondToSelf] targets the originator,
    [proxyMessageToPeers] the sessions other than it,
    [reflectMessageToPeers] all).  No primitive looks at the [quit] flag;
    in every run no session of the list has it set, the close handler
    taking the session off the list as it sets the flag. *)
Theorem broadcast_stops_at_failure (sto : gmap string jsval) (es : list event)
    (ws : nat) (m : wsdata) :
  let st := run es (init sto) in
  let peers := filter (λ s, s ≠ ws) (sessions st) in
  respondToSelf ws m st =
    (outcomeOf (firstError (conns st) [ws]),
     set_trace (trace st ++ sends m (reached (conns st) [ws])) st) ∧
  proxyMessageToPeers ws m st =
    (outcomeOf (firstError (conns st) peers),
     set_trace (trace st ++ sends m (reached (conns st) peers)) st) ∧
  reflectMessageToPeers ws m st =
    (outcomeOf (firstError (conns st) (sessions st)),
     set_trace (trace st ++ sends m (reached (conns st) (sessions st))) st) ∧
  (∀ t c, t ∈ sessions st → conns st !! t = Some c → quit c = false).
Proof.
  intros st peers. split; [apply respondToSelf_spec|].
  split; [apply proxyMessageToPeers_spec|].
  split; [apply reflectMessageToPeers_spec|].
  intros t c Ht Hc. destruct (quit c) eqn:Hq; [|done].
  by destruct (inv_quit _ (reachable_attached sto es) t c Hc Hq).
Qed.

(** The steady-state listener on a frame of a session that has not quit. *)
Lemma sessionListener_binary ws b st c :
  conns st !! ws = Some c → quit c = false →
  snd (sessionListener ws (Binary b) st) =
    match handleBinaryMessage ws b (set_trace (trace st ++ [Dispatched ws (Binary b)]) st) with
    | (Return _, st') => st'
    | (Throw err, st') =>
        snd (send ws (Text (errorFrame err)) (set_console (console st' ++ [err]) st'))
    end.
Proof.
  intros Hc Hq. rewrite sessionListener_unfold. simpl.
  unfold sessionListener_body, tryCatch. unfold bind at 1.
  erewrite conn_at_Some by (simpl; exact Hc). rewrite Hq.
  by destruct (handleBinaryMessage ws b _) as [[[]|err] st'].
Qed.

Lemma sessionListener_text ws s st c :
  conns st !! ws = Some c → quit c = false → sendFails c = false →
  snd (sessionListener ws (Text s) st) =
    set_trace (trace st ++ [Dispatched ws (Text s);
                            Sent ws (Text (errorFrame "got non-binary message"))])
      (set_console (console st ++ ["got non-binary message"]) st).
Proof.
  intros Hc Hq Hf. rewrite sessionListener_unfold. simpl.
  unfold sessionListener_body, tryCatch. unfold bind at 1.
  erewrite conn_at_Some by (simpl; exact Hc). rewrite Hq.
  unfold throw, bind, console_log, modify.
  erewrite send_ok; [|simpl; exact Hc|done]. simpl. by rewrite <- app_assoc.
Qed.

Lemma handleBinaryMessage_unfold ws b method args :
  parseUpdateObject b = (method, args) →
  handleBinaryMessage ws b =
    bind (if dataHandlesMethod method then handleData ws b else ret tt) (λ _,
    bind (if crdtHandlesMethod method then
            bind (crdtClient_update ws (default JUndefined (head args))) (λ _,
              proxyMessageToPeers ws (Binary b))
          else ret tt) (λ _,
    bind (if lockHandlesMethod method then
            bind (conn_at ws) (λ c,
              bind (lockMessage method (playerId c) args) (λ m,
                lockClient_handle ws m))
          else ret tt) (λ _,
    bind (if ircHandlesMethod method then reflectMessageToPeers ws (Binary b) else ret tt)
      (λ _,
    if networkedAudioClientHandlesMethod method || networkedVideoClientHandlesMethod method
    then proxyMessageToPeers ws (Binary b) else ret tt)))).
Proof. intros Hp. unfold handleBinaryMessage. by rewrite Hp. Qed.

(** A frame of the data class, from a session that is attached and
    whose transport takes sends. *)
Lemma data_frame_step ws b st c method args dc ls dc' rollback update :
  spinning st = false →
  conns st !! ws = Some c → listeners c = [onsession] → quit c = false →
  sendFails c = false →
  parseUpdateObject b = (method, args) → dataHandlesMethod method = true →
  dataPromiseHeap st !! dataClientPromise c = Some (dataResolved dc ls) →
  applyUint8Array dc b = (dc', (rollback, update)) →
  let peers := filter (λ s, s ≠ ws) (sessions st) in
  let thrown :=
    match update with
    | Some u =>
        match handError (conns st) ls (emitUpdate dc' u).2 with
        | Some err => Some err
        | None => firstError (conns st) peers
        end
    | None => None
    end in
  let proxied :=
    match update with
    | Some u =>
        match handError (conns st) ls (emitUpdate dc' u).2 with
        | Some _ => []
        | None => reached (conns st) peers
        end
    | None => []
    end in
  (thrown = None →
   crdtHandlesMethod method = false ∧ lockHandlesMethod method = false ∧
   ircHandlesMethod method = false ∧
   networkedAudioClientHandlesMethod method || networkedVideoClientHandlesMethod method
     = false) →
  let st' := step (message ws (Binary b)) st in
  trace st' =
    trace st ++ Dispatched ws (Binary b) ::
      match rollback with
      | Some r => [Sent ws (Binary (serializeMessage r))]
      | None => []
      end
      ++ sends (Binary b) proxied
      ++ match thrown with
         | Some err => [Sent ws (Text (errorFrame err))]
         | None => []
         end ∧
  dataPromiseHeap st' !! dataClientPromise c =
    Some (dataResolved match update with
                       | Some u => (emitUpdate dc' u).1
                       | None => dc'
                       end ls) ∧
  sessions st' = sessions st ∧
  Forall2 (λ c c', c' = set_deadHands (deadHands c') c) (conns st) (conns st').
Proof.
  intros Hsp Hc Hl Hq Hf Hparse Hdata Hp Happly peers thrown proxied Hone st'.
  assert (Hst' : st' = snd (sessionListener ws (Binary b) st)).
  { unfold st', step. rewrite Hsp. by rewrite (dispatchMessage_steady _ _ _ _ Hc Hl). }
  set (st1 := set_trace (trace st ++ [Dispatched ws (Binary b)]) st).
  destruct (handleData_spec ws b st1 c dc ls dc' rollback update Hc Hf Hp Happly)
    as (st2 & Hrun & Htr & Hheap & Hss & HF).
  change (conns st1) with (conns st) in *. change (sessions st1) with (sessions st) in *.
  fold peers in Hrun, Htr. fold thrown in Hrun. fold proxied in Htr.
  assert (Hall : handleBinaryMessage ws b st1 = (outcomeOf thrown, st2)).
  { rewrite (handleBinaryMessage_unfold _ _ _ _ Hparse), Hdata.
    unfold bind at 1. rewrite Hrun. destruct thrown as [err|]; [done|]. simpl.
    destruct (Hone eq_refl) as (-> & -> & -> & ->). reflexivity. }
  rewrite Hst', (sessionListener_binary _ _ _ _ Hc Hq). fold st1. rewrite Hall.
  destruct thrown as [err|]; simpl.
  - destruct (Forall2_lookup_l _ _ _ _ _ HF Hc) as (c2 & Hc2 & E).
    erewrite send_ok; [|simpl; exact Hc2|by rewrite E].
    simpl. rewrite Htr. simpl. rewrite <- ?app_assoc. simpl. rewrite <- ?app_assoc.
    done.
  - rewrite Htr. simpl. rewrite <- ?app_assoc, ?app_nil_r. simpl. done.
Qed.

(** The claim as the spec words it for the update: the bytes of a data
    frame for which the data client yields an update reach every other
    session whose transport takes them. *)
Definition updateProxied (ws : nat) (b : list Byte.byte) (st : state) : Prop :=
  ∀ c dc ls dc' rollback u,
    conns st !! ws = Some c →
    dataPromiseHeap st !! dataClientPromise c = Some (dataResolved dc ls) →
    applyUint8Array dc b = (dc', (rollback, Some u)) →
    ∀ t ct, t ∈ sessions st → t ≠ ws → conns st !! t = Some ct → sendFails ct = false →
      Sent t (Binary b) ∈ drop (length (trace st))
                            (trace (step (message ws (Binary b)) st)).

(** C5, amended.  A binary frame whose method is in the data set only,
    from session [ws], attached, not quit and with a transport that
    takes sends, whose data client answers [{rollback, update}] to it:
    the rollback, if there is one, is serialized and sent to [ws] and to
    nobody else; the update, if there is one, is emitted into the data
    client and, unless a hand listener throws as it is emitted, the
    bytes of the frame, as they came, are sent to the sessions of the
    list other than [ws], in the order of the list, up to the first one
    whose transport refuses the send; what the listener or the refused
    send throws is sent to [ws] as an error message; nothing else is
    sent, and the list of sessions is as it was. *)
Theorem data_frame_routing (ws : nat) (b : list Byte.byte) st (c : conn)
    (method : Z) (args : list jsval) (dc : DataClient) (ls : list nat)
    (dc' : DataClient) (rollback update : option MessageEvent) :
  spinning st = false →
  conns st !! ws = Some c → listeners c = [onsession] → quit c = false →
  sendFails c = false →
  parseUpdateObject b = (method, args) → dataHandlesMethod method = true →
  crdtHandlesMethod method = false → lockHandlesMethod method = false →
  ircHandlesMethod method = false →
  networkedAudioClientHandlesMethod method || networkedVideoClientHandlesMethod method
    = false →
  dataPromiseHeap st !! dataClientPromise c = Some (dataResolved dc ls) →
  applyUint8Array dc b = (dc', (rollback, update)) →
  let peers := filter (λ s, s ≠ ws) (sessions st) in
  let thrown :=
    match update with
    | Some u =>
        match handError (conns st) ls (emitUpdate dc' u).2 with
        | Some err => Some err
        | None => firstError (conns st) peers
        end
    | None => None
    end in
  let proxied :=
    match update with
    | Some u =>
        match handError (conns st) ls (emitUpdate dc' u).2 with
        | Some _ => []
        | None => reached (conns st) peers
        end
    | None => []
    end in
  let st' := step (message ws (Binary b)) st in
  trace st' =
    trace st ++ Dispatched ws (Binary b) ::
      match rollback with
      | Some r => [Sent ws (Binary (serializeMessage r))]
      | None => []
      end
      ++ sends (Binary b) proxied
      ++ match thrown with
         | Some err => [Sent ws (Text (errorFrame err))]
         | None => []
         end ∧
  dataPromiseHeap st' !! dataClientPromise c =
    Some (dataResolved match update with
                       | Some u => (emitUpdate dc' u).1
                       | None => dc'
                       end ls) ∧
  sessions st' = sessions st.
Proof.
  intros Hsp Hc Hl Hq Hf Hparse Hdata Hcrdt Hlock Hirc Hav Hp Happly
    peers thrown proxied st'.
  destruct (data_frame_step ws b st c method args dc ls dc' rollback update
              Hsp Hc Hl Hq Hf Hparse Hdata Hp Happly) as (Htr & Hheap & Hss & _);
    [by intros _|].
  split; [exact Htr|]. split; [exact Hheap|exact Hss].
Qed.

(** The claim as the spec words it for the data class: the bytes of a
    data frame reach every session but the sender. *)
Definition proxiedToAllPeers (ws : nat) (b : list Byte.byte) (st : state) : Prop :=
  ∀ t, t ∈ sessions st → t ≠ ws →
    Sent t (Binary b) ∈ drop (length (trace st))
                          (trace (step (message ws (Binary b)) st)).

(** C6, amended.  A frame from session [ws], its method in one class
    only, no transport refusing a send: a chat frame is sent, bytes as
    they came, to every session of the list, [ws] included; an audio or
    video frame to every session of the list but [ws]; a data frame to
    every session of the list but [ws] when the data client yields an
    update for it and no hand listener throws as the update is emitted,
    and to no session otherwise (the rollback, if any, and the error of
    a listener going to [ws] alone).  Nothing else is sent. *)
Theorem reflect_or_proxy (ws : nat) (b : list Byte.byte) st (c : conn)
    (method : Z) (args : list jsval) :
  spinning st = false →
  conns st !! ws = Some c → listeners c = [onsession] → quit c = false →
  parseUpdateObject b = (method, args) →
  crdtHandlesMethod method = false → lockHandlesMethod method = false →
  accepting (conns st) (ws :: sessions st) →
  let st' := step (message ws (Binary b)) st in
  let peers := filter (λ s, s ≠ ws) (sessions st) in
  (ircHandlesMethod method = true → dataHandlesMethod method = false →
   networkedAudioClientHandlesMethod method || networkedVideoClientHandlesMethod method = false →
   trace st' = trace st ++ Dispatched ws (Binary b) :: sends (Binary b) (sessions st)) ∧
  (networkedAudioClientHandlesMethod method || networkedVideoClientHandlesMethod method = true →
   dataHandlesMethod method = false → ircHandlesMethod method = false →
   trace st' = trace st ++ Dispatched ws (Binary b) :: sends (Binary b) peers) ∧
  (dataHandlesMethod method = true → ircHandlesMethod method = false →
   networkedAudioClientHandlesMethod method || networkedVideoClientHandlesMethod method = false →
   ∀ dc ls dc' rollback update,
     dataPromiseHeap st !! dataClientPromise c = Some (dataResolved dc ls) →
     applyUint8Array dc b = (dc', (rollback, update)) →
     trace st' =
       trace st ++ Dispatched ws (Binary b) ::
         match rollback with
         | Some r => [Sent ws (Binary (serializeMessage r))]
         | None => []
         end
         ++ match update with
            | Some u =>
                match handError (conns st) ls (emitUpdate dc' u).2 with
                | None => sends (Binary b) peers
                | Some err => [Sent ws (Text (errorFrame err))]
                end
            | None => []
            end).
Proof.
  intros Hsp Hc Hl Hq Hparse Hcrdt Hlock Hacc st' peers.
  split; [|split].
  - intros Hirc Hdata Hav.
    assert (Hst' : st' = snd (sessionListener ws (Binary b) st)).
    { unfold st', step. rewrite Hsp. by rewrite (dispatchMessage_steady _ _ _ _ Hc Hl). }
    rewrite Hst', (sessionListener_binary _ _ _ _ Hc Hq).
    rewrite (handleBinaryMessage_unfold _ _ _ _ Hparse), Hcrdt, Hlock.
    rewrite Hirc, Hdata, Hav.
    unfold bind at 1 2 3, ret at 1 2 3. unfold bind.
    rewrite reflectMessageToPeers_ok by (intros t Ht; apply Hacc; by right).
    simpl. by rewrite <- app_assoc.
  - intros Hav Hdata Hirc.
    assert (Hst' : st' = snd (sessionListener ws (Binary b) st)).
    { unfold st', step. rewrite Hsp. by rewrite (dispatchMessage_steady _ _ _ _ Hc Hl). }
    rewrite Hst', (sessionListener_binary _ _ _ _ Hc Hq).
    rewrite (handleBinaryMessage_unfold _ _ _ _ Hparse), Hcrdt, Hlock.
    rewrite Hirc, Hdata, Hav.
    unfold bind, ret.
    rewrite proxyMessageToPeers_ok.
    + simpl. by rewrite <- app_assoc.
    + intros t [_ Ht]%list_elem_of_filter. apply Hacc. by right.
  - intros Hdata Hirc Hav dc ls dc' rollback update Hp Happly.
    destruct (Hacc ws) as (c0 & Hc0 & Hf); [by left|].
    assert (c0 = c) as -> by congruence.
    destruct (data_frame_step ws b st c method args dc ls dc' rollback update
                Hsp Hc Hl Hq Hf Hparse Hdata Hp Happly) as (Htr & _); [by intros _|].
    fold st' in Htr. rewrite Htr. fold peers.
    destruct (reached_accepting (conns st) peers) as [-> ->].
    { intros t [_ Ht]%list_elem_of_filter. apply Hacc. by right. }
    destruct update as [u|]; [|by rewrite !app_nil_r].
    destruct (handError (conns st) ls (emitUpdate dc' u).2); [done|].
    by rewrite app_nil_r.
Qed.

(** The claim as the spec words it for the keys: a frame that makes the
    data client emit a dead hand with a key that matches neither
    pattern has an error message sent back to its session. *)
Definition violationReported (ws : nat) (b : list Byte.byte) (st : state) : Prop :=
  ∀ c dc ls dc' rollback u keys h bad,
    conns st !! ws = Some c →
    dataPromiseHeap st !! dataClientPromise c = Some (dataResolved dc ls) →
    applyUint8Array dc b = (dc', (rollback, Some u)) →
    deadhand keys h ∈ (emitUpdate dc' u).2 → bad ∈ keys → parseKey bad = None →
    ∃ err, Sent ws (Text (errorFrame err)) ∈
             drop (length (trace st)) (trace (step (message ws (Binary b)) st)).

(** C7, amended.  In every run, on a session that is attached and has
    not quit, its transport taking sends: a text frame makes the
    listener log the error and send the error message to the session
    itself, and changes nothing else, the session staying in the list
    with its listener; a data frame whose update makes the data client
    emit a dead hand that names the player of a subscribed session and
    has a key matching neither pattern, at whatever place among the
    keys and the events, ends in the error message [invalid deadhand
    key] of such a key sent to the originating session, after its
    rollback if there is one, no other session being sent anything, the
    list staying as it was and the session keeping its listener. *)
Theorem protocol_violation_reported (sto : gmap string jsval) (es : list event)
    (ws : nat) (c : conn) :
  let st := run es (init sto) in
  spinning st = false →
  conns st !! ws = Some c → listeners c = [onsession] → quit c = false →
  sendFails c = false →
  (∀ s,
     step (message ws (Text s)) st =
       set_trace (trace st ++ [Dispatched ws (Text s);
                               Sent ws (Text (errorFrame "got non-binary message"))])
         (set_console (console st ++ ["got non-binary message"]) st)) ∧
  (∀ b method args dc ls dc' rollback u keys h bad,
     parseUpdateObject b = (method, args) → dataHandlesMethod method = true →
     dataPromiseHeap st !! dataClientPromise c = Some (dataResolved dc ls) →
     applyUint8Array dc b = (dc', (rollback, Some u)) →
     deadhand keys h ∈ (emitUpdate dc' u).2 → owned (conns st) ls h →
     bad ∈ keys → parseKey bad = None →
     let st' := step (message ws (Binary b)) st in
     ∃ keys' h' key c',
       deadhand keys' h' ∈ (emitUpdate dc' u).2 ∧ owned (conns st) ls h' ∧
       key ∈ keys' ∧ parseKey key = None ∧
       trace st' =
         trace st ++ Dispatched ws (Binary b) ::
           match rollback with
           | Some r => [Sent ws (Binary (serializeMessage r))]
           | None => []
           end
           ++ [Sent ws (Text (errorFrame ("invalid deadhand key: " +:+ key)))] ∧
       sessions st' = sessions st ∧
       conns st' !! ws = Some c' ∧ listeners c' = [onsession] ∧ quit c' = false).
Proof.
  intros st Hsp Hc Hl Hq Hf. split.
  - intros s. unfold step. rewrite Hsp, (dispatchMessage_steady _ _ _ _ Hc Hl).
    cbn [snd]. by apply (sessionListener_text _ _ _ c).
  - intros b method args dc ls dc' rollback u keys h bad
      Hparse Hdata Hp Happly Hev Hown Hbad Hnone st'.
    assert (Hls : ∀ l, l ∈ ls → is_Some (conns st !! l)).
    { intros l Hin. by apply (subscribed_run sto es _ _ _ _ Hp). }
    destruct (handError (conns st) ls (emitUpdate dc' u).2) as [err|] eqn:Herr.
    + destruct (handError_Some _ _ _ _ Hls Herr)
        as (keys' & h' & key & Hev' & Hown' & Hkey & Hnone' & ->).
      destruct (data_frame_step ws b st c method args dc ls dc' rollback (Some u)
                  Hsp Hc Hl Hq Hf Hparse Hdata Hp Happly) as (Htr & _ & Hss & HF).
      { rewrite Herr. discriminate. }
      rewrite Herr in Htr.
      destruct (Forall2_lookup_l _ _ _ _ _ HF Hc) as (c' & Hc' & E).
      exists keys', h', key, c'. do 4 (split; [done|]).
      split; [exact Htr|]. split; [exact Hss|]. split; [exact Hc'|].
      rewrite E. done.
    + exfalso. rewrite (handError_None _ _ _ Hls) in Herr.
      specialize (Herr keys h Hev Hown). rewrite Forall_forall in Herr.
      destruct (Herr bad Hbad) as [x Hx]. congruence.
Qed.

(** The remove updates the spec asks of the cleanup, in the order of the
    table: for an entry with an [arrayIndexId], the remove of that map if
    the array still has the key; for an entry without, the remove of
    every map the array has. *)
Definition removals (dc : DataClient) (hands : list (string * hand)) : list MessageEvent :=
  flat_map (λ entry : string * hand,
    match arrayIndexId entry.2 with
    | Some i =>
        if hasKey dc (arrayId entry.2) i then [removeUpdate dc (arrayId entry.2) i] else []
    | None => removeUpdate dc (arrayId entry.2) <$> getKeys dc (arrayId entry.2)
    end) hands.

(** Each of them to every peer. *)
Definition broadcasts (peers : list nat) (ms : list MessageEvent) : list action :=
  flat_map (λ m, sends (Binary (serializeMessage m)) peers) ms.

Lemma filter_all {A} (P : A → Prop) `{∀ x, Decision (P x)} (l : list A) :
  Forall P l → filter P l = l.
Proof.
  induction 1 as [|x l Hx _ IH]; [done|]. by rewrite filter_cons_True, IH.
Qed.

Lemma proxy_one ws st m T :
  ws ∉ sessions st → accepting (conns st) (sessions st) →
  proxyMessageToPeers ws m (set_trace T st) =
    (Return tt, set_trace (T ++ sends m (sessions st)) st).
Proof.
  intros Hws Hacc.
  assert (Hpeers : filter (λ s, s ≠ ws) (sessions st) = sessions st).
  { apply filter_all, Forall_forall. intros s Hs ->. done. }
  assert (Hacc' : accepting (conns (set_trace T st))
                    (filter (λ s, s ≠ ws) (sessions (set_trace T st))))
    by (simpl; by rewrite Hpeers).
  rewrite (proxyMessageToPeers_ok ws _ (set_trace T st) Hacc').
  change (sessions (set_trace T st)) with (sessions st). by rewrite Hpeers.
Qed.

Lemma proxy_each ws st {A} (f : A → MessageEvent) (l : list A) :
  ws ∉ sessions st → accepting (conns st) (sessions st) →
  ∀ T, forEach l (λ x, proxyMessageToPeers ws (Binary (serializeMessage (f x))))
         (set_trace T st) =
       (Return tt, set_trace (T ++ broadcasts (sessions st) (f <$> l)) st).
Proof.
  intros Hws Hacc. unfold broadcasts.
  induction l as [|x l IH]; intros T; simpl.
  - unfold ret. by rewrite app_nil_r.
  - unfold bind. rewrite (proxy_one ws st _ T Hws Hacc).
    rewrite IH. by rewrite <- app_assoc.
Qed.

Lemma _triggerDeadHands_spec ws st c dc ls :
  conns st !! ws = Some c →
  dataPromiseHeap st !! dataClientPromise c = Some (dataResolved dc ls) →
  ws ∉ sessions st → accepting (conns st) (sessions st) →
  _triggerDeadHands ws st =
    (Return tt,
     set_trace (trace st ++ broadcasts (sessions st) (removals dc (deadHands c))) st).
Proof.
  intros Hc Hp Hws Hacc. unfold _triggerDeadHands, bind at 1.
  rewrite (conn_at_Some _ _ _ Hc).
  enough (∀ hands T,
    forEach hands (λ entry : string * hand,
      bind (dataClient_at ws) (λ '(dc, _),
        let a := arrayId entry.2 in
        match arrayIndexId entry.2 with
        | Some i =>
            if hasKey dc a i then
              proxyMessageToPeers ws (Binary (serializeMessage (removeUpdate dc a i)))
            else ret tt
        | None =>
            forEach (getKeys dc a) (λ i,
              proxyMessageToPeers ws (Binary (serializeMessage (removeUpdate dc a i))))
        end)) (set_trace T st) =
    (Return tt, set_trace (T ++ broadcasts (sessions st) (removals dc hands)) st)) as Hloop.
  { specialize (Hloop (deadHands c) (trace st)).
    replace (set_trace (trace st) st) with st in Hloop by (by destruct st). exact Hloop. }
  induction hands as [|entry hands IH]; intros T.
  - simpl. unfold ret, broadcasts. simpl. by rewrite app_nil_r.
  - simpl forEach. unfold bind at 1. unfold bind at 1.
    rewrite (dataClient_at_Some ws (set_trace T st) c dc ls Hc Hp).
    assert (Hsplit : broadcasts (sessions st) (removals dc (entry :: hands)) =
                     broadcasts (sessions st) (removals dc [entry]) ++
                     broadcasts (sessions st) (removals dc hands)).
    { unfold broadcasts, removals. simpl. by rewrite app_nil_r, flat_map_app. }
    rewrite Hsplit, app_assoc. unfold removals at 1. simpl flat_map. rewrite app_nil_r.
    cbv zeta. destruct (arrayIndexId entry.2) as [i|].
    + destruct (hasKey dc (arrayId entry.2) i).
      * rewrite (proxy_one ws st _ T Hws Hacc). rewrite IH.
        unfold broadcasts. simpl. by rewrite app_nil_r.
      * unfold ret. rewrite IH. unfold broadcasts. simpl. by rewrite app_nil_r.
    + rewrite (proxy_each ws st (removeUpdate dc (arrayId entry.2)) _ Hws Hacc T).
      by rewrite IH.
Qed.

End Claims.

(** * The room of the examples

    The claims at concrete runs of the room object, over the
    collaborators of [Demo]. *)

Module Examples.
Import Demo.

(** One room, [r1]; the storage is empty unless said otherwise. *)
Definition attach (pid : string) : event :=
  request (mkRequest (Some "websocket") "/r1/websocket" (Some pid)).

Definition fresh : gmap string jsval := ∅.

Definition bytes (method : Z) (s : string) : list Byte.byte :=
  default Byte.x00 (Byte.of_N (Z.to_N method)) :: list_byte_of_string s.

(** The room is initialized and the first socket waits at its [await]s. *)
Definition opening : list event :=
  [attach "a"; storageReplyData 0; storageReplyCrdt 0].

Definition one : list event := opening ++ [resume 0 0].
Definition two : list event := one ++ [attach "b"; resume 1 0].
Definition three : list event := two ++ [attach "c"; resume 2 0].

(** A frame comes in while the first socket waits. *)
Definition early : list event :=
  [attach "a"; storageReplyData 0; message 0 (frame 5 "hi"); storageReplyCrdt 0].

(** A storage whose [worldApps] array lists the key ['crdt']. *)
Definition colliding : gmap string jsval :=
  {["worldApps" := JObj [("crdt", JNum 0)]]}.

(** The first session holds a map and the whole array as dead hands. *)
Definition holding : list event :=
  two ++ [message 0 (frame 1 "k1"); message 0 (frame 1 "k2");
          message 0 (frame 3 "worldApps.k1,worldApps")].

Definition anonymous : list event :=
  [attach ""; storageReplyData 0; storageReplyCrdt 0].

(** Two sessions of players ["b"] and ["c"]: nobody has the player
    ["a"] the dead hands of the examples name. *)
Definition strangers : list event :=
  [attach "b"; storageReplyData 0; storageReplyCrdt 0; resume 0 0;
   attach "c"; resume 1 0].

Lemma snapshot_before_live_early :
  ∃ c, conns (run early (init fresh)) !! 0 = Some c ∧ queue c = [frame 5 "hi"] ∧
       (view 0 (trace (run early (init fresh))) = [] ∨
        startsWithSnapshots 0 (view 0 (trace (run early (init fresh))))) ∧
       step (message 0 (frame 6 "ho")) (run early (init fresh)) =
         updConn 0 (λ c, set_queue (queue c ++ [frame 6 "ho"]) c)
           (run early (init fresh)) ∧
       [frame 5 "hi"] `prefix_of`
         dispatchedOf 0 (trace (step (resume 0 1) (run early (init fresh)))).
Proof.
  eexists. split; [vm_compute; reflexivity|]. split; [reflexivity|].
  edestruct (snapshot_before_live fresh early 0) as (Hview & Hbuf & Hreplay).
  { vm_compute; reflexivity. }
  split; [exact Hview|]. split.
  - apply Hbuf; vm_compute; reflexivity.
  - eapply (Hreplay eq_refl 1); [vm_compute; reflexivity | reflexivity | simpl; lia].
Defined.

Lemma pushed_before_snapshots_opening :
  "a" ∈ omap (λ s, conns (run opening (init fresh)) !! s ≫= playerId)
         (sessions (run opening (init fresh)) ++ [0]).
Proof.
  refine (proj2 (pushed_before_snapshots 0 0 (run opening (init fresh))
                  _ _ _ _ _ _ _ _ _ _ _ _) "a" _);
    vm_compute; reflexivity.
Defined.

(** The first session is entered into the list before it is sent
    anything, and the network-init frame it is sent lists its own
    [playerId]. *)
Lemma snapshots_after_push :
  ¬ snapshotsBeforePush 0 (run opening (init fresh))
      (step (resume 0 0) (run opening (init fresh))).
Proof.
  intros (a & b & ids & rest & Htr & _). vm_compute in Htr. discriminate Htr.
Qed.

Lemma noCollision_fresh : noCollision fresh.
Proof. intros a i _ Hi. vm_compute in Hi. by apply elem_of_nil in Hi. Qed.

Lemma single_flight_two :
  noCollision fresh ∧
  (reads "r1" "crdt" (storageLog (run two (init fresh))) ≤ 1)%nat.
Proof.
  split; [exact noCollision_fresh|].
  apply (proj1 (single_flight fresh two noCollision_fresh) "r1" "crdt").
  by right.
Defined.

(** The array [worldApps] of the storage lists the key ['crdt']: the
    initialization of the data client reads it, and the initialization
    of the document reads it again. *)
Lemma crdt_read_twice :
  ¬ (∀ r k, k ∈ schemaArrayNames ∨ k = "crdt" →
       (reads r k (storageLog (run [attach "a"; storageReplyData 0] (init colliding))) ≤ 1)%nat).
Proof.
  intros Hr. specialize (Hr "r1" "crdt" (or_intror eq_refl)).
  vm_compute in Hr. lia.
Qed.

(** Three sessions, the transport of the second broken: a chat frame of
    the first is sent to the first, the second send throws, and the
    third session, whose transport works, is sent nothing. *)
Lemma refusal_ends_loop :
  ¬ loopContinues 0 (frame 5 "hi") (run (three ++ [break 1]) (init fresh)).
Proof.
  intros Hl.
  eassert (Hin : _).
  { eapply (Hl 2); [apply (bool_decide_unpack _); vm_compute; exact I
                   | vm_compute; reflexivity | reflexivity]. }
  assert (E : drop (length (trace (run (three ++ [break 1]) (init fresh))))
                (trace (reflectMessageToPeers 0 (frame 5 "hi")
                          (run (three ++ [break 1]) (init fresh))).2)
              = [Sent 0 (frame 5 "hi")]) by (vm_compute; reflexivity).
  rewrite E in Hin. apply list_elem_of_singleton in Hin. discriminate Hin.
Qed.

(** Three sessions, the transport of the third broken: the set of the
    first reaches the second, and the refusal of the third is reported
    to the first. *)
Lemma data_frame_routing_set :
  trace (step (message 0 (frame 1 "k1")) (run (three ++ [break 2]) (init fresh))) =
    trace (run (three ++ [break 2]) (init fresh)) ++
      [Dispatched 0 (frame 1 "k1"); Sent 1 (frame 1 "k1");
       Sent 0 (Text (errorFrame "send failed"))] ∧
  sessions (step (message 0 (frame 1 "k1")) (run (three ++ [break 2]) (init fresh))) =
    [0; 1; 2].
Proof.
  edestruct (data_frame_routing 0 (bytes 1 "k1") (run (three ++ [break 2]) (init fresh)))
    as (Htr & _ & Hs).
  1-13: vm_compute; reflexivity.
  split.
  - etransitivity; [exact Htr|]. vm_compute; reflexivity.
  - etransitivity; [exact Hs|]. vm_compute; reflexivity.
Defined.

(** Three sessions, the transport of the second broken: the set of the
    first has an update, the send to the second throws, and the third,
    whose transport works, is sent nothing. *)
Lemma healthy_peer_not_proxied :
  dataHandlesMethod (parseUpdateObject (bytes 1 "k9")).1 = true ∧
  ¬ updateProxied 0 (bytes 1 "k9") (run (three ++ [break 1]) (init fresh)).
Proof.
  split; [reflexivity|]. intros Hp.
  eassert (Hin : _).
  { refine (Hp _ _ _ _ _ _ _ _ _ 2 _ _ _ _ _).
    - vm_compute; reflexivity.
    - vm_compute; reflexivity.
    - vm_compute; reflexivity.
    - apply (bool_decide_unpack _); vm_compute; exact I.
    - discriminate.
    - vm_compute; reflexivity.
    - reflexivity. }
  assert (E : drop (length (trace (run (three ++ [break 1]) (init fresh))))
                (trace (step (message 0 (Binary (bytes 1 "k9")))
                          (run (three ++ [break 1]) (init fresh))))
              = [Dispatched 0 (frame 1 "k9"); Sent 0 (Text (errorFrame "send failed"))])
    by (vm_compute; reflexivity).
  rewrite E in Hin.
  apply elem_of_cons in Hin as [Hin|Hin]; [discriminate Hin|].
  apply list_elem_of_singleton in Hin. discriminate Hin.
Qed.

Lemma reflect_or_proxy_chat :
  trace (step (message 0 (frame 5 "hi")) (run two (init fresh))) =
    trace (run two (init fresh)) ++
      [Dispatched 0 (frame 5 "hi"); Sent 0 (frame 5 "hi"); Sent 1 (frame 5 "hi")] ∧
  trace (step (message 0 (frame 1 "k1")) (run two (init fresh))) =
    trace (run two (init fresh)) ++
      [Dispatched 0 (frame 1 "k1"); Sent 1 (frame 1 "k1")] ∧
  trace (step (message 1 (frame 3 "x.y.z")) (run two (init fresh))) =
    trace (run two (init fresh)) ++
      [Dispatched 1 (frame 3 "x.y.z");
       Sent 1 (Text (errorFrame "invalid deadhand key: x.y.z"))].
Proof.
  split; [|split].
  - edestruct (reflect_or_proxy 0 (bytes 5 "hi") (run two (init fresh))) as (Hchat & _).
    1-7: vm_compute; reflexivity.
    + apply acceptingb_accepting. vm_compute; reflexivity.
    + apply Hchat; reflexivity.
  - edestruct (reflect_or_proxy 0 (bytes 1 "k1") (run two (init fresh))) as (_ & _ & Hdata).
    1-7: vm_compute; reflexivity.
    + apply acceptingb_accepting. vm_compute; reflexivity.
    + etransitivity; [eapply Hdata|]; vm_compute; reflexivity.
  - edestruct (reflect_or_proxy 1 (bytes 3 "x.y.z") (run two (init fresh)))
      as (_ & _ & Hdata).
    1-7: vm_compute; reflexivity.
    + apply acceptingb_accepting. vm_compute; reflexivity.
    + etransitivity; [eapply Hdata|]; vm_compute; reflexivity.
Defined.

(** Two sessions; the first sends a data frame its data client refuses:
    a rollback goes to the first and the second is sent nothing. *)
Lemma refused_frame_not_proxied :
  dataHandlesMethod (parseUpdateObject (bytes 2 "x")).1 = true ∧
  ¬ proxiedToAllPeers 0 (bytes 2 "x") (run two (init fresh)).
Proof.
  split; [reflexivity|]. intros Hp.
  eassert (Hin : _).
  { eapply (Hp 1); [apply (bool_decide_unpack _); vm_compute; exact I | discriminate]. }
  assert (E : drop (length (trace (run two (init fresh))))
                (trace (step (message 0 (Binary (bytes 2 "x"))) (run two (init fresh))))
              = [Dispatched 0 (frame 2 "x");
                 Sent 0 (Binary (serializeMessage (mkMessageEvent "rollback" (JStr "x"))))])
    by (vm_compute; reflexivity).
  rewrite E in Hin.
  apply elem_of_cons in Hin as [Hin|Hin]; [discriminate Hin|].
  apply list_elem_of_singleton in Hin. discriminate Hin.
Qed.

(** A text frame; and a claim of two keys, the second malformed, for
    the player of the first session. *)
Lemma protocol_violation_reported_two :
  step (message 1 (Text "hello")) (run two (init fresh)) =
    set_trace (trace (run two (init fresh)) ++
                 [Dispatched 1 (Text "hello");
                  Sent 1 (Text (errorFrame "got non-binary message"))])
      (set_console (console (run two (init fresh)) ++ ["got non-binary message"])
         (run two (init fresh))) ∧
  trace (step (message 1 (frame 3 "worldApps,x.y.z")) (run two (init fresh))) =
    trace (run two (init fresh)) ++
      [Dispatched 1 (frame 3 "worldApps,x.y.z");
       Sent 1 (Text (errorFrame "invalid deadhand key: x.y.z"))] ∧
  sessions (step (message 1 (frame 3 "worldApps,x.y.z")) (run two (init fresh))) = [0; 1].
Proof.
  edestruct (protocol_violation_reported fresh two 1) as [Htext Hkey].
  1-5: vm_compute; reflexivity.
  split; [exact (Htext "hello")|].
  eassert (R : _).
  { refine (Hkey (bytes 3 "worldApps,x.y.z") _ _ _ _ _ _ _
              ["worldApps"; "x.y.z"] (Some "a") "x.y.z" _ _ _ _ _ _ _ _).
    1-4: vm_compute; reflexivity.
    - vm_compute. left.
    - exists 0. eexists. split; [|split; vm_compute; reflexivity].
      apply (bool_decide_unpack _). vm_compute. exact I.
    - apply (bool_decide_unpack _). vm_compute. exact I.
    - vm_compute; reflexivity. }
  destruct R as (keys' & h' & key & c' & Hev & _ & Hin & Hnone & Htr & Hs & _).
  - vm_compute in Hev. apply list_elem_of_singleton in Hev. injection Hev as -> ->.
    apply elem_of_cons in Hin as [->|Hin].
    { vm_compute in Hnone. discriminate Hnone. }
    apply list_elem_of_singleton in Hin. subst key.
    split.
    + etransitivity; [exact Htr|]. vm_compute; reflexivity.
    + etransitivity; [exact Hs|]. vm_compute; reflexivity.
Defined.

(** Nobody has the player of the dead hand: the malformed key is not
    looked at, no error is sent, and the frame goes to the peer. *)
Lemma stranger_key_not_reported :
  dataHandlesMethod (parseUpdateObject (bytes 3 "x.y.z")).1 = true ∧
  ¬ violationReported 0 (bytes 3 "x.y.z") (run strangers (init fresh)).
Proof.
  split; [reflexivity|]. intros Hv.
  eassert (R : _).
  { refine (Hv _ _ _ _ _ _ ["x.y.z"] (Some "a") "x.y.z" _ _ _ _ _ _).
    1-3: vm_compute; reflexivity.
    - vm_compute. left.
    - apply (bool_decide_unpack _). vm_compute. exact I.
    - vm_compute; reflexivity. }
  destruct R as [err Hin].
  - assert (E : drop (length (trace (run strangers (init fresh))))
                  (trace (step (message 0 (Binary (bytes 3 "x.y.z")))
                            (run strangers (init fresh))))
                = [Dispatched 0 (frame 3 "x.y.z"); Sent 1 (frame 3 "x.y.z")])
      by (vm_compute; reflexivity).
    rewrite E in Hin.
    apply elem_of_cons in Hin as [Hin|Hin]; [discriminate Hin|].
    apply list_elem_of_singleton in Hin. discriminate Hin.
Qed.

Lemma expected_websocket_plain :
  fetch (mkRequest None "/r1/websocket" (Some "a")) (run two (init fresh)) =
    (Some (mkResponse 400 "expected websocket"), run two (init fresh)).
Proof.
  refine (proj1 (expected_websocket (mkRequest None "/r1/websocket" (Some "a")) "r1"
                   (run two (init fresh)) _ _)).
  - vm_compute; reflexivity.
  - discriminate.
Defined.

Lemma empty_playerId_no_join_anonymous :
  playerId <$> conns (run anonymous (init fresh)) !! 0 = Some (Some "") ∧
  dataPromiseHeap (step (resume 0 0) (run anonymous (init fresh))) !! 0 =
    Some (dataResolved [("worldApps", [])] [0]).
Proof.
  split; [vm_compute; reflexivity|].
  edestruct (empty_playerId_no_join fresh anonymous 0 0) as (_ & _ & Hheap).
  1-9: vm_compute; reflexivity.
  exact Hheap.
Defined.
End Examples.
(** * More of the coordinator

    The parts of [multiplayer.mjs] around the attach sequence and the
    dispatcher: the two regular expressions, the worker that routes a
    request to the object of a room, what [fetch] answers, the hand
    listeners, the classes of frames, the close handler and the
    initialization from the storage. *)

(** ** The two regular expressions *)

(** [s] has no occurrence of [sep]. *)
Fixpoint avoids (sep : ascii) (s : string) : bool :=
  match s with
  | EmptyString => true
  | String c s' => negb (Ascii.eqb c sep) && avoids sep s'
  end.

Lemma fields_avoids sep s : avoids sep s = true → fields sep s = [s].
Proof.
  induction s as [|c s IH]; [done|]. simpl.
  destruct (Ascii.eqb c sep); [done|]. simpl. intros Hs. by rewrite (IH Hs).
Qed.

Lemma fields_app sep a b :
  avoids sep a = true → fields sep (a +:+ String sep b) = a :: fields sep b.
Proof.
  induction a as [|c a IH]; simpl.
  - intros _. by rewrite Ascii.eqb_refl.
  - destruct (Ascii.eqb c sep); [done|]. simpl. intros Ha. by rewrite (IH Ha).
Qed.

Lemma fields_inv sep s f fs :
  fields sep s = f :: fs →
  avoids sep f = true ∧
  (fs = [] ∧ s = f ∨ ∃ rest, s = f +:+ String sep rest ∧ fields sep rest = fs).
Proof.
  revert f fs. induction s as [|c s IH]; intros f fs; simpl.
  - intros [= <- <-]. split; [done|]. by left.
  - destruct (Ascii.eqb c sep) eqn:Hc.
    + intros [= <- <-]. split; [done|]. right. exists s.
      apply Ascii.eqb_eq in Hc as ->. done.
    + destruct (fields sep s) as [|g gs] eqn:Hs.
      * intros [= <- <-]. exfalso. clear IH Hc. destruct s as [|d s]; [done|].
        simpl in Hs. destruct (Ascii.eqb d sep); [done|].
        by destruct (fields sep s).
      * intros [= <- <-]. destruct (IH g gs eq_refl) as [Hg Hrest].
        split; [simpl; by rewrite Hc, Hg|].
        destruct Hrest as [[-> ->]|(rest & -> & Hr)]; [by left|].
        right. by exists rest.
Qed.

(** X1.  The key of a dead hand is accepted exactly when it is a
    non-empty name without a dot (the whole array of that name), or two
    such names with one dot between them (the map of that key in the
    array); the entry recorded holds the one or the two names.  Every
    other key (empty, an empty side, two dots or more) is refused. *)
Theorem parseKey_spec (key : string) (h : hand) :
  parseKey key = Some h ↔
  nonempty (arrayId h) = true ∧ avoids "." (arrayId h) = true ∧
  match arrayIndexId h with
  | Some i => nonempty i = true ∧ avoids "." i = true ∧ key = arrayId h +:+ "." +:+ i
  | None => key = arrayId h
  end.
Proof.
  unfold parseKey. split.
  - destruct (fields "." key) as [|a [|i [|]]] eqn:Hf; [done| | |done].
    + destruct (fields_inv _ _ _ _ Hf) as [Ha [[_ ->]|(rest & _ & Hr)]].
      * destruct (nonempty a) eqn:Hn; [|done]. intros [= <-]. done.
      * by destruct rest; simpl in Hr; [|destruct (Ascii.eqb _ _), (fields "." rest)].
    + destruct (fields_inv _ _ _ _ Hf) as [Ha [[? _]|(rest & -> & Hr)]]; [done|].
      destruct (fields_inv _ _ _ _ Hr) as [Hi [[_ ->]|(rest' & _ & Hr')]].
      * destruct (nonempty a) eqn:Hn, (nonempty i) eqn:Hn'; try done.
        intros [= <-]. done.
      * by destruct rest'; simpl in Hr'; [|destruct (Ascii.eqb _ _), (fields "." rest')].
  - destruct h as [a [i|]]; simpl.
    + intros (Hn & Ha & Hn' & Hi & ->).
      change (a +:+ "." +:+ i) with (a +:+ String "." i).
      rewrite (fields_app _ _ _ Ha), (fields_avoids _ _ Hi), Hn, Hn'. done.
    + intros (Hn & Ha & ->). by rewrite (fields_avoids _ _ Ha), Hn.
Qed.

Lemma fields_last sep s f : fields sep s ≠ f :: [] ∨ s = f.
Proof.
  destruct (fields sep s) as [|g [|]] eqn:Hf; [by left| |by left].
  destruct (decide (g = f)) as [->|]; [|left; congruence].
  destruct (fields_inv _ _ _ _ Hf) as [_ [[_ ->]|(rest & _ & Hr)]]; [by right|].
  by destruct rest; simpl in Hr; [|destruct (Ascii.eqb _ _), (fields sep rest)].
Qed.

Lemma matchPath_of_parts r m :
  nonempty r = true → nonempty m = true → avoids "/" r = true → avoids "/" m = true →
  matchPath ("/" +:+ r +:+ "/" +:+ m) = (r, m).
Proof.
  intros Hr Hm Ar Am. unfold matchPath.
  change ("/" +:+ r +:+ "/" +:+ m) with ("" +:+ String "/" (r +:+ String "/" m)).
  rewrite (fields_app "/" "" _ eq_refl), (fields_app _ _ _ Ar), (fields_avoids _ _ Am).
  simpl. by rewrite Hr, Hm.
Qed.

Lemma matchPath_inv pathname r m :
  matchPath pathname = (r, m) →
  (r = "" ∧ m = "") ∨
  (nonempty r = true ∧ nonempty m = true ∧ avoids "/" r = true ∧ avoids "/" m = true ∧
   pathname = "/" +:+ r +:+ "/" +:+ m).
Proof.
  unfold matchPath. intros Hp.
  destruct (fields "/" pathname) as [|e [|r0 [|m0 [|]]]] eqn:Hf;
    try (injection Hp as <- <-; by left).
  destruct (nonempty e) eqn:He; simpl in Hp; [injection Hp as <- <-; by left|].
  destruct (nonempty r0) eqn:Hr0; simpl in Hp; [|injection Hp as <- <-; by left].
  destruct (nonempty m0) eqn:Hm0; simpl in Hp; [|injection Hp as <- <-; by left].
  injection Hp as <- <-. right.
  destruct e; [|done].
  destruct (fields_inv _ _ _ _ Hf) as [_ [[? _]|(rest & -> & Hr)]]; [done|].
  destruct (fields_inv _ _ _ _ Hr) as [Ar [[? _]|(rest' & -> & Hr')]]; [done|].
  destruct (fields_last "/" rest' m0) as [?| ->]; [done|].
  destruct (fields_inv _ _ _ _ Hr') as [Am _]. done.
Qed.

(** X2.  The path of a request to the room object matches exactly when
    it is [/<room>/<method>], both names non-empty and without a slash,
    and then the two names are what the match gives; for every other
    path the room name and the method name are both empty. *)
Theorem matchPath_spec (pathname r m : string) :
  matchPath pathname = (r, m) ↔
  (nonempty r = true ∧ nonempty m = true ∧ avoids "/" r = true ∧ avoids "/" m = true ∧
   pathname = "/" +:+ r +:+ "/" +:+ m) ∨
  (r = "" ∧ m = "" ∧
   ∀ r' m', nonempty r' = true → nonempty m' = true →
            avoids "/" r' = true → avoids "/" m' = true →
            pathname ≠ "/" +:+ r' +:+ "/" +:+ m').
Proof.
  split.
  - intros Hp. destruct (matchPath_inv _ _ _ Hp) as [[-> ->]|Hform]; [|by left].
    right. split; [done|]. split; [done|]. intros r' m' Hr Hm Ar Am ->.
    rewrite (matchPath_of_parts r' m' Hr Hm Ar Am) in Hp. injection Hp as -> ->. done.
  - intros [(Hr & Hm & Ar & Am & ->)|(-> & -> & Hno)]; [by apply matchPath_of_parts|].
    destruct (matchPath pathname) as [r m] eqn:Hp.
    destruct (matchPath_inv _ _ _ Hp) as [[-> ->]|(Hr & Hm & Ar & Am & ->)]; [done|].
    by destruct (Hno r m).
Qed.

(** ** What [fetch] of the room object does at once *)

Section Fetch.
Context `{Collaborators}.
Implicit Types (st : state) (ws : nat).

(** X3.  A request whose path is not [/<room>/websocket] (no match, or
    another method name) is answered 404 [Not found]; the object is as
    it was: no session is made and nothing is read from the storage. *)
Theorem fetch_not_found (req : Request) st :
  (∀ r, pathname req ≠ "/" +:+ r +:+ "/websocket") →
  fetch req st = (Some (mkResponse 404 "Not found"), st) ∧
  step (request req) st = st.
Proof.
  intros Hno.
  assert (Hf : fetch req st = (Some (mkResponse 404 "Not found"), st)).
  { unfold fetch. destruct (matchPath (pathname req)) as [r m] eqn:Hp.
    destruct (String.eqb m "websocket") eqn:Hm; [|done].
    apply String.eqb_eq in Hm as ->.
    destruct (matchPath_inv _ _ _ Hp) as [[_ ?]|(_ & _ & _ & _ & Hpath)]; [done|].
    by destruct (Hno r). }
  split; [done|]. unfold step. rewrite Hf. by destruct (spinning st).
Qed.

(** X4.  A request with [Upgrade: websocket] to [/<room>/websocket]
    is not answered at once: [handleSession] runs to its [await]s.  By
    then the socket has a record of its own, with the room, the
    [playerId] of the query, the pause listener as its only listener, an
    empty queue and no close handler; the three promises of the record
    are the ones the room is registered with; the session is not in the
    list yet and nothing has been sent. *)
Theorem fetch_suspends (req : Request) (roomName : string) st :
  matchPath (pathname req) = (roomName, "websocket") →
  upgrade req = Some "websocket" →
  ∃ st' dp cp lp,
    fetch req st = (None, st') ∧
    conns st' =
      conns st ++ [mkConn roomName (playerIdParam req) dp cp lp false [onmessage] []
                     false false [] suspended None] ∧
    dataClientPromises st' !! roomName = Some dp ∧
    crdtClientPromises st' !! roomName = Some cp ∧
    lockClientPromises st' !! roomName = Some lp ∧
    sessions st' = sessions st ∧ trace st' = trace st.
Proof.
  intros Hp Hu. unfold fetch. rewrite Hp. simpl.
  rewrite bool_decide_eq_false_2 by (intros Hn; by apply Hn).
  exists (handleSession_begin roomName (playerIdParam req) st).
  unfold handleSession_begin, continueReading, storage_get, schemaArrayNames.
  destruct (dataClientPromises st !! roomName) eqn:Hd; simpl;
    destruct (crdtClientPromises st !! roomName) eqn:Hc; simpl;
    destruct (lockClientPromises st !! roomName) eqn:Hl; simpl;
    do 3 eexists; repeat split; try reflexivity; simpl;
    try done; by rewrite lookup_insert_eq.
Qed.

End Fetch.

(** ** The worker in front of the room objects *)

(** What the worker's [fetch] comes to: a response of its own, the id of
    a new room as the body of one, or the request passed on to the
    object of the room [name] with a new path. *)
Inductive routed :=
| answered (r : Response)
| uniqueId
| forwarded (name : string) (pathname : string).

(** [s.slice(1)] *)
Definition slice1 (s : string) : string :=
  match s with
  | EmptyString => EmptyString
  | String _ s' => s'
  end.

(** Lines 58-138; [path] is the path after ['api'], [method] the method
    of the request. *)
Definition handleApiRequest (path : list string) (method : string) : routed :=
  match path with
  | segment :: rest =>
      if String.eqb segment "room" then
        match rest with
        | [] | "" :: _ =>
            if String.eqb method "POST" then uniqueId
            else answered (mkResponse 405 "Method not allowed")
        | name :: rest' =>
            if (String.length name <=? 128)%nat then
              forwarded name ("/" +:+ name +:+ "/" +:+ String.concat "/" rest')
            else answered (mkResponse 404 "Name too long")
        end
      else answered (mkResponse 404 "Not found")
  | [] => answered (mkResponse 404 "Not found")
  end.

(** Lines 41-55: the [fetch] of the worker on [url.pathname]. *)
Definition workerFetch (method pathname : string) : routed :=
  match fields "/" (slice1 pathname) with
  | segment :: rest =>
      if String.eqb segment "api" then handleApiRequest rest method
      else answered (mkResponse 404 "Not found")
  | [] => answered (mkResponse 404 "Not found")
  end.

Lemma fields_all sep s : Forall (λ f, avoids sep f = true) (fields sep s).
Proof.
  remember (fields sep s) as fs eqn:Hf. symmetry in Hf. revert s Hf.
  induction fs as [|f fs IH]; intros s Hf; [constructor|].
  destruct (fields_inv _ _ _ _ Hf) as [Ha [[-> _]|(rest & _ & Hr)]].
  - by repeat constructor.
  - constructor; [done|]. by apply (IH rest).
Qed.

(** X5.  A request for [/api/room/<name>/websocket], the name non-empty,
    without a slash and of at most 128 characters: whatever its method,
    the worker passes it on to the object of the room [name] with the
    path [/<name>/websocket], in which the object finds this room name
    and the method [websocket]. *)
Theorem worker_routes_websocket (method name : string) :
  nonempty name = true → avoids "/" name = true → (String.length name ≤ 128)%nat →
  workerFetch method ("/api/room/" +:+ name +:+ "/websocket") =
    forwarded name ("/" +:+ name +:+ "/websocket") ∧
  matchPath ("/" +:+ name +:+ "/websocket") = (name, "websocket").
Proof.
  intros Hn Ha Hl. split; [|by apply matchPath_of_parts].
  unfold workerFetch.
  change (slice1 ("/api/room/" +:+ name +:+ "/websocket"))
    with ("api" +:+ String "/" ("room" +:+ String "/" (name +:+ String "/" "websocket"))).
  rewrite (fields_app "/" "api" _ eq_refl), (fields_app "/" "room" _ eq_refl),
    (fields_app _ _ _ Ha).
  change (fields "/" "websocket") with ["websocket"].
  unfold handleApiRequest. simpl. destruct name as [|c name]; [done|].
  apply Nat.leb_le in Hl. rewrite Hl. done.
Qed.

(** X6.  Whenever the worker passes a request on, the room name is the
    second segment after [/api/], non-empty, without a slash and of at
    most 128 characters, and the new path starts with it: if the room
    object finds a room name in the path at all, it is the name the
    object was chosen by. *)
Theorem worker_forwards_own_name (method pathname name q : string) :
  workerFetch method pathname = forwarded name q →
  nonempty name = true ∧ avoids "/" name = true ∧ (String.length name ≤ 128)%nat ∧
  (∃ rest, fields "/" (slice1 pathname) = "api" :: "room" :: name :: rest ∧
           q = "/" +:+ name +:+ "/" +:+ String.concat "/" rest) ∧
  (∀ r m, matchPath q = (r, m) → m ≠ "" → r = name).
Proof.
  unfold workerFetch. intros Hw.
  pose proof (fields_all "/" (slice1 pathname)) as Hall.
  destruct (fields "/" (slice1 pathname)) as [|api path]; [done|].
  destruct (String.eqb_spec api "api") as [->|_]; [|done].
  unfold handleApiRequest in Hw.
  destruct path as [|room rest]; [done|].
  destruct (String.eqb_spec room "room") as [->|_]; [|done].
  destruct rest as [|n rest].
  { by destruct (String.eqb method "POST"). }
  destruct n as [|c n]; [by destruct (String.eqb method "POST")|].
  destruct (String.length (String c n) <=? 128)%nat eqn:Hl; [|done].
  injection Hw as <- <-.
  apply Forall_cons in Hall as [_ Hall]. apply Forall_cons in Hall as [_ Hall].
  apply Forall_cons in Hall as [Hn Hall].
  split; [done|]. split; [done|]. split; [by apply Nat.leb_le|].
  split; [by exists rest|].
  intros r m Hm Hne.
  destruct (matchPath_inv _ _ _ Hm) as [[_ ?]|(_ & _ & Ar & _ & Hq)]; [done|].
  change ("/" +:+ String c n +:+ "/" +:+ String.concat "/" rest)
    with (String "/" (String c n +:+ String "/" (String.concat "/" rest))) in Hq.
  change ("/" +:+ r +:+ "/" +:+ m) with (String "/" (r +:+ String "/" m)) in Hq.
  injection Hq as Hq.
  assert (Hf : fields "/" (String c n +:+ String "/" (String.concat "/" rest))
               = fields "/" (r +:+ String "/" m)) by by rewrite Hq.
  rewrite (fields_app _ _ _ Hn), (fields_app _ _ _ Ar) in Hf. by injection Hf.
Qed.

(** X7.  A room name of more than 128 characters is refused by the
    worker with 404 [Name too long], whatever follows the name and
    whatever the method: no room object is asked. *)
Theorem worker_name_too_long (method name rest : string) :
  avoids "/" name = true → (128 < String.length name)%nat →
  workerFetch method ("/api/room/" +:+ name) =
    answered (mkResponse 404 "Name too long") ∧
  workerFetch method ("/api/room/" +:+ name +:+ "/" +:+ rest) =
    answered (mkResponse 404 "Name too long").
Proof.
  intros Ha Hl.
  assert (Hb : (String.length name <=? 128)%nat = false) by (apply Nat.leb_gt; lia).
  assert (Hne : ∃ c n, name = String c n) by (destruct name; [simpl in Hl; lia | eauto]).
  destruct Hne as (c & n & ->).
  split; unfold workerFetch.
  - change (slice1 ("/api/room/" +:+ String c n))
      with ("api" +:+ String "/" ("room" +:+ String "/" (String c n))).
    rewrite (fields_app "/" "api" _ eq_refl), (fields_app "/" "room" _ eq_refl),
      (fields_avoids _ _ Ha).
    unfold handleApiRequest. cbn [String.eqb Ascii.eqb Bool.eqb]. by rewrite Hb.
  - change (slice1 ("/api/room/" +:+ String c n +:+ "/" +:+ rest))
      with ("api" +:+ String "/" ("room" +:+ String "/" (String c n +:+ String "/" rest))).
    rewrite (fields_app "/" "api" _ eq_refl), (fields_app "/" "room" _ eq_refl),
      (fields_app _ _ _ Ha).
    unfold handleApiRequest. cbn [String.eqb Ascii.eqb Bool.eqb]. by rewrite Hb.
Qed.

(** X8.  A request for [/api/room] with no room name (nothing after
    [room], or an empty segment) is answered with a new unique id when
    its method is [POST], and with 405 [Method not allowed] otherwise;
    a path whose first segment is not [api], or whose segment after
    [api] is not [room], is answered 404 [Not found]. *)
Theorem worker_without_name (method rest : string) :
  let made := if String.eqb method "POST" then uniqueId
              else answered (mkResponse 405 "Method not allowed") in
  workerFetch method "/api/room" = made ∧
  workerFetch method ("/api/room//" +:+ rest) = made ∧
  (∀ segment more, fields "/" rest = segment :: more → segment ≠ "room" →
     workerFetch method ("/api/" +:+ rest) = answered (mkResponse 404 "Not found")) ∧
  (∀ segment more, fields "/" rest = segment :: more → segment ≠ "api" →
     workerFetch method ("/" +:+ rest) = answered (mkResponse 404 "Not found")).
Proof.
  intros made. split; [done|]. split; [|split].
  - unfold workerFetch.
    change (slice1 ("/api/room//" +:+ rest))
      with ("api" +:+ String "/" ("room" +:+ String "/" ("" +:+ String "/" rest))).
    rewrite (fields_app "/" "api" _ eq_refl), (fields_app "/" "room" _ eq_refl),
      (fields_app "/" "" _ eq_refl). done.
  - intros segment more Hf Hne. unfold workerFetch.
    change (slice1 ("/api/" +:+ rest)) with ("api" +:+ String "/" rest).
    rewrite (fields_app "/" "api" _ eq_refl), Hf.
    cbn [String.eqb Ascii.eqb Bool.eqb]. unfold handleApiRequest.
    by destruct (String.eqb_spec segment "room").
  - intros segment more Hf Hne. unfold workerFetch.
    change (slice1 ("/" +:+ rest)) with rest. rewrite Hf.
    by destruct (String.eqb_spec segment "api").
Qed.

(** ** What [fetch] of the room object answers in the end *)

Section Answer.
Context `{Collaborators}.

(** A response: a plain one, the client's end of the pair of a session
    (status 101), or the client's end of the pair [handleErrors] makes,
    whose other end sent [frame] and was closed (status 101 too). *)
Inductive reply :=
| plain (r : Response)
| switching (ws : nat)
| switchingError (frame : string) (code : Z) (reason : string).

(** Lines 13-30, [func] having run. *)
Definition handleErrors (upgrade : option string) (func : outcome reply) : reply :=
  match func with
  | Return r => r
  | Throw err =>
      if decide (upgrade = Some "websocket") then
        switchingError (errorFrame err) 1011 "Uncaught exception during session setup"
      else plain (mkResponse 500 err)
  end.

(** Lines 215-251: the answer to [request], [session] being how the
    [handleSession] of its socket [ws] ended, if it was called. *)
Definition answer (request : Request) (ws : nat) (session : outcome unit) : reply :=
  handleErrors (upgrade request)
    (let '(_, methodName) := matchPath (pathname request) in
     if String.eqb methodName "websocket" then
       if bool_decide (upgrade request ≠ Some "websocket") then
         Return (plain (mkResponse 400 "expected websocket"))
       else match session with
            | Return _ => Return (switching ws)
            | Throw err => Throw err
            end
     else Return (plain (mkResponse 404 "Not found"))).

(** X9.  The room object never answers 500: an error can only come out
    of [handleSession], which is called for requests with [Upgrade:
    websocket] only, and for those [handleErrors] answers 101 with a
    socket that carries the error frame and is closed with code 1011.
    The other answers are 400, 404 and the 101 of the session. *)
Theorem fetch_answers (request : Request) (ws : nat) (session : outcome unit) :
  match answer request ws session with
  | plain (mkResponse status body) =>
      (status = 400%Z ∧ body = "expected websocket" ∧ upgrade request ≠ Some "websocket") ∨
      (status = 404%Z ∧ body = "Not found")
  | switching w =>
      w = ws ∧ session = Return tt ∧ upgrade request = Some "websocket"
  | switchingError frame code reason =>
      ∃ err, session = Throw err ∧ frame = errorFrame err ∧ code = 1011%Z ∧
             reason = "Uncaught exception during session setup" ∧
             upgrade request = Some "websocket"
  end.
Proof.
  unfold answer. destruct (matchPath (pathname request)) as [r m].
  destruct (String.eqb m "websocket"); [|simpl; by right].
  destruct (decide (upgrade request = Some "websocket")) as [Hu|Hu].
  - rewrite bool_decide_eq_false_2 by (intros Hn; by apply Hn).
    destruct session as [[]|err]; simpl; [done|].
    rewrite decide_True by done. by exists err.
  - rewrite bool_decide_eq_true_2 by done. simpl. by left.
Qed.

End Answer.

(** ** The tables of dead hands *)

(** [Map.prototype.get] *)
Fixpoint mapGet {V} (k : string) (m : list (string * V)) : option V :=
  match m with
  | [] => None
  | (k', v) :: m' => if String.eqb k' k then Some v else mapGet k m'
  end.

Lemma mapGet_mapSet {V} k (v : V) m : mapGet k (mapSet k v m) = Some v.
Proof.
  induction m as [|[k' v'] m IH]; simpl; [by rewrite String.eqb_refl|].
  destruct (String.eqb k' k) eqn:Hk; simpl; [by rewrite String.eqb_refl|].
  by rewrite Hk.
Qed.

Lemma mapGet_mapSet_ne {V} k k' (v : V) m :
  k ≠ k' → mapGet k (mapSet k' v m) = mapGet k m.
Proof.
  intros Hne. induction m as [|[k0 v0] m IH]; simpl.
  - by destruct (String.eqb_spec k' k).
  - destruct (String.eqb_spec k0 k') as [->|Hk]; simpl.
    + destruct (String.eqb_spec k' k); [congruence|done].
    + by destruct (String.eqb_spec k0 k).
Qed.

Lemma filter_mapSet {V} (keys : list string) k (v : V) m :
  k ∈ keys →
  filter (λ kv, kv.1 ∉ keys) (mapSet k v m) = filter (λ kv, kv.1 ∉ keys) m.
Proof.
  intros Hk. induction m as [|[k' v'] m IH]; simpl.
  - rewrite filter_cons. simpl. by rewrite decide_False by (intros Hn; by apply Hn).
  - destruct (String.eqb_spec k' k) as [->|Hne].
    + rewrite !filter_cons. simpl.
      by rewrite !decide_False by (intros Hn; by apply Hn).
    + rewrite !filter_cons. simpl. by rewrite IH.
Qed.

Lemma mapDelete_all {V} (keys : list string) (m : list (string * V)) :
  foldl (λ m k, mapDelete k m) m keys = filter (λ kv, kv.1 ∉ keys) m.
Proof.
  revert m. induction keys as [|k keys IH]; intros m; simpl.
  - induction m as [|kv m IHm]; [done|].
    rewrite filter_cons. rewrite decide_True by apply not_elem_of_nil. by f_equal.
  - rewrite IH. unfold mapDelete. rewrite list_filter_filter.
    apply list_filter_iff. intros [k' v']. simpl. rewrite elem_of_cons. tauto.
Qed.

Section Tables.
Context `{Collaborators}.
Implicit Types (st : state) (ws : nat).
Local Open Scope js_scope.

(** The table of [ws] is set to [v], nothing else changes. *)
Definition withHands (ws : nat) (v : list (string * hand)) (st : state) : state :=
  updConn ws (set_deadHands v) st.

Lemma withHands_same ws st c :
  conns st !! ws = Some c → withHands ws (deadHands c) st = st.
Proof.
  intros Hc. unfold withHands, updConn, set_conns.
  destruct st as [cs ? ? ? ? ? ? ? ? ? ? ? ?]. simpl in *. f_equal.
  apply list_eq. intros i.
  destruct (decide (i = ws)) as [->|Hne].
  - rewrite list_lookup_alter_eq, Hc. simpl. by destruct c.
  - by rewrite list_lookup_alter_ne.
Qed.

Lemma withHands_twice ws v w st :
  withHands ws w (withHands ws v st) = withHands ws w st.
Proof.
  unfold withHands, updConn, set_conns. simpl. f_equal.
  rewrite list_alter_alter_eq. apply list_alter_ext; [|done]. intros c _. done.
Qed.

Lemma withHands_lookup ws v st c :
  conns st !! ws = Some c →
  conns (withHands ws v st) !! ws = Some (set_deadHands v c).
Proof. intros Hc. simpl. by rewrite list_lookup_alter_eq, Hc. Qed.

Lemma updConn_hands ws (f : list (string * hand) → list (string * hand)) st c :
  conns st !! ws = Some c →
  updConn ws (λ c, set_deadHands (f (deadHands c)) c) st = withHands ws (f (deadHands c)) st.
Proof.
  intros Hc. unfold withHands, updConn. f_equal.
  apply list_eq. intros i. destruct (decide (i = ws)) as [->|Hne].
  - by rewrite !list_lookup_alter_eq, Hc.
  - by rewrite !list_lookup_alter_ne.
Qed.

Lemma deadhandListener_own ws keys : ∀ st c,
  conns st !! ws = Some c → Forall (λ k, is_Some (parseKey k)) keys →
  forEach keys (λ key,
    match parseKey key with
    | Some h => modify (updConn ws (λ c, set_deadHands (mapSet key h (deadHands c)) c))
    | None => throw ("invalid deadhand key: " +:+ key)
    end) st =
  (Return tt,
   withHands ws
     (foldl (λ m k, match parseKey k with Some h => mapSet k h m | None => m end)
        (deadHands c) keys) st).
Proof.
  induction keys as [|k keys IH]; intros st c Hc Hall; simpl.
  - by rewrite (withHands_same _ _ _ Hc).
  - apply Forall_cons in Hall as [[h Hk] Hall]. rewrite Hk. unfold bind, modify.
    rewrite (updConn_hands ws (mapSet k h) st c Hc).
    rewrite (IH _ _ (withHands_lookup _ _ _ _ Hc) Hall). simpl.
    by rewrite withHands_twice.
Qed.

Lemma livehandListener_own ws keys : ∀ st c,
  conns st !! ws = Some c →
  forEach keys (λ key,
    modify (updConn ws (λ c, set_deadHands (mapDelete key (deadHands c)) c))) st =
  (Return tt, withHands ws (foldl (λ m k, mapDelete k m) (deadHands c) keys) st).
Proof.
  induction keys as [|k keys IH]; intros st c Hc; simpl.
  - by rewrite (withHands_same _ _ _ Hc).
  - unfold bind, modify.
    rewrite (updConn_hands ws (mapDelete k) st c Hc).
    rewrite (IH _ _ (withHands_lookup _ _ _ _ Hc)). simpl.
    by rewrite withHands_twice.
Qed.

Lemma claimed_get keys : ∀ (m : list (string * hand)) k h,
  k ∈ keys → parseKey k = Some h →
  mapGet k (foldl (λ m k, match parseKey k with Some h => mapSet k h m | None => m end)
              m keys) = Some h.
Proof.
  induction keys as [|k' keys IH] using rev_ind; intros m k h Hin Hk.
  - by apply elem_of_nil in Hin.
  - rewrite foldl_app. simpl.
    destruct (decide (k = k')) as [<-|Hne].
    + rewrite Hk. apply mapGet_mapSet.
    + apply elem_of_app in Hin as [Hin|Hin%list_elem_of_singleton]; [|done].
      destruct (parseKey k') as [h'|]; [rewrite mapGet_mapSet_ne by done|];
        by apply IH.
Qed.

Lemma claimed_filter keys' keys : ∀ (m : list (string * hand)),
  keys' ⊆ keys →
  filter (λ kv, kv.1 ∉ keys)
    (foldl (λ m k, match parseKey k with Some h => mapSet k h m | None => m end) m keys')
  = filter (λ kv, kv.1 ∉ keys) m.
Proof.
  induction keys' as [|k keys' IH]; intros m Hsub; [done|]. simpl.
  rewrite IH by (intros x Hx; apply Hsub; by right).
  destruct (parseKey k); [|done]. apply filter_mapSet. apply Hsub. by left.
Qed.

(** X10.  The hand listeners of a session, for events naming its own
    player.  Dead hands with well-formed keys are all recorded: after
    the event the table gives for each key the array, or the array and
    the key of the map, the key names.  A live-hand event takes the keys
    it lists off the table and keeps the other entries, in their order;
    so dead hands followed by live hands for the same keys leaves of
    the table what it held under other keys.  Nothing but the table of
    the session changes. *)
Theorem hands_claimed_and_released ws (keys : list string) st (c : conn) :
  conns st !! ws = Some c → Forall (λ k, is_Some (parseKey k)) keys →
  ∃ claimed,
    deadhandListener ws keys (playerId c) st = (Return tt, withHands ws claimed st) ∧
    (∀ k h, k ∈ keys → parseKey k = Some h → mapGet k claimed = Some h) ∧
    (∀ k, k ∉ keys → mapGet k claimed = mapGet k (deadHands c)) ∧
    livehandListener ws keys (playerId c) (withHands ws claimed st) =
      (Return tt, withHands ws (filter (λ kv, kv.1 ∉ keys) (deadHands c)) st) ∧
    livehandListener ws keys (playerId c) st =
      (Return tt, withHands ws (filter (λ kv, kv.1 ∉ keys) (deadHands c)) st).
Proof.
  intros Hc Hall.
  exists (foldl (λ m k, match parseKey k with Some h => mapSet k h m | None => m end)
            (deadHands c) keys).
  split; [|split; [|split; [|split]]].
  - unfold deadhandListener, bind. rewrite (conn_at_Some _ _ _ Hc).
    rewrite decide_True by done. by apply deadhandListener_own.
  - intros k h Hin Hk. by apply claimed_get.
  - intros k Hk. clear Hall. revert Hk. generalize (deadHands c).
    induction keys as [|k' keys IH]; intros m Hk; [done|]. simpl.
    rewrite IH by (intros Hin; apply Hk; by right).
    destruct (parseKey k'); [|done]. apply mapGet_mapSet_ne.
    intros ->. apply Hk. by left.
  - unfold livehandListener, bind.
    rewrite (conn_at_Some _ _ _ (withHands_lookup _ _ _ _ Hc)). simpl.
    rewrite decide_True by done.
    rewrite (livehandListener_own ws keys _ _ (withHands_lookup _ _ _ _ Hc)). simpl.
    rewrite withHands_twice, mapDelete_all. by rewrite claimed_filter.
  - unfold livehandListener, bind. rewrite (conn_at_Some _ _ _ Hc).
    rewrite decide_True by done.
    rewrite (livehandListener_own ws keys _ _ Hc). by rewrite mapDelete_all.
Qed.

End Tables.

(** ** The classes of frames *)

Section Classes.
Context `{Collaborators}.
Implicit Types (st : state) (ws : nat).

Lemma step_message_steady ws d st c :
  spinning st = false → conns st !! ws = Some c → listeners c = [onsession] →
  step (message ws d) st = snd (sessionListener ws d st).
Proof.
  intros Hsp Hc Hl. unfold step. rewrite Hsp.
  by rewrite (dispatchMessage_steady _ _ _ _ Hc Hl).
Qed.

(** X11.  A binary frame whose method is in none of the six method sets
    is dropped: the listener runs and that is all; nothing is sent, to
    the sender neither, nothing is logged and no client is touched. *)
Theorem unclassified_frame_dropped ws (b : list Byte.byte) st (c : conn)
    (method : Z) (args : list jsval) :
  spinning st = false →
  conns st !! ws = Some c → listeners c = [onsession] → quit c = false →
  parseUpdateObject b = (method, args) →
  dataHandlesMethod method = false → crdtHandlesMethod method = false →
  lockHandlesMethod method = false → ircHandlesMethod method = false →
  networkedAudioClientHandlesMethod method = false →
  networkedVideoClientHandlesMethod method = false →
  step (message ws (Binary b)) st =
    set_trace (trace st ++ [Dispatched ws (Binary b)]) st.
Proof.
  intros Hsp Hc Hl Hq Hp Hd Hcr Hlo Hi Ha Hv.
  rewrite (step_message_steady _ _ _ _ Hsp Hc Hl).
  rewrite (sessionListener_binary _ _ _ _ Hc Hq).
  rewrite (handleBinaryMessage_unfold _ _ _ _ Hp), Hd, Hcr, Hlo, Hi, Ha, Hv.
  reflexivity.
Qed.

(** The message a lock frame is turned into. *)
Definition lockEvent (method : Z) (pid : option string) (args : list jsval)
    : option MessageEvent :=
  let data := JObj [("playerId", from_option JStr JNull pid);
                    ("lockName", default JUndefined (head args))] in
  if Z.eqb method LOCK_REQUEST then Some (mkMessageEvent "lockRequest" data)
  else if Z.eqb method LOCK_RESPONSE then Some (mkMessageEvent "lockResponse" data)
  else if Z.eqb method LOCK_RELEASE then Some (mkMessageEvent "lockRelease" data)
  else None.

(** X12.  A frame of the lock class only: the lock client of the room
    is handed the request, response or release named by the method, with
    the [playerId] of the sender and the first argument as the lock
    name; for another method of the class a warning is logged and the
    lock client is handed [undefined].  The coordinator sends the frame
    to nobody and answers nothing. *)
Theorem lock_frame_handled ws (b : list Byte.byte) st (c : conn)
    (method : Z) (args : list jsval) (lc : LockClient) :
  spinning st = false →
  conns st !! ws = Some c → listeners c = [onsession] → quit c = false →
  parseUpdateObject b = (method, args) →
  lockHandlesMethod method = true →
  dataHandlesMethod method = false → crdtHandlesMethod method = false →
  ircHandlesMethod method = false →
  networkedAudioClientHandlesMethod method = false →
  networkedVideoClientHandlesMethod method = false →
  lockPromiseHeap st !! lockClientPromise c = Some lc →
  let m := lockEvent method (playerId c) args in
  step (message ws (Binary b)) st =
    set_lockPromiseHeap (<[lockClientPromise c := lockHandle lc m]> (lockPromiseHeap st))
      (set_console
         (console st ++ match m with
                        | Some _ => []
                        | None => ["unrecognized lock method"]
                        end)
         (set_trace (trace st ++ [Dispatched ws (Binary b)]) st)).
Proof.
  intros Hsp Hc Hl Hq Hp Hlo Hd Hcr Hi Ha Hv Hlc m.
  rewrite (step_message_steady _ _ _ _ Hsp Hc Hl).
  rewrite (sessionListener_binary _ _ _ _ Hc Hq).
  rewrite (handleBinaryMessage_unfold _ _ _ _ Hp), Hd, Hcr, Hlo, Hi, Ha, Hv.
  set (st1 := set_trace _ st).
  assert (Hc1 : conns st1 !! ws = Some c) by done.
  unfold bind at 1. unfold ret at 1. unfold bind at 1. unfold ret at 1.
  unfold bind at 1. unfold bind at 1. rewrite (conn_at_Some _ _ _ Hc1).
  subst m. unfold lockEvent, lockMessage.
  destruct (Z.eqb method LOCK_REQUEST); [|destruct (Z.eqb method LOCK_RESPONSE);
    [|destruct (Z.eqb method LOCK_RELEASE)]].
  1-3: unfold ret at 1; unfold bind at 1; unfold lockClient_handle;
    unfold bind at 1; rewrite (conn_at_Some _ _ _ Hc1);
    unfold bind at 1; rewrite (lockClient_at_Some _ _ _ _ Hc1 Hlc);
    unfold modify, bind, ret; simpl; by rewrite app_nil_r.
  unfold bind at 2. unfold console_log at 1. unfold modify at 1.
  unfold ret at 1. unfold bind at 1.
  set (st2 := set_console _ st1).
  assert (Hc2 : conns st2 !! ws = Some c) by done.
  unfold lockClient_handle. unfold bind at 1. rewrite (conn_at_Some _ _ _ Hc2).
  unfold bind at 1. rewrite (lockClient_at_Some _ _ _ _ Hc2 Hlc).
  reflexivity.
Qed.

(** X13.  A frame of the document class only, the peers taking the
    sends: the first argument is applied to the document of the room,
    the listener of lines 292-296 puts the state of the document into
    the storage under ['crdt'] (the document client announcing the
    update it applied), and the bytes of the frame are sent to every
    session of the list but the sender; the sender is sent nothing. *)
Theorem crdt_frame_stored_and_proxied ws (b : list Byte.byte) st (c : conn)
    (method : Z) (args : list jsval) (cc : CrdtClient) :
  spinning st = false →
  conns st !! ws = Some c → listeners c = [onsession] → quit c = false →
  parseUpdateObject b = (method, args) →
  crdtHandlesMethod method = true →
  dataHandlesMethod method = false → lockHandlesMethod method = false →
  ircHandlesMethod method = false →
  networkedAudioClientHandlesMethod method = false →
  networkedVideoClientHandlesMethod method = false →
  crdtPromiseHeap st !! crdtClientPromise c = Some (crdtResolved cc) →
  let peers := filter (λ s, s ≠ ws) (sessions st) in
  accepting (conns st) peers →
  let cc' := crdtUpdate cc (default JUndefined (head args)) in
  step (message ws (Binary b)) st =
    set_trace (trace st ++ Dispatched ws (Binary b) :: sends (Binary b) peers)
      (set_storageLog (storageLog st ++ [storagePut "crdt" (getStateAsUpdate cc')])
         (set_storage (<["crdt" := getStateAsUpdate cc']> (storage st))
            (set_crdtPromiseHeap
               (<[crdtClientPromise c := crdtResolved cc']> (crdtPromiseHeap st)) st))).
Proof.
  intros Hsp Hc Hl Hq Hp Hcr Hd Hlo Hi Ha Hv Hcc peers Hacc cc'.
  rewrite (step_message_steady _ _ _ _ Hsp Hc Hl).
  rewrite (sessionListener_binary _ _ _ _ Hc Hq).
  rewrite (handleBinaryMessage_unfold _ _ _ _ Hp), Hd, Hcr, Hlo, Hi, Ha, Hv.
  set (st1 := set_trace _ st).
  assert (Hc1 : conns st1 !! ws = Some c) by done.
  unfold bind at 1. unfold ret at 1. unfold bind at 1. unfold bind at 1.
  unfold crdtClient_update. unfold bind at 1. rewrite (conn_at_Some _ _ _ Hc1).
  unfold bind at 1. rewrite (crdtClient_at_Some _ _ _ _ Hc1 Hcc).
  unfold bind at 1. unfold modify at 1. unfold modify at 1.
  match goal with |- context [proxyMessageToPeers ws ?m ?s] =>
    rewrite (proxyMessageToPeers_ok ws m s) by exact Hacc end.
  unfold bind, ret. simpl. unfold set_trace. simpl. by rewrite <- app_assoc.
Qed.

(** X14.  A frame on a socket whose session has quit (its close handler
    ran) is not handled: the listener logs [closing due to webasocket
    broken] and closes the socket with code 1011, whatever the frame is;
    nothing is sent to anyone and no client is touched. *)
Theorem frame_after_quit ws (d : wsdata) st (c : conn) :
  spinning st = false →
  conns st !! ws = Some c → listeners c = [onsession] → quit c = true →
  step (message ws d) st =
    updConn ws (set_closed (Some (1011%Z, "WebSocket broken.")))
      (set_console (console st ++ ["closing due to webasocket broken"])
         (set_trace (trace st ++ [Dispatched ws d]) st)).
Proof.
  intros Hsp Hc Hl Hq.
  rewrite (step_message_steady _ _ _ _ Hsp Hc Hl).
  rewrite sessionListener_unfold. simpl.
  unfold sessionListener_body, tryCatch. unfold bind at 1.
  erewrite conn_at_Some by (simpl; exact Hc). rewrite Hq. reflexivity.
Qed.

End Classes.

(** ** The close handler *)

Section Closing.
Context `{Collaborators}.
Implicit Types (st : state) (ws : nat).

(** The sessions other than [ws], and the state the handler works in:
    [quit] set, the session off the list. *)
Definition quitted (ws : nat) (st : state) : state :=
  updConn ws (set_quit true)
    (set_sessions (filter (λ member, member ≠ ws) (sessions st)) st).

Lemma quitted_lookup ws st c :
  conns st !! ws = Some c → conns (quitted ws st) !! ws = Some (set_quit true c).
Proof. intros Hc. simpl. by rewrite list_lookup_alter_eq, Hc. Qed.

Lemma quitted_absent ws st : ws ∉ sessions (quitted ws st).
Proof. by intros [? _]%list_elem_of_filter. Qed.

Lemma quitted_sendFails ws st t :
  sendFails <$> conns (quitted ws st) !! t = sendFails <$> conns st !! t.
Proof.
  simpl. destruct (decide (ws = t)) as [<-|Hne].
  - rewrite list_lookup_alter_eq. by destruct (conns st !! ws).
  - by rewrite list_lookup_alter_ne.
Qed.

Lemma reached_ext cs cs' targets :
  (∀ t, sendFails <$> cs' !! t = sendFails <$> cs !! t) →
  reached cs' targets = reached cs targets ∧ firstError cs' targets = firstError cs targets.
Proof.
  intros Hs. induction targets as [|t ts [IH1 IH2]]; [done|]. simpl.
  specialize (Hs t).
  destruct (cs' !! t) as [c'|], (cs !! t) as [c|]; simpl in Hs; try done.
  injection Hs as ->. destruct (sendFails c); [done|]. by rewrite IH1, IH2.
Qed.

Lemma quitted_accepting ws st targets :
  accepting (conns st) targets → accepting (conns (quitted ws st)) targets.
Proof.
  intros Hacc t Ht. destruct (Hacc t Ht) as (c & Hc & Hf).
  pose proof (quitted_sendFails ws st t) as Hs. rewrite Hc in Hs.
  destruct (conns (quitted ws st) !! t) as [c'|]; [|done].
  exists c'. split; [done|]. simpl in Hs. congruence.
Qed.

(** X15.  The close handler of a session whose peers take the sends:
    the session is marked [quit] and taken off the list, the removes of
    its dead hands go to the peers, the lock client is asked to release
    what the session holds, and the handler is unregistered for both
    events; a second ['close'] or ['error'] event on the socket changes
    nothing. *)
Theorem close_releases_and_unregisters ws st (c : conn) (dc : DataClient)
    (ls : list nat) (lc : LockClient) :
  spinning st = false →
  conns st !! ws = Some c → closeOrErrorHandler c = true →
  dataPromiseHeap st !! dataClientPromise c = Some (dataResolved dc ls) →
  lockPromiseHeap st !! lockClientPromise c = Some lc →
  let peers := filter (λ s, s ≠ ws) (sessions st) in
  accepting (conns st) peers →
  let st' := step (closeOrError ws) st in
  st' =
    updConn ws (set_closeOrErrorHandler false)
      (set_lockPromiseHeap
         (<[lockClientPromise c := serverUnlockSession lc ws (playerId c)]>
            (lockPromiseHeap st))
         (set_trace (trace st ++ broadcasts peers (removals dc (deadHands c)))
            (quitted ws st))) ∧
  conns st' !! ws = Some (set_closeOrErrorHandler false (set_quit true c)) ∧
  step (closeOrError ws) st' = st'.
Proof.
  intros Hsp Hc Hh Hp Hl peers Hacc st'.
  assert (Hc2 := quitted_lookup _ _ _ Hc).
  assert (Hst' : st' =
    updConn ws (set_closeOrErrorHandler false)
      (set_lockPromiseHeap
         (<[lockClientPromise c := serverUnlockSession lc ws (playerId c)]>
            (lockPromiseHeap st))
         (set_trace (trace st ++ broadcasts peers (removals dc (deadHands c)))
            (quitted ws st)))).
  { unfold st', step. rewrite Hsp, Hc, Hh.
    rewrite closeOrError_handler_unfold. fold (quitted ws st).
    unfold tryCatch, bind at 1.
    rewrite (_triggerDeadHands_spec ws (quitted ws st) _ dc ls Hc2 Hp
               (quitted_absent ws st) (quitted_accepting _ _ _ Hacc)).
    unfold _triggerUnlocks, bind at 1.
    match goal with |- context [conn_at ws ?s] =>
      rewrite (conn_at_Some ws s _ Hc2) end.
    unfold bind at 1.
    match goal with |- context [lockClient_at ws ?s] =>
      rewrite (lockClient_at_Some ws s _ lc Hc2 Hl) end.
    reflexivity. }
  assert (Hc' : conns st' !! ws = Some (set_closeOrErrorHandler false (set_quit true c))).
  { rewrite Hst'. simpl. by rewrite !list_lookup_alter_eq, Hc. }
  split; [exact Hst'|]. split; [exact Hc'|].
  unfold step. rewrite Hc'. simpl. by destruct (spinning st').
Qed.

Lemma deadHands_refused ws st c dc ls err :
  conns st !! ws = Some c →
  dataPromiseHeap st !! dataClientPromise c = Some (dataResolved dc ls) →
  ws ∉ sessions st → firstError (conns st) (sessions st) = Some err →
  ∀ hands T m ms, removals dc hands = m :: ms →
    forEach hands (λ entry : string * hand,
      bind (dataClient_at ws) (λ '(dc, _),
        let a := arrayId entry.2 in
        match arrayIndexId entry.2 with
        | Some i =>
            if hasKey dc a i then
              proxyMessageToPeers ws (Binary (serializeMessage (removeUpdate dc a i)))
            else ret tt
        | None =>
            forEach (getKeys dc a) (λ i,
              proxyMessageToPeers ws (Binary (serializeMessage (removeUpdate dc a i))))
        end)) (set_trace T st) =
    (Throw err,
     set_trace (T ++ sends (Binary (serializeMessage m))
                       (reached (conns st) (sessions st))) st).
Proof.
  intros Hc Hp Hws Herr.
  assert (Hpeers : filter (λ s, s ≠ ws) (sessions st) = sessions st).
  { apply filter_all, Forall_forall. intros s Hs ->. done. }
  assert (Hproxy : ∀ T m,
    proxyMessageToPeers ws m (set_trace T st) =
      (Throw err, set_trace (T ++ sends m (reached (conns st) (sessions st))) st)).
  { intros T m. rewrite proxyMessageToPeers_spec. simpl. by rewrite Hpeers, Herr. }
  induction hands as [|entry hands IH]; intros T m ms Hrem; [done|].
  simpl forEach. unfold bind at 1. unfold bind at 1.
  rewrite (dataClient_at_Some ws (set_trace T st) c dc ls Hc Hp).
  cbv zeta. unfold removals in Hrem. simpl in Hrem. fold (removals dc hands) in Hrem.
  destruct (arrayIndexId entry.2) as [i|].
  - destruct (hasKey dc (arrayId entry.2) i).
    + injection Hrem as <- _. by rewrite Hproxy.
    + unfold ret. by apply (IH T m ms).
  - destruct (getKeys dc (arrayId entry.2)) as [|k ks].
    + simpl. unfold ret. by apply (IH T m ms).
    + injection Hrem as <- _. simpl. unfold bind at 1. by rewrite Hproxy.
Qed.

(** X16.  The close handler when a peer refuses a send while the
    removes of the dead hands go out: the first remove reaches the peers
    before the refusing one and the loop ends there; the error is
    logged and thrown on; the other removes are not sent and the lock
    client is not asked to release anything.  The session is marked
    [quit] and off the list all the same, and the handler is
    unregistered. *)
Theorem close_cut_short ws st (c : conn) (dc : DataClient) (ls : list nat)
    (m : MessageEvent) (ms : list MessageEvent) (err : string) :
  spinning st = false →
  conns st !! ws = Some c → closeOrErrorHandler c = true →
  dataPromiseHeap st !! dataClientPromise c = Some (dataResolved dc ls) →
  let peers := filter (λ s, s ≠ ws) (sessions st) in
  removals dc (deadHands c) = m :: ms →
  firstError (conns st) peers = Some err →
  closeOrError_handler ws st =
    (Throw err,
     updConn ws (set_closeOrErrorHandler false)
       (set_console (console st ++ [err])
          (set_trace (trace st ++ sends (Binary (serializeMessage m))
                                    (reached (conns st) peers))
             (quitted ws st)))) ∧
  step (closeOrError ws) st = snd (closeOrError_handler ws st) ∧
  lockPromiseHeap (step (closeOrError ws) st) = lockPromiseHeap st.
Proof.
  intros Hsp Hc Hh Hp peers Hrem Herr.
  assert (Hc2 := quitted_lookup _ _ _ Hc).
  destruct (reached_ext (conns st) (conns (quitted ws st)) peers
              (quitted_sendFails ws st)) as [Hreach Hfirst].
  assert (Hrun : closeOrError_handler ws st =
    (Throw err,
     updConn ws (set_closeOrErrorHandler false)
       (set_console (console st ++ [err])
          (set_trace (trace st ++ sends (Binary (serializeMessage m))
                                    (reached (conns st) peers))
             (quitted ws st))))).
  { unfold closeOrError_handler.
    unfold tryCatch. unfold bind at 1 2. unfold modify at 1 2.
    change (set_sessions _ (updConn ws (set_quit true) st)) with (quitted ws st).
    unfold bind at 1. unfold _triggerDeadHands. unfold bind at 1.
    rewrite (conn_at_Some _ _ _ Hc2).
    change (deadHands (set_quit true c)) with (deadHands c).
    replace (quitted ws st) with (set_trace (trace st) (quitted ws st)) at 1
      by (unfold quitted, updConn, set_conns, set_sessions, set_trace; by destruct st).
    rewrite (deadHands_refused ws (quitted ws st) _ dc ls err Hc2 Hp
               (quitted_absent ws st)) with (m := m) (ms := ms); [| |exact Hrem].
    - change (sessions (quitted ws st)) with peers. rewrite Hreach. reflexivity.
    - change (sessions (quitted ws st)) with peers. by rewrite Hfirst. }
  split; [exact Hrun|].
  assert (Hstep : step (closeOrError ws) st = snd (closeOrError_handler ws st)).
  { unfold step. by rewrite Hsp, Hc, Hh. }
  split; [exact Hstep|]. by rewrite Hstep, Hrun.
Qed.

Lemma deadHands_silent ws st c dc ls :
  conns st !! ws = Some c →
  dataPromiseHeap st !! dataClientPromise c = Some (dataResolved dc ls) →
  ∀ hands T, removals dc hands = [] →
    forEach hands (λ entry : string * hand,
      bind (dataClient_at ws) (λ '(dc, _),
        let a := arrayId entry.2 in
        match arrayIndexId entry.2 with
        | Some i =>
            if hasKey dc a i then
              proxyMessageToPeers ws (Binary (serializeMessage (removeUpdate dc a i)))
            else ret tt
        | None =>
            forEach (getKeys dc a) (λ i,
              proxyMessageToPeers ws (Binary (serializeMessage (removeUpdate dc a i))))
        end)) (set_trace T st) =
    (Return tt, set_trace T st).
Proof.
  intros Hc Hp. induction hands as [|entry hands IH]; intros T Hrem; [done|].
  simpl forEach. unfold bind at 1. unfold bind at 1.
  rewrite (dataClient_at_Some ws (set_trace T st) c dc ls Hc Hp).
  cbv zeta. unfold removals in Hrem. simpl in Hrem. fold (removals dc hands) in Hrem.
  apply app_eq_nil in Hrem as [Hhere Hrest].
  destruct (arrayIndexId entry.2) as [i|].
  - destruct (hasKey dc (arrayId entry.2) i); [done|]. unfold ret. by apply IH.
  - destruct (getKeys dc (arrayId entry.2)) as [|k ks]; [|done].
    simpl. unfold ret. by apply IH.
Qed.

(** The claim as the spec words it: every remove the cleanup
    synthesizes reaches every peer whose transport takes it. *)
Definition removesReachPeers (ws : nat) (st : state) : Prop :=
  ∀ c dc ls m t ct,
    conns st !! ws = Some c →
    dataPromiseHeap st !! dataClientPromise c = Some (dataResolved dc ls) →
    m ∈ removals dc (deadHands c) →
    t ∈ sessions st → t ≠ ws → conns st !! t = Some ct → sendFails ct = false →
    Sent t (Binary (serializeMessage m)) ∈
      drop (length (trace st)) (trace (step (closeOrError ws) st)).

(** C8, amended.  The session [ws] terminates: for every entry of its
    table of dead hands, in the order of the table, an entry with an
    [arrayIndexId] yields the remove update of that map only if the
    array still has the key, an entry without yields the remove update
    of every [arrayIndexId] the array has now.  When the transport of
    every other session of the list takes the sends, each of these
    updates is serialized and sent to every one of them; when one
    refuses, the first update is sent to the sessions that come before
    the first refusing one and the cleanup ends there, no other update
    being sent.  The data client is what it was, as is every table of
    dead hands. *)
Theorem deadhand_cleanup (ws : nat) st (c : conn) (dc : DataClient) (ls : list nat)
    (lc : LockClient) :
  spinning st = false →
  conns st !! ws = Some c → closeOrErrorHandler c = true →
  dataPromiseHeap st !! dataClientPromise c = Some (dataResolved dc ls) →
  lockPromiseHeap st !! lockClientPromise c = Some lc →
  let peers := filter (λ s, s ≠ ws) (sessions st) in
  let st' := step (closeOrError ws) st in
  trace st' =
    trace st ++
      match firstError (conns st) peers, removals dc (deadHands c) with
      | Some _, m :: _ => sends (Binary (serializeMessage m)) (reached (conns st) peers)
      | _, ms => broadcasts peers ms
      end ∧
  dataPromiseHeap st' = dataPromiseHeap st ∧
  sessions st' = peers ∧
  Forall2 (λ c c', deadHands c' = deadHands c) (conns st) (conns st').
Proof.
  intros Hsp Hc Hh Hp Hl peers st'.
  assert (Hst' : st' = snd (closeOrError_handler ws st)).
  { unfold st', step. by rewrite Hsp, Hc, Hh. }
  assert (Hc2 := quitted_lookup _ _ _ Hc).
  destruct (reached_ext (conns st) (conns (quitted ws st)) peers
              (quitted_sendFails ws st)) as [Hreach Hfirst].
  assert (Hunlock : ∀ T,
    _triggerUnlocks ws (set_trace T (quitted ws st)) =
      (Return tt,
       set_lockPromiseHeap
         (<[lockClientPromise c := serverUnlockSession lc ws (playerId c)]>
            (lockPromiseHeap st)) (set_trace T (quitted ws st)))).
  { intros T. unfold _triggerUnlocks, bind at 1.
    rewrite (conn_at_Some ws (set_trace T (quitted ws st)) _ Hc2).
    unfold bind at 1.
    by rewrite (lockClient_at_Some ws (set_trace T (quitted ws st)) _ lc Hc2 Hl). }
  assert (Hdead : ∃ r,
    _triggerDeadHands ws (quitted ws st) =
      (r, set_trace (trace st ++
             match firstError (conns st) peers, removals dc (deadHands c) with
             | Some _, m :: _ =>
                 sends (Binary (serializeMessage m)) (reached (conns st) peers)
             | _, ms => broadcasts peers ms
             end) (quitted ws st))).
  { destruct (firstError (conns st) peers) as [err|] eqn:Herr;
      [destruct (removals dc (deadHands c)) as [|m ms] eqn:Hrem|].
    - exists (Return tt). unfold _triggerDeadHands. unfold bind at 1.
      rewrite (conn_at_Some _ _ _ Hc2).
      change (deadHands (set_quit true c)) with (deadHands c).
      replace (quitted ws st) with (set_trace (trace st) (quitted ws st)) at 1
        by (unfold quitted, updConn, set_conns, set_sessions, set_trace; by destruct st).
      rewrite (deadHands_silent ws (quitted ws st) _ dc ls Hc2 Hp _ _ Hrem).
      unfold broadcasts. simpl. by rewrite app_nil_r.
    - exists (Throw err). unfold _triggerDeadHands. unfold bind at 1.
      rewrite (conn_at_Some _ _ _ Hc2).
      change (deadHands (set_quit true c)) with (deadHands c).
      replace (quitted ws st) with (set_trace (trace st) (quitted ws st)) at 1
        by (unfold quitted, updConn, set_conns, set_sessions, set_trace; by destruct st).
      rewrite (deadHands_refused ws (quitted ws st) _ dc ls err Hc2 Hp
                 (quitted_absent ws st)) with (m := m) (ms := ms); [| |exact Hrem].
      + change (sessions (quitted ws st)) with peers. by rewrite Hreach.
      + change (sessions (quitted ws st)) with peers. by rewrite Hfirst.
    - exists (Return tt).
      apply (_triggerDeadHands_spec ws (quitted ws st) _ dc ls Hc2 Hp
               (quitted_absent ws st)
               (quitted_accepting _ _ _ (firstError_accepting _ _ Herr))). }
  destruct Hdead as (r & Hdead).
  assert (Hfinal : ∃ s,
    snd (closeOrError_handler ws st) = updConn ws (set_closeOrErrorHandler false) s ∧
    trace s = trace st ++
      match firstError (conns st) peers, removals dc (deadHands c) with
      | Some _, m :: _ => sends (Binary (serializeMessage m)) (reached (conns st) peers)
      | _, ms => broadcasts peers ms
      end ∧
    dataPromiseHeap s = dataPromiseHeap st ∧ sessions s = peers ∧
    conns s = conns (quitted ws st)).
  { rewrite closeOrError_handler_unfold. fold (quitted ws st).
    unfold tryCatch, bind at 1. rewrite Hdead.
    destruct r as [[]|err].
    - rewrite Hunlock. eexists. split; [reflexivity|]. done.
    - eexists. split; [reflexivity|]. done. }
  destruct Hfinal as (s & Hs & Htr & Hheap & Hss & Hcs).
  rewrite Hst', Hs. simpl. split; [exact Htr|]. split; [exact Hheap|].
  split; [exact Hss|]. rewrite Hcs. simpl.
  apply Forall2_alter_r; [apply Forall2_alter_r|].
  - by apply Forall_Forall2_diag, Forall_forall.
  - intros x y _ _ E. exact E.
  - intros x y _ _ E. exact E.
Qed.

End Closing.

(** ** The attach sequence, past the snapshots *)

Section Attaching.
Context `{Collaborators}.
Implicit Types (st : state) (ws : nat).

(** The join message [_sendJoinMessage] makes, if it makes one. *)
Definition joined (pid : option string) : option MessageEvent :=
  match pid with
  | Some p => if nonempty p then Some (joinMessage p) else None
  | None => None
  end.

Lemma dispatchedOf_sends ws m targets : dispatchedOf ws (sends m targets) = [].
Proof. unfold dispatchedOf, sends. by induction targets. Qed.

Lemma length_replayed fuel : ∀ q i,
  (i < length q)%nat → length (replayed fuel q i) = fuel.
Proof.
  induction fuel as [|fuel IH]; intros q i Hi.
  - simpl. by destruct (q !! i).
  - simpl. destruct (lookup_lt_is_Some_2 _ _ Hi) as [d ->]. simpl. f_equal.
    apply IH. rewrite length_app. simpl. lia.
Qed.

(** [handleSession] from the snapshots to the call of the function
    [_pauseWebSocket] returned. *)
Lemma afterSnapshots_reach fuel ws pid dc ls st c :
  conns st !! ws = Some c →
  dataPromiseHeap st !! dataClientPromise c = Some (dataResolved dc ls) →
  let peers := filter (λ s, s ≠ ws) (sessions st) in
  accepting (conns st) peers →
  (∀ l, l ∈ ls ++ [ws] → is_Some (conns st !! l)) →
  (∀ j, joined pid = Some j → Forall wellFormed (emitUpdate dc j).2) →
  ∃ sD cD,
    afterSnapshots fuel ws pid dc ls st = _resumeWebsocket fuel ws sD ∧
    conns sD !! ws = Some cD ∧
    cD = set_closeOrErrorHandler true
           (set_listeners (listeners c ++ [onsession]) (set_deadHands (deadHands cD) c)) ∧
    trace sD = trace st ++ match joined pid with
                           | Some j => sends (Binary (serializeMessage j)) peers
                           | None => []
                           end ∧
    sessions sD = sessions st ∧
    dataPromiseHeap sD =
      <[dataClientPromise c :=
          dataResolved match joined pid with
                       | Some j => (emitUpdate dc j).1
                       | None => dc
                       end (ls ++ [ws])]> (dataPromiseHeap st) ∧
    spinning sD = spinning st.
Proof.
  intros Hc Hp peers Hacc Hls Hwf. unfold afterSnapshots.
  unfold bind at 1. unfold set_dataClient, bind at 1. rewrite (conn_at_Some _ _ _ Hc).
  unfold modify at 1.
  set (sA := set_dataPromiseHeap _ st).
  assert (HcA : conns sA !! ws = Some c) by done.
  assert (HpA : dataPromiseHeap sA !! dataClientPromise c
                = Some (dataResolved dc (ls ++ [ws]))).
  { simpl. apply list_lookup_insert_eq. by apply lookup_lt_Some in Hp. }
  assert (Hjoin : ∃ sB,
    _sendJoinMessage ws pid sA = (Return tt, sB) ∧
    (∃ cB, conns sB !! ws = Some cB ∧ cB = set_deadHands (deadHands cB) c) ∧
    trace sB = trace st ++ match joined pid with
                           | Some j => sends (Binary (serializeMessage j)) peers
                           | None => []
                           end ∧
    sessions sB = sessions st ∧
    dataPromiseHeap sB =
      <[dataClientPromise c :=
          dataResolved match joined pid with
                       | Some j => (emitUpdate dc j).1
                       | None => dc
                       end (ls ++ [ws])]> (dataPromiseHeap st) ∧
    spinning sB = spinning st).
  { assert (Hnone : joined pid = None → _sendJoinMessage ws pid = ret tt).
    { unfold joined, _sendJoinMessage. destruct pid as [p|]; [|done].
      by destruct (nonempty p). }
    destruct (joined pid) as [j|] eqn:Hj; cycle 1.
    { rewrite (Hnone eq_refl). exists sA. split; [done|].
      split; [exists c; split; [done|by destruct c]|].
      split; [simpl; by rewrite app_nil_r|]. done. }
    assert (Hsome : ∃ p, pid = Some p ∧ nonempty p = true ∧ j = joinMessage p).
    { unfold joined in Hj. destruct pid as [p|]; [|done].
      destruct (nonempty p) eqn:Hn; [|done]. injection Hj as <-. eauto. }
    destruct Hsome as (p & -> & Hn & ->).
    unfold _sendJoinMessage. rewrite Hn.
    destruct (dataClient_emitUpdate_ok ws (joinMessage p) sA c dc (ls ++ [ws])
                HcA HpA Hls (Hwf _ eq_refl)) as (sB & Hrun & Ho).
    unfold bind at 1. rewrite Hrun.
    set (sA' := set_dataPromiseHeap _ sA) in Ho.
    assert (HaccB : accepting (conns sB) (filter (λ s, s ≠ ws) (sessions sB))).
    { destruct Ho as [E F]. rewrite E. simpl.
      apply (accepting_onlyHands sA' sB); [by split|exact Hacc]. }
    rewrite (proxyMessageToPeers_ok ws _ sB HaccB).
    eexists. split; [reflexivity|].
    destruct (onlyHands_lookup _ _ _ _ Ho HcA) as (cB & HcB & EB).
    destruct Ho as [E F]. rewrite E. simpl.
    split; [by exists cB|]. split; [done|]. split; [done|].
    split; [|done]. by rewrite list_insert_insert_eq. }
  destruct Hjoin as (sB & Hrun & (cB & HcB & EB) & HtB & HsB & HhB & HspB).
  unfold bind at 1. rewrite Hrun.
  unfold bind at 1. unfold modify at 1. unfold bind at 1. unfold modify at 1.
  eexists. eexists (set_closeOrErrorHandler true (set_listeners (listeners cB ++ [onsession]) cB)).
  split; [reflexivity|].
  split; [simpl; by rewrite !list_lookup_alter_eq, HcB|].
  split; [|done].
  rewrite EB at 3. simpl. by rewrite EB.
Qed.

(** X17.  The attach sequence of a session with a non-empty [playerId],
    no frame waiting, every transport taking the sends: after the entry
    into the list and the three snapshots, the join message of the
    player is emitted into the data client of the room and sent,
    serialized, to every session that was in the list before, not to the
    new one.  Then the session has its steady-state listener and its
    close handler, and the pause listener is gone. *)
Theorem attach_announces_join (sto : gmap string jsval) (es : list event)
    (ws fuel : nat) (c : conn) (dc : DataClient) (ls : list nat) (cc : CrdtClient)
    (lc : LockClient) (p : string) :
  let st := run es (init sto) in
  spinning st = false →
  conns st !! ws = Some c → stage c = suspended →
  playerId c = Some p → nonempty p = true →
  dataPromiseHeap st !! dataClientPromise c = Some (dataResolved dc ls) →
  crdtPromiseHeap st !! crdtClientPromise c = Some (crdtResolved cc) →
  lockPromiseHeap st !! lockClientPromise c = Some lc →
  queue c = [] →
  accepting (conns st) (ws :: sessions st) →
  (∀ l, l ∈ ls → is_Some (conns st !! l)) →
  Forall wellFormed (emitUpdate dc (joinMessage p)).2 →
  let st' := step (resume ws fuel) st in
  trace st' =
    trace st ++ Pushed ws ::
      snapshots ws dc cc (pushed ws (updConn ws (set_stage resumed) st))
      ++ sends (Binary (serializeMessage (joinMessage p))) (sessions st) ∧
  sessions st' = sessions st ++ [ws] ∧
  dataPromiseHeap st' !! dataClientPromise c =
    Some (dataResolved (emitUpdate dc (joinMessage p)).1 (ls ++ [ws])) ∧
  ∃ c', conns st' !! ws = Some c' ∧ listeners c' = [onsession] ∧
        closeOrErrorHandler c' = true ∧ stage c' = resumed ∧ queue c' = [] ∧
        quit c' = false.
Proof.
  intros st Hsp Hc Hst Hpid Hn Hd Hr Hl Hq Hacc Hls Hwf st'.
  destruct (inv_suspended _ (reachable_attached sto es) ws c Hc Hst)
    as (Hnot & Hlis & Hh & Hquit & _).
  destruct (Hacc ws) as (c0 & Hc0 & Hf); [by left|].
  assert (c0 = c) as -> by congruence.
  unfold st'. rewrite (step_resume ws fuel st c dc ls cc lc Hsp Hc Hst Hd Hr Hl), Hf.
  cbv zeta.
  set (st0 := updConn ws (set_stage resumed) st).
  set (sS := set_trace _ (set_sessions _ st0)).
  assert (HcS : conns sS !! ws = Some (set_stage resumed c)).
  { simpl. by rewrite list_lookup_alter_eq, Hc. }
  assert (Hpeers : filter (λ s, s ≠ ws) (sessions sS) = sessions st).
  { simpl. rewrite filter_app, filter_cons_False, filter_nil, app_nil_r
      by (intros Hne; by apply Hne).
    apply filter_all, Forall_forall. intros s Hs ->. done. }
  assert (Hstaged : ∀ t ct, conns st !! t = Some ct →
            ∃ ct', conns sS !! t = Some ct' ∧ sendFails ct' = sendFails ct).
  { intros t ct Hct. simpl. destruct (decide (ws = t)) as [<-|Hne].
    - rewrite list_lookup_alter_eq, Hct. simpl. eauto.
    - rewrite list_lookup_alter_ne by done. eauto. }
  destruct (afterSnapshots_reach fuel ws (playerId c) dc ls sS _ HcS Hd)
    as (sD & cD & Hrun & HcD & ED & HtD & HsD & HhD & HspD).
  { rewrite Hpeers. intros t Ht. destruct (Hacc t) as (ct & Hct & Hft); [by right|].
    destruct (Hstaged t ct Hct) as (ct' & Hct' & E). exists ct'. split; [done|congruence]. }
  { intros l [Hin|Hin]%elem_of_app.
    - destruct (Hls l Hin) as [cl Hcl]. destruct (Hstaged l cl Hcl) as (? & -> & _). eauto.
    - apply list_elem_of_singleton in Hin as ->. by rewrite HcS. }
  { rewrite Hpid. unfold joined. rewrite Hn. by intros j [= <-]. }
  change (playerId (set_stage resumed c)) with (playerId c) in Hrun.
  assert (HqD : queue cD = []) by (rewrite ED; simpl; exact Hq).
  assert (Hres : _resumeWebsocket fuel ws sD =
    (Return tt,
     updConn ws (λ c, set_listeners (filter (λ l, l ≠ onmessage) (listeners c)) c)
       (updConn ws (set_queue []) sD))).
  { unfold _resumeWebsocket, bind. by rewrite (replay_empty fuel ws sD cD HcD HqD). }
  rewrite Hrun, Hres. cbn [fst snd].
  rewrite Hpid in HtD, HhD. unfold joined in HtD, HhD. rewrite Hn in HtD, HhD.
  cbn [trace sessions dataPromiseHeap conns updConn set_conns].
  rewrite HtD, HsD, HhD, Hpeers.
  split; [simpl; by rewrite <- app_assoc|]. split; [done|].
  split; [apply list_lookup_insert_eq; by apply lookup_lt_Some in Hd|].
  rewrite !list_lookup_alter_eq, HcD. simpl. eexists. split; [reflexivity|].
  rewrite ED. simpl. rewrite Hlis. done.
Qed.

Lemma replay_listeners ws fuel : ∀ i st c,
  conns st !! ws = Some c → listeners c = [onmessage; onsession] →
  ∃ c', conns (snd (replay fuel ws i st)) !! ws = Some c' ∧
        listeners c' = [onmessage; onsession].
Proof.
  induction fuel as [|fuel IH]; intros i st c Hc Hl.
  - simpl. unfold bind. rewrite (conn_at_Some _ _ _ Hc).
    destruct (queue c !! i); simpl; eauto.
  - simpl. unfold bind at 1. rewrite (conn_at_Some _ _ _ Hc).
    destruct (queue c !! i) as [d|]; [|simpl; eauto].
    unfold bind. rewrite (dispatchMessage_both _ _ _ _ Hc Hl).
    set (st1 := updConn ws _ st).
    assert (Hc1 : conns st1 !! ws = Some (set_queue (queue c ++ [d]) c)).
    { simpl. by rewrite list_lookup_alter_eq, Hc. }
    destruct (sessionListener_conn ws d st1 ws _ Hc1) as (c2 & Hc2 & S).
    destruct S as (_&_&_&_&_&_&Hl2&_). simpl in Hl2.
    apply (IH (S i) _ c2 Hc2). congruence.
Qed.

(** X18.  The attach sequence of a session for which a frame is
    waiting in the queue, every transport taking the sends: the loop
    that replays the queue does not come to its end, whatever number of
    turns it is given.  The pause listener is removed after the loop
    only, so each frame the loop dispatches is put on the queue again:
    after [fuel] turns the steady-state listener has run [fuel] times,
    on the frames of the queue and then on them again, the loop is still
    running, and the object handles no other event. *)
Theorem replay_never_ends (sto : gmap string jsval) (es : list event)
    (ws : nat) (c : conn) (dc : DataClient) (ls : list nat) (cc : CrdtClient)
    (lc : LockClient) :
  let st := run es (init sto) in
  spinning st = false →
  conns st !! ws = Some c → stage c = suspended →
  dataPromiseHeap st !! dataClientPromise c = Some (dataResolved dc ls) →
  crdtPromiseHeap st !! crdtClientPromise c = Some (crdtResolved cc) →
  lockPromiseHeap st !! lockClientPromise c = Some lc →
  queue c ≠ [] →
  accepting (conns st) (ws :: sessions st) →
  (∀ l, l ∈ ls → is_Some (conns st !! l)) →
  (∀ j, joined (playerId c) = Some j → Forall wellFormed (emitUpdate dc j).2) →
  ∀ fuel,
    let st' := step (resume ws fuel) st in
    spinning st' = true ∧
    dispatchedOf ws (trace st') = replayed fuel (queue c) 0 ∧
    length (dispatchedOf ws (trace st')) = fuel ∧
    (∃ c', conns st' !! ws = Some c' ∧ listeners c' = [onmessage; onsession]) ∧
    ∀ e, step e st' = st'.
Proof.
  intros st Hsp Hc Hst Hd Hr Hl Hq Hacc Hls Hwf fuel st'.
  destruct (inv_suspended _ (reachable_attached sto es) ws c Hc Hst)
    as (Hnot & Hlis & Hh & Hquit & Hview).
  destruct (Hacc ws) as (c0 & Hc0 & Hf); [by left|].
  assert (c0 = c) as -> by congruence.
  set (st0 := updConn ws (set_stage resumed) st).
  set (sS := set_trace (trace st ++ Pushed ws :: snapshots ws dc cc (pushed ws st0))
               (set_sessions (sessions st ++ [ws]) st0)).
  assert (HcS : conns sS !! ws = Some (set_stage resumed c)).
  { simpl. by rewrite list_lookup_alter_eq, Hc. }
  assert (Hpeers : filter (λ s, s ≠ ws) (sessions sS) = sessions st).
  { simpl. rewrite filter_app, filter_cons_False, filter_nil, app_nil_r
      by (intros Hne; by apply Hne).
    apply filter_all, Forall_forall. intros s Hs ->. done. }
  assert (Hstaged : ∀ t ct, conns st !! t = Some ct →
            ∃ ct', conns sS !! t = Some ct' ∧ sendFails ct' = sendFails ct).
  { intros t ct Hct. simpl. destruct (decide (ws = t)) as [<-|Hne].
    - rewrite list_lookup_alter_eq, Hct. simpl. eauto.
    - rewrite list_lookup_alter_ne by done. eauto. }
  destruct (afterSnapshots_reach fuel ws (playerId c) dc ls sS _ HcS Hd)
    as (sD & cD & Hrun & HcD & ED & HtD & HsD & HhD & HspD).
  { rewrite Hpeers. intros t Ht. destruct (Hacc t) as (ct & Hct & Hft); [by right|].
    destruct (Hstaged t ct Hct) as (ct' & Hct' & E). exists ct'. split; [done|congruence]. }
  { intros l [Hin|Hin]%elem_of_app.
    - destruct (Hls l Hin) as [cl Hcl]. destruct (Hstaged l cl Hcl) as (? & -> & _). eauto.
    - apply list_elem_of_singleton in Hin as ->. by rewrite HcS. }
  { exact Hwf. }
  change (playerId (set_stage resumed c)) with (playerId c) in Hrun.
  assert (HlD : listeners cD = [onmessage; onsession]).
  { rewrite ED. simpl. by rewrite Hlis. }
  assert (HqD : queue cD = queue c) by (by rewrite ED).
  assert (Hlen : (0 < length (queue c))%nat) by (destruct (queue c); [done | simpl; lia]).
  assert (Hspin := replay_spins ws fuel 0 sD cD HcD HlD).
  rewrite HqD in Hspin. specialize (Hspin Hlen).
  assert (Hspec := replay_spec ws fuel 0 sD cD HcD HlD).
  destruct (replay_listeners ws fuel 0 sD cD HcD HlD) as (cE & HcE & HlE).
  assert (Hres : _resumeWebsocket fuel ws sD =
                 (Return tt, set_spinning true (snd (replay fuel ws 0 sD)))).
  { unfold _resumeWebsocket, bind.
    destruct (replay fuel ws 0 sD) as [o sE]. simpl in Hspin. by subst o. }
  assert (Hst' : st' = set_spinning true (snd (replay fuel ws 0 sD))).
  { unfold st'. rewrite (step_resume ws fuel st c dc ls cc lc Hsp Hc Hst Hd Hr Hl), Hf.
    cbv zeta. fold st0. fold sS. by rewrite Hrun, Hres. }
  assert (Hdisp : dispatchedOf ws (trace st') = replayed fuel (queue c) 0).
  { rewrite Hst'. cbn [trace set_spinning]. rewrite Hspec, HtD, HqD.
    rewrite dispatchedOf_app.
    assert (dispatchedOf ws (trace sS) = []) as ->.
    { unfold sS. cbn [trace set_trace]. rewrite dispatchedOf_app.
      change (view ws (trace st) = []) in Hview.
      by rewrite (view_nil_dispatchedOf _ _ Hview). }
    by destruct (joined (playerId c)); [rewrite dispatchedOf_sends|]. }
  split; [by rewrite Hst'|]. split; [exact Hdisp|].
  split; [rewrite Hdisp; by apply length_replayed|].
  split; [rewrite Hst'; by exists cE|].
  intros e. unfold step. by rewrite Hst'.
Qed.

(** X19.  The attach sequence of a session whose transport refuses the
    first snapshot: the session has been entered into the list by then
    and stays in it; [handleSession] throws, so no steady-state listener
    and no close handler is registered: a ['close'] or ['error'] event
    on the socket changes nothing, and a frame is only put on the queue
    of the pause listener. *)
Theorem attach_refused_leaves_session (sto : gmap string jsval) (es : list event)
    (ws fuel : nat) (c : conn) (dc : DataClient) (ls : list nat) (cc : CrdtClient)
    (lc : LockClient) :
  let st := run es (init sto) in
  spinning st = false →
  conns st !! ws = Some c → stage c = suspended →
  dataPromiseHeap st !! dataClientPromise c = Some (dataResolved dc ls) →
  crdtPromiseHeap st !! crdtClientPromise c = Some (crdtResolved cc) →
  lockPromiseHeap st !! lockClientPromise c = Some lc →
  sendFails c = true →
  let st' := step (resume ws fuel) st in
  st' = updConn ws (set_stage (failed sendError))
          (pushed ws (updConn ws (set_stage resumed) st)) ∧
  sessions st' = sessions st ++ [ws] ∧
  trace st' = trace st ++ [Pushed ws] ∧
  conns st' !! ws = Some (set_stage (failed sendError) c) ∧
  step (closeOrError ws) st' = st' ∧
  ∀ d, step (message ws d) st' = updConn ws (λ c, set_queue (queue c ++ [d]) c) st'.
Proof.
  intros st Hsp Hc Hst Hd Hr Hl Hf st'.
  destruct (inv_suspended _ (reachable_attached sto es) ws c Hc Hst)
    as (Hnot & Hlis & Hh & Hquit & Hview).
  assert (Hst' : st' = updConn ws (set_stage (failed sendError))
                         (pushed ws (updConn ws (set_stage resumed) st))).
  { unfold st'. by rewrite (step_resume ws fuel st c dc ls cc lc Hsp Hc Hst Hd Hr Hl), Hf. }
  assert (Hc' : conns st' !! ws = Some (set_stage (failed sendError) c)).
  { rewrite Hst'. simpl. by rewrite !list_lookup_alter_eq, Hc. }
  assert (Hsp' : spinning st' = false) by (by rewrite Hst').
  split; [exact Hst'|]. split; [by rewrite Hst'|]. split; [by rewrite Hst'|].
  split; [exact Hc'|]. split.
  - unfold step. rewrite Hsp', Hc'. simpl. by rewrite Hh.
  - intros d. unfold step. rewrite Hsp'.
    by rewrite (dispatchMessage_paused ws d st' _ Hc' Hlis).
Qed.

End Attaching.

(** ** What a handler leaves alone *)

Section Aside.
Context `{Collaborators}.
Implicit Types (st : state) (ws t : nat).

(** The code that ran belongs to socket [t]: the list of sessions is as
    it was, and the record of another socket differs in its table of
    dead hands at most. *)
Record aside (t : nat) (st st' : state) : Prop := mkAside {
  as_sessions : sessions st' = sessions st;
  as_conns : ∀ ws c, ws ≠ t → conns st !! ws = Some c →
    ∃ c', conns st' !! ws = Some c' ∧ sameConn c c'
}.

Lemma aside_refl t st : aside t st st.
Proof. split; [done|]. intros ws c _ Hc. exists c. split; [done|reflexivity]. Qed.

Lemma aside_trans t st1 st2 st3 : aside t st1 st2 → aside t st2 st3 → aside t st1 st3.
Proof.
  intros [S1 C1] [S2 C2]. split; [congruence|].
  intros ws c Hne Hc. destruct (C1 ws c Hne Hc) as (c2 & Hc2 & E2).
  destruct (C2 ws c2 Hne Hc2) as (c3 & Hc3 & E3).
  exists c3. split; [done|]. by etrans.
Qed.

Lemma evolves_aside self t st st' : evolves self st st' → aside t st st'.
Proof.
  intros E. split; [apply (ev_sessions _ _ _ E)|].
  intros ws c _ Hc. apply (Forall2_lookup_l _ _ _ _ _ (ev_conns _ _ _ E) Hc).
Qed.

Lemma aside_same t st st' :
  conns st' = conns st → sessions st' = sessions st → aside t st st'.
Proof.
  intros Hc Hs. split; [done|]. intros ws c _ Hl. rewrite Hc.
  exists c. split; [done|reflexivity].
Qed.

Lemma aside_updConn t f st : aside t st (updConn t f st).
Proof.
  split; [done|]. intros ws c Hne Hc. simpl.
  rewrite list_lookup_alter_ne by done. exists c. split; [done|reflexivity].
Qed.

Definition siding (t : nat) {A} (m : M A) : Prop := respects (aside t) m.

Lemma evolving_siding self t {A} (m : M A) : evolving self m → siding t m.
Proof. intros E st. eapply evolves_aside, E. Qed.

Lemma siding_sessionListener t d : siding t (sessionListener t d).
Proof.
  intros st. rewrite sessionListener_unfold. simpl.
  eapply aside_trans;
    [apply (aside_same t st (set_trace (trace st ++ [Dispatched t d]) st)); done|].
  eapply evolves_aside, evolving_sessionListener_body.
Qed.

Lemma siding_dispatchMessage t d : siding t (dispatchMessage t d).
Proof.
  apply respects_bind; [apply aside_trans | apply (evolving_siding 0), evolving_conn_at |].
  intros c. apply respects_forEach; [apply aside_refl | apply aside_trans |].
  intros [|].
  - apply respects_modify. intros st. apply aside_updConn.
  - apply siding_sessionListener.
Qed.

Lemma siding_replay fuel t i : siding t (replay fuel t i).
Proof.
  revert i. induction fuel as [|fuel IH]; intros i; simpl.
  - apply respects_bind; [apply aside_trans | apply (evolving_siding 0), evolving_conn_at |].
    intros c. destruct (queue c !! i); apply respects_ret, aside_refl.
  - apply respects_bind; [apply aside_trans | apply (evolving_siding 0), evolving_conn_at |].
    intros c. destruct (queue c !! i); [|apply respects_ret, aside_refl].
    apply respects_bind; [apply aside_trans | apply siding_dispatchMessage |].
    intros _. apply IH.
Qed.

Lemma siding__resumeWebsocket fuel t : siding t (_resumeWebsocket fuel t).
Proof.
  apply respects_bind; [apply aside_trans | apply siding_replay |].
  intros [|].
  - apply respects_bind; [apply aside_trans | |intros _];
      apply respects_modify; intros st; apply aside_updConn.
  - apply respects_modify. intros st. by apply aside_same.
Qed.

Lemma siding_afterSnapshots fuel t pid dc ls : siding t (afterSnapshots fuel t pid dc ls).
Proof.
  unfold afterSnapshots.
  apply respects_bind; [apply aside_trans | |intros _].
  { intros st. destruct (set_dataClient_same t dc (ls ++ [t]) st) as (Hc & Hs & _).
    by apply aside_same. }
  apply respects_bind; [apply aside_trans | |intros _].
  { apply (evolving_siding t), evolving__sendJoinMessage. }
  apply respects_bind; [apply aside_trans | |intros _].
  { apply respects_modify. intros st. apply aside_updConn. }
  apply respects_bind; [apply aside_trans | |intros _].
  { apply respects_modify. intros st. apply aside_updConn. }
  apply siding__resumeWebsocket.
Qed.

(** The state in which the snapshots have been sent, or the first was
    refused. *)
Lemma resume_shape t fuel st c :
  spinning st = false → conns st !! t = Some c →
  isSuspended c && resolved c st = true →
  ∃ sS, sessions sS = sessions st ++ [t] ∧
        (∀ ws c, ws ≠ t → conns st !! ws = Some c → conns sS !! ws = Some c) ∧
        aside t sS (step (resume t fuel) st).
Proof.
  intros Hsp Hc Hgo. apply andb_true_iff in Hgo as [Hsus Hres].
  assert (Hst : stage c = suspended) by (unfold isSuspended in Hsus; by destruct (stage c)).
  unfold resolved in Hres.
  destruct (dataPromiseHeap st !! dataClientPromise c) as [[|dc ls]|] eqn:Hd; try done.
  destruct (crdtPromiseHeap st !! crdtClientPromise c) as [[|cc]|] eqn:Hr; try done.
  destruct (lockPromiseHeap st !! lockClientPromise c) as [lc|] eqn:Hl; try done.
  rewrite (step_resume t fuel st c dc ls cc lc Hsp Hc Hst Hd Hr Hl). cbv zeta.
  set (st0 := updConn t (set_stage resumed) st).
  destruct (sendFails c).
  - exists (pushed t st0). split; [done|]. split.
    + intros ws c' Hne Hc'. simpl. by rewrite list_lookup_alter_ne.
    + apply aside_updConn.
  - set (sS := set_trace _ (set_sessions (sessions st ++ [t]) st0)).
    exists sS. split; [done|]. split.
    + intros ws c' Hne Hc'. simpl. by rewrite list_lookup_alter_ne.
    + pose proof (siding_afterSnapshots fuel t (playerId c) dc ls sS) as Ha.
      destruct (afterSnapshots fuel t (playerId c) dc ls sS) as [[[]|err] sE];
        simpl in *; [done|].
      eapply aside_trans; [exact Ha | apply aside_updConn].
Qed.

Lemma close_shape t st :
  aside t (quitted t st) (snd (closeOrError_handler t st)).
Proof.
  rewrite closeOrError_handler_unfold. fold (quitted t st).
  eapply aside_trans; [|apply aside_updConn].
  apply (evolving_siding t). apply evolving_tryCatch.
  - apply evolving_bind; [apply evolving__triggerDeadHands|].
    intros _. apply evolving__triggerUnlocks.
  - intros err. apply evolving_bind; [apply evolving_console_log|].
    intros _. apply evolving_throw.
Qed.

(** The socket an event is about. *)
Definition target (e : event) : option nat :=
  match e with
  | request _ | storageReplyData _ | storageReplyCrdt _ => None
  | resume t _ | message t _ | closeOrError t | break t => Some t
  end.

Lemma begin_conns roomName pid st ws c :
  conns st !! ws = Some c → conns (handleSession_begin roomName pid st) !! ws = Some c.
Proof.
  intros Hc. destruct (handleSession_begin_spec roomName pid st)
    as (dp & cp & lp & -> & _). by apply lookup_app_l_Some.
Qed.

Lemma replyData_same p st :
  conns (step (storageReplyData p) st) = conns st ∧
  sessions (step (storageReplyData p) st) = sessions st.
Proof.
  unfold step. destruct (spinning st); [done|].
  destruct (dataPromiseHeap st !! p) as [[roomName r|]|]; try done.
  unfold storageReplied, continueReading, storage_get.
  repeat case_match; simplify_eq; simpl; done.
Qed.

Lemma step_apart e st ws c :
  target e ≠ Some ws → conns st !! ws = Some c →
  ∃ c', conns (step e st) !! ws = Some c' ∧ sameConn c c'.
Proof.
  intros Hne Hc.
  assert (Hid : ∃ c', conns st !! ws = Some c' ∧ sameConn c c')
    by (exists c; split; [done|reflexivity]).
  destruct e as [r|p|p|t fuel|t d|t|t]; simpl in Hne.
  - unfold step. destruct (spinning st); [done|]. unfold fetch.
    destruct (matchPath (pathname r)) as [roomName methodName].
    destruct (String.eqb methodName "websocket"); [|done].
    case_bool_decide; [done|]. simpl.
    exists c. split; [by apply begin_conns|reflexivity].
  - destruct (replyData_same p st) as [-> _]. done.
  - unfold step. destruct (spinning st); [done|].
    by destruct (crdtPromiseHeap st !! p) as [[v|]|].
  - assert (ws ≠ t) by congruence.
    destruct (spinning st) eqn:Hsp; [unfold step; by rewrite Hsp|].
    destruct (conns st !! t) as [ct|] eqn:Hct; [|unfold step; by rewrite Hsp, Hct].
    destruct (isSuspended ct && resolved ct st) eqn:Hgo;
      [|unfold step; by rewrite Hsp, Hct, Hgo].
    destruct (resume_shape t fuel st ct Hsp Hct Hgo) as (sS & _ & Hkeep & Ha).
    apply (as_conns _ _ _ Ha ws c); [done|]. by apply Hkeep.
  - assert (ws ≠ t) by congruence.
    unfold step. destruct (spinning st); [done|].
    by apply (as_conns _ _ _ (siding_dispatchMessage t d st)).
  - assert (ws ≠ t) by congruence.
    unfold step. destruct (spinning st); [done|].
    destruct (conns st !! t) as [ct|]; [|done].
    destruct (closeOrErrorHandler ct); [|done].
    apply (as_conns _ _ _ (close_shape t st) ws c); [done|].
    simpl. by rewrite list_lookup_alter_ne.
  - assert (ws ≠ t) by congruence.
    unfold step. destruct (spinning st); [done|].
    simpl. rewrite list_lookup_alter_ne by done. done.
Qed.

Lemma step_sessions e st :
  sessions (step e st) = sessions st ∨
  (∃ t fuel c, e = resume t fuel ∧ conns st !! t = Some c ∧ stage c = suspended ∧
               sessions (step e st) = sessions st ++ [t]) ∨
  (∃ t c, e = closeOrError t ∧ conns st !! t = Some c ∧ closeOrErrorHandler c = true ∧
          sessions (step e st) = filter (λ s, s ≠ t) (sessions st)).
Proof.
  destruct e as [r|p|p|t fuel|t d|t|t].
  - left. unfold step. destruct (spinning st); [done|]. unfold fetch.
    destruct (matchPath (pathname r)) as [roomName methodName].
    destruct (String.eqb methodName "websocket"); [|done].
    case_bool_decide; [done|]. simpl.
    by destruct (handleSession_begin_spec roomName (playerIdParam r) st)
      as (dp & cp & lp & _ & -> & _).
  - left. by destruct (replyData_same p st) as [_ ->].
  - left. unfold step. destruct (spinning st); [done|].
    by destruct (crdtPromiseHeap st !! p) as [[v|]|].
  - destruct (spinning st) eqn:Hsp; [left; unfold step; by rewrite Hsp|].
    destruct (conns st !! t) as [ct|] eqn:Hct; [|left; unfold step; by rewrite Hsp, Hct].
    destruct (isSuspended ct && resolved ct st) eqn:Hgo;
      [|left; unfold step; by rewrite Hsp, Hct, Hgo].
    right. left. exists t, fuel, ct. split; [done|]. split; [done|].
    split; [apply andb_true_iff in Hgo as [Hs _]; unfold isSuspended in Hs;
            by destruct (stage ct)|].
    destruct (resume_shape t fuel st ct Hsp Hct Hgo) as (sS & <- & _ & Ha).
    apply (as_sessions _ _ _ Ha).
  - left. unfold step. destruct (spinning st); [done|].
    apply (as_sessions _ _ _ (siding_dispatchMessage t d st)).
  - unfold step. destruct (spinning st); [by left|].
    destruct (conns st !! t) as [ct|] eqn:Hct; [|by left].
    destruct (closeOrErrorHandler ct) eqn:Hh; [|by left].
    right. right. exists t, ct. split; [done|]. split; [done|]. split; [done|].
    apply (as_sessions _ _ _ (close_shape t st)).
  - left. unfold step. by destruct (spinning st).
Qed.

(** X20.  An event on one socket (a frame, a close, the end of its
    [await]s, its transport breaking), and a request or a storage reply
    just as well, leaves the record of every other socket as it was but
    for its table of dead hands: room, [playerId], promises, transport,
    listeners, queue, close handler, [quit] flag and stage are what
    they were. *)
Theorem step_leaves_others (e : event) st ws (c : conn) :
  target e ≠ Some ws → conns st !! ws = Some c →
  ∃ c', conns (step e st) !! ws = Some c' ∧
        room c' = room c ∧ playerId c' = playerId c ∧
        dataClientPromise c' = dataClientPromise c ∧
        crdtClientPromise c' = crdtClientPromise c ∧
        lockClientPromise c' = lockClientPromise c ∧
        sendFails c' = sendFails c ∧ listeners c' = listeners c ∧
        queue c' = queue c ∧ closeOrErrorHandler c' = closeOrErrorHandler c ∧
        quit c' = quit c ∧ stage c' = stage c.
Proof. apply step_apart. Qed.

(** X21.  In every run no session is in the list twice; an event
    leaves the list as it was, but for the end of the [await]s of a
    session, which appends it, and a close or error event on a socket
    with the handler registered, which takes it out. *)
Theorem sessions_listed_once (sto : gmap string jsval) (es : list event) (e : event) :
  let st := run es (init sto) in
  NoDup (sessions st) ∧
  (sessions (step e st) = sessions st ∨
   (∃ t fuel, e = resume t fuel ∧ (t ∉ sessions st) ∧
              sessions (step e st) = sessions st ++ [t]) ∨
   (∃ t, e = closeOrError t ∧
         sessions (step e st) = filter (λ s, s ≠ t) (sessions st))).
Proof.
  intros st.
  assert (Hshape : ∀ es' e',
    sessions (step e' (run es' (init sto))) = sessions (run es' (init sto)) ∨
    (∃ t fuel, e' = resume t fuel ∧ (t ∉ sessions (run es' (init sto))) ∧
       sessions (step e' (run es' (init sto))) = sessions (run es' (init sto)) ++ [t]) ∨
    (∃ t, e' = closeOrError t ∧
       sessions (step e' (run es' (init sto))) =
         filter (λ s, s ≠ t) (sessions (run es' (init sto))))).
  { intros es' e'.
    destruct (step_sessions e' (run es' (init sto)))
      as [Hs|[(t & fuel & c & -> & Hc & Hst & Hs)|(t & c & -> & _ & _ & Hs)]].
    - by left.
    - right. left. exists t, fuel. split; [done|]. split; [|done].
      by destruct (inv_suspended _ (reachable_attached sto es') t c Hc Hst) as [? _].
    - right. right. by exists t. }
  split; [|apply Hshape].
  unfold st. clear st e. induction es as [|e es IH] using rev_ind; [constructor|].
  rewrite run_snoc.
  destruct (Hshape es e) as [->|[(t & fuel & _ & Hnot & ->)|(t & _ & ->)]].
  - done.
  - apply NoDup_app. split; [done|]. split; [|apply NoDup_singleton].
    intros x Hx ->%list_elem_of_singleton. done.
  - by apply NoDup_filter.
Qed.

(** X22.  A session whose attach sequence was cut off by its own
    transport refusing the first snapshot is never taken off the list:
    whatever events follow, it is in the list, without a close handler
    and with the pause listener as its only listener. *)
Theorem refused_session_stays (sto : gmap string jsval) (es es' : list event)
    (ws fuel : nat) (c : conn) :
  let st := run es (init sto) in
  spinning st = false →
  conns st !! ws = Some c → stage c = suspended → resolved c st = true →
  sendFails c = true →
  let st' := run es' (step (resume ws fuel) st) in
  ws ∈ sessions st' ∧
  ∃ c', conns st' !! ws = Some c' ∧ closeOrErrorHandler c' = false ∧
        listeners c' = [onmessage] ∧ stage c' = failed sendError.
Proof.
  intros st Hsp Hc Hst Hres Hf st'.
  destruct (inv_suspended _ (reachable_attached sto es) ws c Hc Hst)
    as (Hnot & Hlis & Hh & Hquit & Hview).
  set (P := λ s : state, ws ∈ sessions s ∧
    ∃ c', conns s !! ws = Some c' ∧ closeOrErrorHandler c' = false ∧
          listeners c' = [onmessage] ∧ stage c' = failed sendError).
  assert (Hstart : P (step (resume ws fuel) st)).
  { unfold resolved in Hres.
    destruct (dataPromiseHeap st !! dataClientPromise c) as [[|dc ls]|] eqn:Hd; try done.
    destruct (crdtPromiseHeap st !! crdtClientPromise c) as [[|cc]|] eqn:Hr; try done.
    destruct (lockPromiseHeap st !! lockClientPromise c) as [lc|] eqn:Hl; try done.
    assert (E : step (resume ws fuel) st =
                updConn ws (set_stage (failed sendError))
                  (pushed ws (updConn ws (set_stage resumed) st))).
    { by rewrite (step_resume ws fuel st c dc ls cc lc Hsp Hc Hst Hd Hr Hl), Hf. }
    rewrite E. split; [simpl; apply elem_of_app; right; by left|].
    exists (set_stage (failed sendError) c).
    split; [simpl; by rewrite !list_lookup_alter_eq, Hc|]. done. }
  assert (Hstep : ∀ e s, P s → P (step e s)).
  { intros e s (Hin & c' & Hc' & Hh' & Hl' & Hs').
    destruct (decide (target e = Some ws)) as [Ht|Ht].
    - destruct (spinning s) eqn:Hsp';
        [unfold step; rewrite Hsp'; split; [done|by exists c']|].
      destruct e as [r|p|p|t k|t d|t|t]; simpl in Ht; try done;
        injection Ht as ->; unfold step; rewrite Hsp'.
      + rewrite Hc'. unfold isSuspended. rewrite Hs'. simpl.
        split; [done|by exists c'].
      + rewrite (dispatchMessage_paused ws d s c' Hc' Hl'). unfold P. simpl.
        split; [done|]. rewrite list_lookup_alter_eq, Hc'. simpl. eauto.
      + rewrite Hc', Hh'. split; [done|by exists c'].
      + unfold P. simpl. split; [done|]. rewrite list_lookup_alter_eq, Hc'. simpl. eauto.
    - split.
      + destruct (step_sessions e s)
          as [->|[(t & k & ct & -> & _ & _ & ->)|(t & ct & -> & _ & _ & ->)]].
        * done.
        * apply elem_of_app. by left.
        * apply list_elem_of_filter. split; [|done]. simpl in Ht. congruence.
      + destruct (step_apart e s ws c' Ht Hc') as (c'' & Hc'' & S).
        destruct S as (_&_&_&_&_&_&Hl''&_&Hh''&_&Hs'').
        exists c''. split; [done|]. split; [congruence|]. split; congruence. }
  unfold st'. generalize (step (resume ws fuel) st) Hstart. clear -Hstep.
  induction es' as [|e es' IH]; intros s Hs; [exact Hs|].
  simpl. apply IH. by apply Hstep.
Qed.

End Aside.

Section Ignoring.
Context `{Collaborators}.
Implicit Types (st : state) (ws : nat).

(** X23.  A ['close'] or ['error'] event on a socket whose
    [handleSession] is still at its [await]s finds no handler: in every
    run it changes nothing, and the session is entered into the list
    when the [await]s are over all the same. *)
Theorem close_during_attach_ignored (sto : gmap string jsval) (es : list event)
    (ws fuel : nat) (c : conn) :
  let st := run es (init sto) in
  conns st !! ws = Some c → stage c = suspended →
  step (closeOrError ws) st = st ∧
  (spinning st = false → resolved c st = true →
   ws ∈ sessions (step (resume ws fuel) (step (closeOrError ws) st))).
Proof.
  intros st Hc Hst.
  destruct (inv_suspended _ (reachable_attached sto es) ws c Hc Hst)
    as (Hnot & Hlis & Hh & Hquit & Hview).
  assert (Hclose : step (closeOrError ws) st = st).
  { unfold step. rewrite Hc, Hh. by destruct (spinning st). }
  split; [exact Hclose|]. intros Hsp Hres. rewrite Hclose.
  unfold resolved in Hres.
  destruct (dataPromiseHeap st !! dataClientPromise c) as [[|dc ls]|] eqn:Hd; try done.
  destruct (crdtPromiseHeap st !! crdtClientPromise c) as [[|cc]|] eqn:Hr; try done.
  destruct (lockPromiseHeap st !! lockClientPromise c) as [lc|] eqn:Hl; try done.
  rewrite (step_resume ws fuel st c dc ls cc lc Hsp Hc Hst Hd Hr Hl). cbv zeta.
  set (st0 := updConn ws (set_stage resumed) st).
  destruct (sendFails c).
  - simpl. apply elem_of_app. right. by left.
  - set (sS := set_trace _ (set_sessions (sessions st ++ [ws]) st0)).
    assert (Hin : ws ∈ sessions sS) by (simpl; apply elem_of_app; right; by left).
    assert (Hkeep : sessions (snd (afterSnapshots fuel ws (playerId c) dc ls sS))
                    = sessions sS).
    { apply (as_sessions _ _ _ (siding_afterSnapshots fuel ws (playerId c) dc ls sS)). }
    destruct (afterSnapshots fuel ws (playerId c) dc ls sS) as [[[]|err] sE];
      simpl in *; by rewrite Hkeep.
Qed.

End Ignoring.

(** ** The storage *)

Section Storage.
Context `{Collaborators}.
Implicit Types (st : state) (ws : nat).

(** What was put into the storage, in order. *)
Definition written (log : list storageOp) : list (string * jsval) :=
  omap (λ op, match op with
              | storagePut k v => Some (k, v)
              | storageGet _ _ => None
              end) log.

Lemma written_app l1 l2 : written (l1 ++ l2) = written l1 ++ written l2.
Proof. apply omap_app. Qed.

Lemma written_gets r ks : written (storageGet r <$> ks) = [].
Proof. by induction ks. Qed.

Lemma written_puts puts : Forall isPut puts → Forall (λ kv, kv.1 = "crdt") (written puts).
Proof.
  induction 1 as [|op puts [v ->] _ IH]; [constructor|]. simpl. by constructor.
Qed.

Lemma begin_log roomName pid st :
  ∃ ks, storageLog (handleSession_begin roomName pid st) =
        storageLog st ++ (storageGet roomName <$> ks).
Proof.
  unfold handleSession_begin, continueReading, storage_get, schemaArrayNames.
  destruct (dataClientPromises st !! roomName); simpl;
    destruct (crdtClientPromises st !! roomName); simpl;
    destruct (lockClientPromises st !! roomName); simpl;
    first [ by exists []; rewrite app_nil_r
          | by exists ["worldApps"]
          | by exists ["crdt"]
          | exists ["worldApps"; "crdt"]; simpl; by rewrite <- app_assoc ].
Qed.

Lemma replyData_log p st :
  ∃ r ks, storageLog (step (storageReplyData p) st) =
          storageLog st ++ (storageGet r <$> ks).
Proof.
  unfold step. destruct (spinning st); [by exists "", []; rewrite app_nil_r|].
  destruct (dataPromiseHeap st !! p) as [[roomName r|]|];
    try (by exists "", []; rewrite app_nil_r).
  exists roomName. unfold storageReplied, continueReading, storage_get.
  repeat case_match; simplify_eq; simpl;
    first [ by exists []; rewrite app_nil_r | by eexists [_] ].
Qed.

Lemma step_written e st :
  ∃ puts, written (storageLog (step e st)) = written (storageLog st) ++ puts ∧
          Forall (λ kv, kv.1 = "crdt") puts.
Proof.
  assert (Hlater : later e → ∃ puts,
    written (storageLog (step e st)) = written (storageLog st) ++ puts ∧
    Forall (λ kv, kv.1 = "crdt") puts).
  { intros Hl. destruct (q_log _ _ (quiet_step e st Hl)) as (puts & -> & Hp).
    exists (written puts). split; [apply written_app | by apply written_puts]. }
  destruct e as [r|p|p|t fuel|t d|t|t]; try (by apply Hlater);
    exists []; (split; [|constructor]); rewrite app_nil_r.
  - unfold step. destruct (spinning st); [done|]. unfold fetch.
    destruct (matchPath (pathname r)) as [roomName methodName].
    destruct (String.eqb methodName "websocket"); [|done].
    case_bool_decide; [done|]. simpl.
    destruct (begin_log roomName (playerIdParam r) st) as (ks & ->).
    by rewrite written_app, written_gets, app_nil_r.
  - destruct (replyData_log p st) as (r & ks & ->).
    by rewrite written_app, written_gets, app_nil_r.
  - unfold step. destruct (spinning st); [done|].
    by destruct (crdtPromiseHeap st !! p) as [[v|]|].
Qed.

(** X24.  The coordinator writes to the storage under the key ['crdt']
    and under no other: in every run each put is a put of ['crdt'], and
    what the storage holds under any other key is what it held when the
    object was made.  The arrays and maps of the data client are read
    from the storage and never written back. *)
Theorem storage_written_under_crdt_only (sto : gmap string jsval) (es : list event) :
  let st := run es (init sto) in
  Forall (λ kv, kv.1 = "crdt") (written (storageLog st)) ∧
  ∀ k, k ≠ "crdt" → storage st !! k = sto !! k.
Proof.
  intros st. split.
  - unfold st. clear st. induction es as [|e es IH] using rev_ind; [constructor|].
    rewrite run_snoc.
    destruct (step_written e (run es (init sto))) as (puts & -> & Hp).
    by apply Forall_app.
  - apply (i_storage _ _ (initialised_run sto es _ (initialised_init sto))).
Qed.

(** [readCrdtFromStorage], over a storage that holds [sto]: the inner
    loop, and the two loops. *)
Definition readMaps (sto : gmap string jsval) (ids : list string)
    (crdt : list (string * jsval)) : list (string * jsval) :=
  foldl (λ crdt arrayIndexId,
           mapSet arrayIndexId (nullish (sto !! arrayIndexId) (JArr [JNum 0; JObj []])) crdt)
    crdt ids.

Definition readArrays (sto : gmap string jsval) (names : list string)
    (crdt : list (string * jsval)) : list (string * jsval) :=
  foldl (λ crdt arrayId,
           let array := nullish (sto !! arrayId) (JObj []) in
           readMaps sto (forIn array) (mapSet arrayId array crdt))
    crdt names.

Definition readCrdtFromStorage (sto : gmap string jsval) (arrayNames : list string)
    : list (string * jsval) :=
  readArrays sto arrayNames [].

(** What a suspended [readCrdtFromStorage] comes to. *)
Definition outcomeOfReading (sto : gmap string jsval) (r : reading) : list (string * jsval) :=
  if isArray r then
    let array := nullish (fetched r) (JObj []) in
    readArrays sto (arrayNames r)
      (readMaps sto (forIn array) (mapSet (awaited r) array (crdt r)))
  else
    let val := nullish (fetched r) (JArr [JNum 0; JObj []]) in
    readArrays sto (arrayNames r)
      (readMaps sto (indexIds r) (mapSet (awaited r) val (crdt r))).

Lemma replies_resolve (sto : gmap string jsval) (roomName : string) (p : nat) : ∀ n st r,
  spinning st = false → storage st = sto →
  dataPromiseHeap st !! p = Some (dataPending roomName r) →
  length (todo sto (dataPending roomName r)) = n →
  let st' := run (replicate (S n) (storageReplyData p)) st in
  dataPromiseHeap st' !! p =
    Some (dataResolved (newDataClient (outcomeOfReading sto r) roomName) []) ∧
  getsOf roomName (storageLog st') =
    getsOf roomName (storageLog st) ++ todo sto (dataPending roomName r).
Proof.
  induction n as [|n IH]; intros st r Hsp Hsto Hp Hlen st'.
  - apply length_zero_iff_nil in Hlen. rewrite Hlen, app_nil_r.
    unfold todo in Hlen. apply app_eq_nil in Hlen as [Hids Hnames].
    assert (Hn : arrayNames r = []).
    { destruct (arrayNames r); [done|]. by simpl in Hnames. }
    assert (Hlt : (p < length (dataPromiseHeap st))%nat) by by apply lookup_lt_Some in Hp.
    assert (E : step (storageReplyData p) st =
      set_dataPromiseHeap
        (<[p := dataResolved (newDataClient (outcomeOfReading sto r) roomName) []]>
           (dataPromiseHeap st)) st).
    { unfold step. rewrite Hsp, Hp. unfold storageReplied, outcomeOfReading. rewrite Hn.
      destruct (isArray r); rewrite Hids; done. }
    unfold st'. simpl. rewrite E. simpl.
    split; [by apply list_lookup_insert_eq | done].
  - unfold st'. change (replicate (S (S n)) (storageReplyData p))
      with (storageReplyData p :: replicate (S n) (storageReplyData p)).
    change (run (storageReplyData p :: ?es) st)
      with (run es (step (storageReplyData p) st)).
    set (st1 := step (storageReplyData p) st).
    assert (Hnext : ∃ r1 k,
      spinning st1 = false ∧ storage st1 = sto ∧
      dataPromiseHeap st1 !! p = Some (dataPending roomName r1) ∧
      storageLog st1 = storageLog st ++ [storageGet roomName k] ∧
      todo sto (dataPending roomName r) = k :: todo sto (dataPending roomName r1) ∧
      outcomeOfReading sto r1 = outcomeOfReading sto r).
    { unfold st1, step. rewrite Hsp, Hp.
      assert (Hlt : (p < length (dataPromiseHeap st))%nat) by by apply lookup_lt_Some in Hp.
      unfold storageReplied, outcomeOfReading. simpl in Hlen.
      destruct (isArray r) eqn:Harr.
      - destruct (forIn (nullish (fetched r) (JObj []))) as [|i ids] eqn:Hids.
        + destruct (arrayNames r) as [|a names] eqn:Hnames; [done|].
          simpl. eexists (mkReading a (storage st !! a) true [] names _), a.
          split; [done|]. split; [done|].
          split; [by apply list_lookup_insert_eq|]. split; [done|].
          split; [unfold todo; simpl; rewrite ?Harr, ?Hids, ?Hnames, ?Hsto; done|].
          simpl. rewrite ?Harr, ?Hids, ?Hnames, ?Hsto. done.
        + simpl. eexists (mkReading i (storage st !! i) false ids (arrayNames r) _), i.
          split; [done|]. split; [done|].
          split; [by apply list_lookup_insert_eq|]. split; [done|].
          split; [unfold todo; simpl; rewrite ?Harr, ?Hids, ?Hnames, ?Hsto; done|].
          simpl. rewrite ?Harr, ?Hids, ?Hnames, ?Hsto. done.
      - destruct (indexIds r) as [|i ids] eqn:Hids.
        + destruct (arrayNames r) as [|a names] eqn:Hnames; [done|].
          simpl. eexists (mkReading a (storage st !! a) true [] names _), a.
          split; [done|]. split; [done|].
          split; [by apply list_lookup_insert_eq|]. split; [done|].
          split; [unfold todo; simpl; rewrite ?Harr, ?Hids, ?Hnames, ?Hsto; done|].
          simpl. rewrite ?Harr, ?Hids, ?Hnames, ?Hsto. done.
        + simpl. eexists (mkReading i (storage st !! i) false ids (arrayNames r) _), i.
          split; [done|]. split; [done|].
          split; [by apply list_lookup_insert_eq|]. split; [done|].
          split; [unfold todo; simpl; rewrite ?Harr, ?Hids, ?Hnames, ?Hsto; done|].
          simpl. rewrite ?Harr, ?Hids, ?Hnames, ?Hsto. done. }
    destruct Hnext as (r1 & k & Hsp1 & Hsto1 & Hp1 & Hlog1 & Htodo & Hout).
    assert (Hlen1 : length (todo sto (dataPending roomName r1)) = n).
    { rewrite Htodo in Hlen.
      change (S (length (todo sto (dataPending roomName r1))) = S n) in Hlen. lia. }
    destruct (IH st1 r1 Hsp1 Hsto1 Hp1 Hlen1) as [Hres Hgets].
    split; [by rewrite Hres, Hout|].
    rewrite Hgets, Hlog1, getsOf_app, Htodo. simpl.
    rewrite decide_True by done. by rewrite <- app_assoc.
Qed.

(** X25.  The first request for a room, on an object with the storage
    [sto], answered by the storage as often as [readCrdtFromStorage]
    asks: the data client of the room is made from the map the two
    loops build, which has, for each array of the schema, the array the
    storage holds, or [{}] when it holds none, and after it, for each
    key the array lists, what the storage holds under that key, or
    [[0, {}]] when it holds nothing; and the storage was asked for the
    first array, then for ['crdt'], then for the keys, in this order. *)
Theorem first_session_reads_storage (sto : gmap string jsval) (req : Request)
    (roomName : string) :
  matchPath (pathname req) = (roomName, "websocket") →
  upgrade req = Some "websocket" →
  let n := length (flat_map (readsOf sto) schemaArrayNames) in
  let st := run (request req :: replicate n (storageReplyData 0)) (init sto) in
  dataPromiseHeap st !! 0 =
    Some (dataResolved (newDataClient (readCrdtFromStorage sto schemaArrayNames) roomName) []) ∧
  getsOf roomName (storageLog st) = initReads sto ∧
  readCrdtFromStorage sto schemaArrayNames =
    readMaps sto (forIn (nullish (sto !! "worldApps") (JObj [])))
      [("worldApps", nullish (sto !! "worldApps") (JObj []))].
Proof.
  intros Hpath Hup n st.
  set (keys := forIn (nullish (sto !! "worldApps") (JObj []))).
  assert (Hn : n = S (length keys)).
  { unfold n, schemaArrayNames, readsOf. simpl. by rewrite app_nil_r. }
  set (st0 := handleSession_begin roomName (playerIdParam req) (init sto)).
  assert (Hst : st = run (replicate (S (length keys)) (storageReplyData 0)) st0).
  { unfold st. rewrite Hn.
    change (run (request req :: ?es) (init sto)) with (run es (step (request req) (init sto))).
    f_equal. unfold step, fetch. simpl. rewrite Hpath. simpl.
    by rewrite bool_decide_eq_false_2 by (intros Hne; by apply Hne). }
  set (r0 := mkReading "worldApps" (sto !! "worldApps") true [] [] []).
  assert (Hp0 : dataPromiseHeap st0 !! 0%nat = Some (dataPending roomName r0)).
  { unfold st0, handleSession_begin. simpl. by rewrite !lookup_empty. }
  assert (Hlen : length (todo sto (dataPending roomName r0)) = length keys).
  { simpl. by rewrite app_nil_r. }
  destruct (replies_resolve sto roomName 0 (length keys) st0 r0 eq_refl eq_refl Hp0 Hlen)
    as [Hres Hgets].
  rewrite Hst. split; [exact Hres|]. split; [|done].
  rewrite Hgets. unfold st0, handleSession_begin. simpl.
  repeat (rewrite lookup_empty; simpl). rewrite !decide_True by done.
  unfold initReads, schemaArrayNames. simpl. by rewrite !app_nil_r.
Qed.

End Storage.


(** * Runs of the room of the examples, for the rest of the code *)

Module Runs.
Import Demo.
Import Examples.

(** A name of 129 characters. *)
Definition longName : string := string_of_list_ascii (replicate 129 "a"%char).

(** The first session holds the array as a dead hand; the transport of
    one of its two peers is broken. *)
Definition guarded : list event :=
  three ++ [message 0 (frame 1 "k1"); message 0 (frame 3 "worldApps"); break 1].

(** The transport of the first socket breaks while it waits. *)
Definition broken : list event := opening ++ [break 0].

Lemma fetch_not_found_short :
  fetch (mkRequest (Some "websocket") "/r1" None) (init fresh) =
    (Some (mkResponse 404 "Not found"), init fresh).
Proof.
  refine (proj1 (fetch_not_found (mkRequest (Some "websocket") "/r1" None) (init fresh) _)).
  intros r. simpl. destruct r as [|a [|b [|c r]]]; discriminate.
Defined.

Lemma fetch_suspends_first :
  ∃ st', fetch (mkRequest (Some "websocket") "/r1/websocket" (Some "a")) (init fresh)
         = (None, st') ∧ sessions st' = [] ∧ trace st' = [].
Proof.
  destruct (fetch_suspends (mkRequest (Some "websocket") "/r1/websocket" (Some "a"))
              "r1" (init fresh) eq_refl eq_refl)
    as (st' & dp & cp & lp & Hf & _ & _ & _ & _ & Hs & Ht).
  exists st'. split; [exact Hf|]. split; [exact Hs | exact Ht].
Defined.

Lemma worker_routes_websocket_r1 :
  workerFetch "GET" "/api/room/r1/websocket" = forwarded "r1" "/r1/websocket".
Proof.
  refine (proj1 (worker_routes_websocket "GET" "r1" eq_refl eq_refl _)).
  simpl. lia.
Defined.

Lemma worker_forwards_own_name_r1 :
  workerFetch "POST" "/api/room/r1/chat" = forwarded "r1" "/r1/chat" ∧
  (matchPath "/r1/chat").1 = "r1".
Proof.
  split; [reflexivity|].
  apply (proj2 (proj2 (proj2 (proj2
    (worker_forwards_own_name "POST" "/api/room/r1/chat" "r1" "/r1/chat" eq_refl))))
    "r1" "chat"); [reflexivity | discriminate].
Defined.

Lemma worker_name_too_long_129 :
  workerFetch "GET" ("/api/room/" +:+ longName +:+ "/" +:+ "websocket") =
    answered (mkResponse 404 "Name too long").
Proof.
  refine (proj2 (worker_name_too_long "GET" longName "websocket" _ _)).
  - vm_compute; reflexivity.
  - apply Nat.ltb_lt. vm_compute; reflexivity.
Defined.

Lemma hands_claimed_and_released_two :
  ∃ claimed,
    deadhandListener 0 ["worldApps.k1"; "worldApps"] (Some "a") (run two (init fresh)) =
      (Return tt, withHands 0 claimed (run two (init fresh))) ∧
    mapGet "worldApps" claimed = Some (mkHand "worldApps" None) ∧
    livehandListener 0 ["worldApps.k1"; "worldApps"] (Some "a")
      (withHands 0 claimed (run two (init fresh))) =
      (Return tt, withHands 0 [] (run two (init fresh))).
Proof.
  edestruct (hands_claimed_and_released 0 ["worldApps.k1"; "worldApps"]
               (run two (init fresh)))
    as (claimed & Hdead & Hget & _ & Hlive & _).
  - vm_compute; reflexivity.
  - repeat (constructor; [eexists; reflexivity|]). constructor.
  - exists claimed. split; [exact Hdead|]. split; [|exact Hlive].
    apply Hget; [|reflexivity]. apply (bool_decide_unpack _). vm_compute. exact I.
Defined.

Lemma unclassified_frame_dropped_99 :
  step (message 0 (frame 99 "x")) (run two (init fresh)) =
    set_trace (trace (run two (init fresh)) ++ [Dispatched 0 (frame 99 "x")])
      (run two (init fresh)).
Proof.
  refine (unclassified_frame_dropped 0 (bytes 99 "x") (run two (init fresh)) _ 99 _
            _ _ _ _ _ _ _ _ _ _ _);
    vm_compute; reflexivity.
Defined.

Lemma lock_frame_handled_request :
  trace (step (message 0 (frame 30 "door")) (run two (init fresh))) =
    trace (run two (init fresh)) ++ [Dispatched 0 (frame 30 "door")] ∧
  lockPromiseHeap (step (message 0 (frame 30 "door")) (run two (init fresh))) =
    [[Some (mkMessageEvent "lockRequest"
              (JObj [("playerId", JStr "a");
                     ("lockName", JBytes (list_byte_of_string "door"))]))]].
Proof.
  eassert (E : _).
  { eapply (lock_frame_handled 0 (bytes 30 "door") (run two (init fresh)));
      vm_compute; reflexivity. }
  cbv zeta in E. change (frame 30 "door") with (Binary (bytes 30 "door")).
  rewrite E. split; vm_compute; reflexivity.
Defined.

Lemma crdt_frame_stored_and_proxied_two :
  trace (step (message 0 (frame 20 "u")) (run two (init fresh))) =
    trace (run two (init fresh)) ++ [Dispatched 0 (frame 20 "u"); Sent 1 (frame 20 "u")] ∧
  storage (step (message 0 (frame 20 "u")) (run two (init fresh))) !! "crdt" =
    Some (JArr [JUndefined; JBytes (list_byte_of_string "u")]).
Proof.
  eassert (E : _).
  { eapply (crdt_frame_stored_and_proxied 0 (bytes 20 "u") (run two (init fresh)));
      [vm_compute; reflexivity ..|].
    apply acceptingb_accepting. vm_compute; reflexivity. }
  cbv zeta in E. change (frame 20 "u") with (Binary (bytes 20 "u")).
  rewrite E. split; vm_compute; reflexivity.
Defined.

Lemma frame_after_quit_closed :
  closed <$> conns (step (message 0 (frame 5 "hi"))
                      (run (two ++ [closeOrError 0]) (init fresh))) !! 0 =
    Some (Some (1011%Z, "WebSocket broken.")) ∧
  trace (step (message 0 (frame 5 "hi")) (run (two ++ [closeOrError 0]) (init fresh))) =
    trace (run (two ++ [closeOrError 0]) (init fresh)) ++ [Dispatched 0 (frame 5 "hi")].
Proof.
  eassert (E : _).
  { eapply (frame_after_quit 0 (frame 5 "hi") (run (two ++ [closeOrError 0]) (init fresh)));
      vm_compute; reflexivity. }
  rewrite E. split; vm_compute; reflexivity.
Defined.

Lemma close_releases_and_unregisters_holding :
  step (closeOrError 0) (step (closeOrError 0) (run holding (init fresh))) =
    step (closeOrError 0) (run holding (init fresh)) ∧
  conns (step (closeOrError 0) (run holding (init fresh))) !! 1 =
    conns (run holding (init fresh)) !! 1.
Proof.
  edestruct (close_releases_and_unregisters 0 (run holding (init fresh)))
    as (_ & _ & Hidem).
  1-5: vm_compute; reflexivity.
  - apply acceptingb_accepting. vm_compute; reflexivity.
  - split; [exact Hidem|]. vm_compute; reflexivity.
Defined.

Lemma close_cut_short_guarded :
  lockPromiseHeap (step (closeOrError 0) (run guarded (init fresh))) =
    lockPromiseHeap (run guarded (init fresh)) ∧
  sessions (step (closeOrError 0) (run guarded (init fresh))) = [1; 2] ∧
  trace (step (closeOrError 0) (run guarded (init fresh))) =
    trace (run guarded (init fresh)).
Proof.
  edestruct (close_cut_short 0 (run guarded (init fresh))) as (Hrun & Hstep & Hlock).
  1-4: vm_compute; reflexivity.
  - vm_compute; reflexivity.
  - vm_compute; reflexivity.
  - split; [exact Hlock|]. rewrite Hstep, Hrun. split; vm_compute; reflexivity.
Defined.

Lemma attach_announces_join_b :
  sessions (step (resume 1 0) (run (one ++ [attach "b"]) (init fresh))) = [0; 1] ∧
  drop 8 (trace (step (resume 1 0) (run (one ++ [attach "b"]) (init fresh)))) =
    [Sent 0 (Binary (serializeMessage (joinMessage "b")))].
Proof.
  edestruct (attach_announces_join fresh (one ++ [attach "b"]) 1 0)
    as (Htr & Hs & _).
  1-9: vm_compute; reflexivity.
  - apply acceptingb_accepting. vm_compute; reflexivity.
  - apply Forall_forall. vm_compute.
    repeat (constructor; [eexists; reflexivity|]). constructor.
  - vm_compute. constructor.
  - split; [exact Hs|]. rewrite Htr. vm_compute; reflexivity.
Defined.

Lemma replay_never_ends_early :
  spinning (step (resume 0 3) (run early (init fresh))) = true ∧
  dispatchedOf 0 (trace (step (resume 0 3) (run early (init fresh)))) =
    [frame 5 "hi"; frame 5 "hi"; frame 5 "hi"].
Proof.
  edestruct (replay_never_ends fresh early 0) as (Hspin & Hdisp & _).
  1-6: vm_compute; reflexivity.
  - vm_compute. discriminate.
  - apply acceptingb_accepting. vm_compute; reflexivity.
  - intros l Hl. vm_compute in Hl. by apply elem_of_nil in Hl.
  - intros j [= <-]. vm_compute. constructor.
  - split; [exact Hspin|]. rewrite Hdisp. vm_compute; reflexivity.
Defined.

Lemma attach_refused_leaves_session_broken :
  sessions (step (resume 0 0) (run broken (init fresh))) = [0] ∧
  step (closeOrError 0) (step (resume 0 0) (run broken (init fresh))) =
    step (resume 0 0) (run broken (init fresh)).
Proof.
  edestruct (attach_refused_leaves_session fresh broken 0 0)
    as (_ & Hs & _ & _ & Hclose & _).
  1-7: vm_compute; reflexivity.
  split; [exact Hs | exact Hclose].
Defined.

Lemma step_leaves_others_two :
  ∃ c', conns (step (message 0 (frame 5 "hi")) (run two (init fresh))) !! 1 = Some c' ∧
        listeners c' = [onsession] ∧ quit c' = false.
Proof.
  edestruct (step_leaves_others (message 0 (frame 5 "hi")) (run two (init fresh)) 1)
    as (c' & Hc' & _ & _ & _ & _ & _ & _ & Hl & _ & _ & Hq & _).
  - discriminate.
  - vm_compute; reflexivity.
  - exists c'. split; [exact Hc'|]. split; [exact Hl | exact Hq].
Defined.

Lemma refused_session_stays_broken :
  0 ∈ sessions (run [closeOrError 0; message 0 (frame 5 "hi"); attach "b"]
                  (step (resume 0 0) (run broken (init fresh)))).
Proof.
  refine (proj1 (refused_session_stays fresh broken
                   [closeOrError 0; message 0 (frame 5 "hi"); attach "b"] 0 0 _
                   _ _ _ _ _));
    vm_compute; reflexivity.
Defined.

Lemma close_during_attach_ignored_opening :
  step (closeOrError 0) (run opening (init fresh)) = run opening (init fresh).
Proof.
  refine (proj1 (close_during_attach_ignored fresh opening 0 0 _ _ _));
    vm_compute; reflexivity.
Defined.

Lemma first_session_reads_storage_colliding :
  getsOf "r1" (storageLog
    (run [attach "a"; storageReplyData 0; storageReplyData 0] (init colliding))) =
    ["worldApps"; "crdt"; "crdt"] ∧
  readCrdtFromStorage colliding schemaArrayNames =
    [("worldApps", JObj [("crdt", JNum 0)]); ("crdt", JArr [JNum 0; JObj []])].
Proof.
  edestruct (first_session_reads_storage colliding
               (mkRequest (Some "websocket") "/r1/websocket" (Some "a")) "r1")
    as (_ & Hgets & Hmap).
  - reflexivity.
  - reflexivity.
  - split; [exact Hgets|]. rewrite Hmap. vm_compute; reflexivity.
Defined.

Lemma deadhand_cleanup_holding :
  trace (step (closeOrError 0) (run holding (init fresh))) =
    trace (run holding (init fresh)) ++
      [Sent 1 (Binary (serializeMessage (mkMessageEvent "remove.worldApps" (JStr "k1"))));
       Sent 1 (Binary (serializeMessage (mkMessageEvent "remove.worldApps" (JStr "k1"))));
       Sent 1 (Binary (serializeMessage (mkMessageEvent "remove.worldApps" (JStr "k2"))))] ∧
  trace (step (closeOrError 0) (run guarded (init fresh))) = trace (run guarded (init fresh)).
Proof.
  split.
  - edestruct (deadhand_cleanup 0 (run holding (init fresh))) as (Htr & _).
    1-5: vm_compute; reflexivity.
    etransitivity; [exact Htr|]. vm_compute; reflexivity.
  - edestruct (deadhand_cleanup 0 (run guarded (init fresh))) as (Htr & _).
    1-5: vm_compute; reflexivity.
    etransitivity; [exact Htr|]. vm_compute; reflexivity.
Defined.

(** Three sessions, the first holding the array as a dead hand, the
    transport of the second broken: as the first closes, the send of
    the remove to the second throws, and the third, whose transport
    works, is sent no remove. *)
Lemma healthy_peer_gets_no_remove :
  ¬ removesReachPeers 0 (run guarded (init fresh)).
Proof.
  intros Hr.
  eassert (Hin : _).
  { refine (Hr _ _ _ (mkMessageEvent "remove.worldApps" (JStr "k1")) 2 _ _ _ _ _ _ _ _).
    - vm_compute; reflexivity.
    - vm_compute; reflexivity.
    - vm_compute. left.
    - apply (bool_decide_unpack _); vm_compute; exact I.
    - discriminate.
    - vm_compute; reflexivity.
    - reflexivity. }
  assert (E : drop (length (trace (run guarded (init fresh))))
                (trace (step (closeOrError 0) (run guarded (init fresh)))) = [])
    by (vm_compute; reflexivity).
  rewrite E in Hin. by apply elem_of_nil in Hin.
Qed.

End Runs.
